(** * Virtual-DOM Element (html5/runtime/vdom/element.js)

    A shallow embedding of the Element mutation API: the two child orderings
    [children] and [pureChildren], the attribute, style and event maps, and
    the commands sent to the native listener.

    Objects live in a store indexed by their [nodeId]; a JavaScript reference
    to a node is its identifier, so that two references denote the same object
    exactly when the identifiers are equal.  Arrays and maps are fields of the
    stored node and every assignment is an update of the store.

    [attr], [style] and [event] are objects used as maps: [o[key]] reads an
    own property or, failing that, what the prototype of the object gives,
    and [o[key] = v] writes an own property unless it ends in the setter of
    [__proto__].  The prototype of a map is [Object.prototype] as the
    realm has it (ECMAScript with its Annex B), unless an assignment to
    [__proto__] replaced it. *)

From stdpp Require Import gmap strings list fin_maps.

Set Warnings "-level-tolerance".

(** ** JavaScript values *)

(** The values that reach [attr], [style], [classStyle], [event] and the
    [silent] / [preserved] flags.  Numbers are the integers and NaN; a function
    or object made by the caller is a reference, and a built-in object of the
    realm ([Object.prototype] and the functions it holds) goes by its name. *)
Inductive value :=
| VUndefined
| VNull
| VBool (b : bool)
| VNum (n : Z)
| VNaN
| VStr (s : string)
| VRef (r : nat)
| VIntrinsic (name : string).

Global Instance value_eq_dec : EqDecision value.
Proof. solve_decision. Defined.

(** [a === b] *)
Definition strict_eq (a b : value) : bool :=
  match a, b with
  | VNaN, _ | _, VNaN => false
  | _, _ => bool_decide (a = b)
  end.

(** ToBoolean *)
Definition truthy (v : value) : bool :=
  match v with
  | VUndefined | VNull | VNaN => false
  | VBool b => b
  | VNum n => negb (n =? 0)%Z
  | VStr s => negb (bool_decide (s = ""%string))
  | VRef _ | VIntrinsic _ => true
  end.

(** [typeof v] is ["object"] or ["function"], and [v] is not [null]. *)
Definition is_object (v : value) : bool :=
  match v with
  | VRef _ | VIntrinsic _ => true
  | _ => false
  end.

(** The own properties of a plain object used as a map from property names
    to values. *)
Abbreviation jsobject := (gmap string value).

(** [Object.prototype], the prototype of every object an object literal
    makes, and the functions it holds next to [constructor] and the
    [__proto__] accessor. *)
Definition Object_prototype : value := VIntrinsic "Object.prototype".

Definition Object_prototype_methods : list string :=
  ["hasOwnProperty"; "isPrototypeOf"; "propertyIsEnumerable";
   "toLocaleString"; "toString"; "valueOf";
   "__defineGetter__"; "__defineSetter__";
   "__lookupGetter__"; "__lookupSetter__"]%string.

(** [Object.prototype[key]] for a key other than [__proto__]. *)
Definition Object_prototype_get (key : string) : value :=
  if bool_decide (key = "constructor"%string) then VIntrinsic "Object"
  else if bool_decide (key ∈ Object_prototype_methods)
  then VIntrinsic ("Object.prototype." +:+ key)
  else VUndefined.

(** A name [Object.prototype] has a property for. *)
Definition on_Object_prototype (key : string) : Prop :=
  key ∈ ("__proto__" :: "constructor" :: Object_prototype_methods)%string.

Global Instance on_Object_prototype_dec key : Decision (on_Object_prototype key).
Proof. unfold on_Object_prototype. apply _. Defined.

(** What an object other than [Object.prototype] answers when [key] is read
    through it; these objects are not in the store, the world says what is
    read. *)
Abbreviation properties := (value → string → value).

(** [o[key]] where [o] has no property [key] of its own and [proto] is its
    prototype, [null] or an object.  Every object inherits the [__proto__]
    accessor of [Object.prototype], whose getter answers the prototype of
    the object that is read. *)
Definition inherited (outside : properties) (proto : value) (key : string)
    : value :=
  if negb (is_object proto) then VUndefined
  else if bool_decide (key = "__proto__"%string) then proto
  else if bool_decide (proto = Object_prototype) then Object_prototype_get key
  else outside proto key.

(** [o[key]] : an own property if there is one, what the prototype gives
    otherwise. *)
Definition get (outside : properties) (proto : value) (o : jsobject)
    (key : string) : value :=
  match o !! key with
  | Some v => v
  | None => inherited outside proto key
  end.

(** Whether [o[key] = v] ends in the setter of the [__proto__] accessor: the
    key is [__proto__], [o] has no property of its own by that name, and its
    prototype is an object. *)
Definition reaches_setter (proto : value) (o : jsobject) (key : string) : bool :=
  bool_decide (key = "__proto__"%string)
  && bool_decide (o !! key = None) && is_object proto.

(** [o[key] = v], as the prototype and the own properties it leaves.  The
    setter of [__proto__] replaces the prototype when [v] is an object or
    [null] and does nothing for any other value; every other assignment
    writes an own property (the properties found along the prototypes are
    writable data properties, as those of [Object.prototype] are). *)
Definition put (proto : value) (o : jsobject) (key : string) (v : value)
    : value * jsobject :=
  if reaches_setter proto o key
  then (if is_object v || bool_decide (v = VNull) then v else proto, o)
  else (proto, <[key := v]> o).

(** The prototype of a map that an object literal made ([Object.prototype])
    or that has none ([null]): nothing is read or written through an object
    from outside the store. *)
Definition plain (proto : value) : Prop :=
  proto = Object_prototype ∨ proto = VNull.

Global Instance plain_dec proto : Decision (plain proto).
Proof. unfold plain. apply _. Defined.

(** [Object.assign(target, source)] on the own properties. *)
Definition assign (target source : jsobject) : jsobject := source ∪ target.

(** ** Commands and the trace of external calls *)

Abbreviation id := nat.
Abbreviation docid := string.

Inductive command :=
| AddElement (node : id) (parentRef : id) (index : Z)
| MoveElement (ref : id) (parentRef : id) (index : Z)
| RemoveElement (ref : id)
| SetAttr (ref : id) (key : string) (v : value)
| SetStyle (ref : id) (key : string) (v : value)
| SetStyles (ref : id) (styles : jsobject)
| AddEvent (ref : id) (type : string)
| RemoveEvent (ref : id) (type : string).

Global Instance command_eq_dec : EqDecision command.
Proof. solve_decision. Defined.

(** What leaves the module, in order: a command handed to the listener of a
    document, or [node.destroy()] invoked on a node. *)
Inductive effect :=
| Send (doc : docid) (c : command)
| Destroy (node : id).

Global Instance effect_eq_dec : EqDecision effect.
Proof. solve_decision. Defined.

(** What a method returns: nothing, or whatever the listener answered to the
    command it was handed. *)
Inductive ret :=
| undefined
| signal (c : command).

(** ** Nodes, documents and the store *)

(** The fields of a node.  [attr], [style], [classStyle] and [event] hold
    the own properties of the four map objects; [attr_prototype] and
    [style_prototype] are the prototypes of the objects in [attr] and
    [style], the two maps that are both read by key and assigned to under
    any key. *)
Record Node := mkNode {
  nodeType : Z;
  type : string;
  parentNode : option id;
  previousSibling : option id;
  nextSibling : option id;
  docId : option docid;
  children : list id;
  pureChildren : list id;
  attr : jsobject;
  style : jsobject;
  classStyle : jsobject;
  event : jsobject;
  attr_prototype : value;
  style_prototype : value
}.

(** A node nothing was ever assigned to. *)
Definition blank : Node :=
  mkNode 0%Z "" None None None None [] [] ∅ ∅ ∅ ∅
    Object_prototype Object_prototype.

Global Instance Node_inhabited : Inhabited Node := populate blank.

Definition DEFAULT_TAG_NAME : string := "div".

(** [props] of the constructor; a missing field is [None], a field that is
    given is an object an object literal made. *)
Record Props := mkProps {
  p_attr : option jsobject;
  p_style : option jsobject;
  p_classStyle : option jsobject
}.

(** [new Element(type, props)]; the node identifier comes from [uniqueId]
    and is the key under which the record is stored. *)
Definition Element (ty : option string) (props : Props) : Node :=
  {| nodeType := 1%Z;
     type := default DEFAULT_TAG_NAME ty;
     parentNode := None; previousSibling := None; nextSibling := None;
     docId := None;
     children := []; pureChildren := [];
     attr := default ∅ (p_attr props);
     style := default ∅ (p_style props);
     classStyle := default ∅ (p_classStyle props);
     event := ∅;
     attr_prototype := Object_prototype;
     style_prototype := Object_prototype |}.

Record Doc := mkDoc {
  nodeMap : gset id;
  listener : bool
}.

(** The store of nodes, the document registry, what has left the module so
    far, and the properties of the objects that live outside the store. *)
Record World := mkWorld {
  nodes : gmap id Node;
  docs : gmap docid Doc;
  trace : list effect;
  outside : properties
}.

Definition node_of (w : World) (n : id) : Node := nodes w !!! n.

Definition upd (n : id) (f : Node → Node) (w : World) : World :=
  {| nodes := <[n := f (node_of w n)]> (nodes w);
     docs := docs w;
     trace := trace w;
     outside := outside w |}.

Definition emit (e : effect) (w : World) : World :=
  {| nodes := nodes w; docs := docs w; trace := trace w ++ [e];
     outside := outside w |}.

(** Field assignments. *)
Definition set_parentNode (v : option id) (nd : Node) : Node :=
  mkNode (nodeType nd) (type nd) v (previousSibling nd) (nextSibling nd)
    (docId nd) (children nd) (pureChildren nd)
    (attr nd) (style nd) (classStyle nd) (event nd)
    (attr_prototype nd) (style_prototype nd).
Definition set_previousSibling (v : option id) (nd : Node) : Node :=
  mkNode (nodeType nd) (type nd) (parentNode nd) v (nextSibling nd)
    (docId nd) (children nd) (pureChildren nd)
    (attr nd) (style nd) (classStyle nd) (event nd)
    (attr_prototype nd) (style_prototype nd).
Definition set_nextSibling (v : option id) (nd : Node) : Node :=
  mkNode (nodeType nd) (type nd) (parentNode nd) (previousSibling nd) v
    (docId nd) (children nd) (pureChildren nd)
    (attr nd) (style nd) (classStyle nd) (event nd)
    (attr_prototype nd) (style_prototype nd).
Definition set_docId (v : option docid) (nd : Node) : Node :=
  mkNode (nodeType nd) (type nd) (parentNode nd) (previousSibling nd)
    (nextSibling nd) v (children nd) (pureChildren nd)
    (attr nd) (style nd) (classStyle nd) (event nd)
    (attr_prototype nd) (style_prototype nd).
Definition set_children (v : list id) (nd : Node) : Node :=
  mkNode (nodeType nd) (type nd) (parentNode nd) (previousSibling nd)
    (nextSibling nd) (docId nd) v (pureChildren nd)
    (attr nd) (style nd) (classStyle nd) (event nd)
    (attr_prototype nd) (style_prototype nd).
Definition set_pureChildren (v : list id) (nd : Node) : Node :=
  mkNode (nodeType nd) (type nd) (parentNode nd) (previousSibling nd)
    (nextSibling nd) (docId nd) (children nd) v
    (attr nd) (style nd) (classStyle nd) (event nd)
    (attr_prototype nd) (style_prototype nd).
Definition set_attr (v : jsobject) (nd : Node) : Node :=
  mkNode (nodeType nd) (type nd) (parentNode nd) (previousSibling nd)
    (nextSibling nd) (docId nd) (children nd) (pureChildren nd)
    v (style nd) (classStyle nd) (event nd)
    (attr_prototype nd) (style_prototype nd).
Definition set_style (v : jsobject) (nd : Node) : Node :=
  mkNode (nodeType nd) (type nd) (parentNode nd) (previousSibling nd)
    (nextSibling nd) (docId nd) (children nd) (pureChildren nd)
    (attr nd) v (classStyle nd) (event nd)
    (attr_prototype nd) (style_prototype nd).
Definition set_classStyle (v : jsobject) (nd : Node) : Node :=
  mkNode (nodeType nd) (type nd) (parentNode nd) (previousSibling nd)
    (nextSibling nd) (docId nd) (children nd) (pureChildren nd)
    (attr nd) (style nd) v (event nd)
    (attr_prototype nd) (style_prototype nd).
Definition set_event (v : jsobject) (nd : Node) : Node :=
  mkNode (nodeType nd) (type nd) (parentNode nd) (previousSibling nd)
    (nextSibling nd) (docId nd) (children nd) (pureChildren nd)
    (attr nd) (style nd) (classStyle nd) v
    (attr_prototype nd) (style_prototype nd).
Definition set_attr_prototype (v : value) (nd : Node) : Node :=
  mkNode (nodeType nd) (type nd) (parentNode nd) (previousSibling nd)
    (nextSibling nd) (docId nd) (children nd) (pureChildren nd)
    (attr nd) (style nd) (classStyle nd) (event nd)
    v (style_prototype nd).
Definition set_style_prototype (v : value) (nd : Node) : Node :=
  mkNode (nodeType nd) (type nd) (parentNode nd) (previousSibling nd)
    (nextSibling nd) (docId nd) (children nd) (pureChildren nd)
    (attr nd) (style nd) (classStyle nd) (event nd)
    (attr_prototype nd) v.

(** [this.ref = this.nodeId], and the node identifier is the store key. *)
Definition ref (n : id) : id := n.

(** [node.nodeType === 1] *)
Definition isElement (w : World) (n : id) : bool :=
  (nodeType (node_of w n) =? 1)%Z.

(** ** Arrays *)

Fixpoint index_of (x : id) (l : list id) : option nat :=
  match l with
  | [] => None
  | y :: l' => if decide (x = y) then Some 0 else S <$> index_of x l'
  end.

(** [list.indexOf(x)]; [x] may be [undefined], which no array here holds. *)
Definition indexOf (l : list id) (x : option id) : Z :=
  match x ≫= λ x', index_of x' l with
  | Some i => Z.of_nat i
  | None => (-1)%Z
  end.

(** The position [splice] starts at: counted from the end when negative,
    and kept inside the array. *)
Definition splice_start (len : nat) (start : Z) : nat :=
  if (start <? 0)%Z then Z.to_nat (Z.max (Z.of_nat len + start) 0)
  else Nat.min (Z.to_nat start) len.

(** [list.splice(i, 0, x)] and [list.splice(i, 1)] at a position inside
    the array. *)
Definition insert_at (i : nat) (x : id) (l : list id) : list id :=
  take i l ++ x :: drop i l.
Definition delete_at (i : nat) (l : list id) : list id :=
  take i l ++ drop (S i) l.

(** [list[i - 1]] *)
Definition prev_at (l : list id) (i : nat) : option id :=
  match i with
  | O => None
  | S j => l !! j
  end.

(** The two arrays of an element are objects of their own, handed to the
    index helpers by reference and changed in place. *)
Inductive collection :=
| Children (owner : id)
| PureChildren (owner : id).

Definition read (c : collection) (w : World) : list id :=
  match c with
  | Children p => children (node_of w p)
  | PureChildren p => pureChildren (node_of w p)
  end.

Definition write (c : collection) (l : list id) (w : World) : World :=
  match c with
  | Children p => upd p (set_children l) w
  | PureChildren p => upd p (set_pureChildren l) w
  end.

(** [n && (n.nextSibling = v)] and [n && (n.previousSibling = v)] *)
Definition set_next (n v : option id) (w : World) : World :=
  match n with
  | Some n' => upd n' (set_nextSibling v) w
  | None => w
  end.
Definition set_prev (n v : option id) (w : World) : World :=
  match n with
  | Some n' => upd n' (set_previousSibling v) w
  | None => w
  end.

(** ** The operations of [./operation] and [./node]

    These live outside [element.js]; each is written from what the
    specification says about it. *)

(** Modelled from the spec: the sibling links written when [target] is put
    between [before] and [after] ("maintaining bidirectional sibling
    pointers (previous/next) consistent with that collection's order"). *)
Definition link (target : id) (before after : option id) (w : World) : World :=
  let w := set_next before (Some target) w in
  let w := set_prev (Some target) before w in
  let w := set_next (Some target) after w in
  set_prev after (Some target) w.

(** Modelled from the spec: the sibling links written when the entry between
    [before] and [after] is taken out; the two neighbours are linked to each
    other. *)
Definition unlink (before after : option id) (w : World) : World :=
  let w := set_next before after w in
  set_prev after before w.

(** Modelled from the spec: [insertIndex(node, collection, position,
    relinkSiblings?) -> index], an "array-splice primitive" that inserts an
    entry and returns the index at which it sits. *)
Definition insertIndex (target : id) (c : collection) (newIndex : Z)
    (changeSibling : bool) (w : World) : Z * World :=
  let l := read c w in
  let i := splice_start (length l) newIndex in
  let w := write c (insert_at i target l) w in
  let w := if changeSibling then link target (prev_at l i) (l !! i) w else w in
  (Z.of_nat i, w).

(** Modelled from the spec: [moveIndex(node, collection, position,
    relinkSiblings?) -> index|-1 (if unchanged)].  The position is one of
    the array as it is before the move ([appendChild] passes its length to
    move an entry to the end, [insertBefore] the index of the entry to land
    in front of); the result is the new index of the entry, or -1 when the
    entry did not move or is not in the array. *)
Definition moveIndex (target : id) (c : collection) (newIndex : Z)
    (changeSibling : bool) (w : World) : Z * World :=
  let l := read c w in
  match index_of target l with
  | None => ((-1)%Z, w)
  | Some i =>
    let w := if changeSibling then unlink (prev_at l i) (l !! S i) w else w in
    let l0 := delete_at i l in
    let p := if (Z.of_nat i <? newIndex)%Z then (newIndex - 1)%Z else newIndex in
    let j := splice_start (length l0) p in
    let w := write c (insert_at j target l0) w in
    let w := if changeSibling then link target (prev_at l0 j) (l0 !! j) w else w in
    (if bool_decide (j = i) then (-1)%Z else Z.of_nat j, w)
  end.

(** Modelled from the spec: [removeIndex(node, collection,
    relinkSiblings?)], which takes the entry out of the array; an entry
    that is not there leaves the array as it is. *)
Definition removeIndex (target : id) (c : collection)
    (changeSibling : bool) (w : World) : World :=
  let l := read c w in
  match index_of target l with
  | None => w
  | Some i =>
    let w := if changeSibling then unlink (prev_at l i) (l !! S i) w else w in
    write c (delete_at i l) w
  end.

(** [if (this.docId)] : an identifier is a string, set and not empty. *)
Definition docId_truthy (d : option docid) : bool :=
  match d with
  | Some s => negb (bool_decide (s = ""%string))
  | None => false
  end.

(** Modelled from the spec: [linkParent(node, parent)], "link it under
    this": the parent link is set and the node takes the document of its
    parent ("docId ... set when attached"). *)
Definition linkParent (node parent : id) (w : World) : World :=
  let d := docId (node_of w parent) in
  let w := upd node (set_parentNode (Some parent)) w in
  if docId_truthy d then upd node (set_docId d) w else w.

(** The entries of the parent's [children] from [n] on, and up to [n]; a
    node that is in no such array stands alone. *)
Definition siblings_from (w : World) (n : id) : list id :=
  match parentNode (node_of w n) with
  | Some p =>
    match index_of n (children (node_of w p)) with
    | Some i => drop i (children (node_of w p))
    | None => [n]
    end
  | None => [n]
  end.
Definition siblings_upto (w : World) (n : id) : list id :=
  match parentNode (node_of w n) with
  | Some p =>
    match index_of n (children (node_of w p)) with
    | Some i => take (S i) (children (node_of w p))
    | None => [n]
    end
  | None => [n]
  end.

(** Modelled from the spec: [nextElement(node) -> Element|undefined], "the
    nearest Element at or after [before] in document order", the order of
    the parent's [children]. *)
Definition nextElement (w : World) (node : option id) : option id :=
  n ← node; head (filter (λ c, isElement w c = true) (siblings_from w n)).

(** Modelled from the spec: [previousElement(node) -> Element|undefined],
    "the nearest Element at or before [after]". *)
Definition previousElement (w : World) (node : option id) : option id :=
  n ← node; last (filter (λ c, isElement w c = true) (siblings_upto w n)).

Definition empty_doc : Doc := mkDoc ∅ false.

(** Modelled from the spec: [getDoc(docId) -> { nodeMap }]; every document
    identifier has a node table, empty until a node is registered. *)
Definition getDoc (d : docid) (w : World) : Doc :=
  default empty_doc (docs w !! d).

(** Modelled from the spec: [getListener(docId) -> listener | undefined];
    the listener of a document is named by the document it is bound to. *)
Definition getListener (d : option docid) (w : World) : option docid :=
  d' ← d; doc ← docs w !! d'; if listener doc then Some d' else None.

(** Modelled from the spec: the nodes released by [destroy], the node and
    "recursively ... its own subtree", followed through [children] as deep
    as the store has nodes. *)
Fixpoint subtree (fuel : nat) (w : World) (n : id) : list id :=
  match fuel with
  | O => [n]
  | S f => n :: flat_map (subtree f w) (children (node_of w n))
  end.

Definition release (ns : list id) (d : Doc) : Doc :=
  mkDoc (nodeMap d ∖ list_to_set ns) (listener d).

(** Modelled from the spec: [Node.prototype.destroy], of the base node.  The
    call is recorded and the node tables let go of the node and of its
    subtree ("resources held by the external node table"); the child arrays
    and the links of the nodes are not touched. *)
Definition destroy (n : id) (w : World) : World :=
  {| nodes := nodes w;
     docs := release (subtree (size (nodes w)) w n) <$> docs w;
     trace := trace w ++ [Destroy n];
     outside := outside w |}.

(** ** The methods of [Element.prototype] *)

(** A call returns, or throws when it reads a property of something that is
    not an object (a reference the store has no node for). *)
Inductive outcome :=
| Returned (r : ret) (w : World)
| Thrown.

(** Truthiness of a reference, and [a === this]. *)
Definition is_set (o : option id) : bool := bool_decide (is_Some o).
Definition same (o : option id) (this : id) : bool := bool_decide (o = Some this).

(** [doc.nodeMap[node.nodeId] = node] *)
Definition registerNode (d : docid) (node : id) (w : World) : World :=
  let doc := getDoc d w in
  {| nodes := nodes w;
     docs := <[d := mkDoc ({[node]} ∪ nodeMap doc) (listener doc)]> (docs w);
     trace := trace w;
     outside := outside w |}.

(** [if (this.docId) { registerNode(this.docId, node) }] *)
Definition register (this node : id) (w : World) : World :=
  match docId (node_of w this) with
  | Some d => if docId_truthy (Some d) then registerNode d node w else w
  | None => w
  end.

(** [const listener = getListener(this.docId); if (listener) { return
    listener.cmd(...) }] *)
Definition tell (this : id) (c : command) (w : World) : outcome :=
  match getListener (docId (node_of w this)) w with
  | Some l => Returned (signal c) (emit (Send l c) w)
  | None => Returned undefined w
  end.

(** [if (listener && index >= 0) { return listener.moveElement(...) }] *)
Definition tell_move (this node : id) (index : Z) (w : World) : outcome :=
  match getListener (docId (node_of w this)) w with
  | Some l =>
    if (0 <=? index)%Z
    then Returned (signal (MoveElement (ref node) (ref this) index))
           (emit (Send l (MoveElement (ref node) (ref this) index)) w)
    else Returned undefined w
  | None => Returned undefined w
  end.

Definition len (c : collection) (w : World) : Z := Z.of_nat (length (read c w)).

Definition appendChild (this node : id) (w : World) : outcome :=
  match nodes w !! node with
  | None => Thrown
  | Some nd =>
    if is_set (parentNode nd) && negb (same (parentNode nd) this)
    then Returned undefined w
    else if negb (is_set (parentNode nd)) then
      let w := linkParent node this w in
      let w := (insertIndex node (Children this) (len (Children this) w) true w).2 in
      let w := register this node w in
      if isElement w node then
        let w := (insertIndex node (PureChildren this)
                    (len (PureChildren this) w) false w).2 in
        tell this (AddElement node (ref this) (-1)) w
      else Returned undefined w
    else
      let w := (moveIndex node (Children this) (len (Children this) w) true w).2 in
      if isElement w node then
        let r := moveIndex node (PureChildren this)
                   (len (PureChildren this) w) false w in
        tell_move this node r.1 r.2
      else Returned undefined w
  end.

Definition insertBefore (this node : id) (before : option id) (w : World)
    : outcome :=
  match nodes w !! node with
  | None => Thrown
  | Some nd =>
    if is_set (parentNode nd) && negb (same (parentNode nd) this)
    then Returned undefined w
    else if bool_decide (Some node = before)
            || (is_set (nextSibling nd) && bool_decide (nextSibling nd = before))
    then Returned undefined w
    else if negb (is_set (parentNode nd)) then
      let w := linkParent node this w in
      let w := (insertIndex node (Children this)
                  (indexOf (read (Children this) w) before) true w).2 in
      let w := register this node w in
      if isElement w node then
        let pureBefore := nextElement w before in
        let r := insertIndex node (PureChildren this)
                   (if is_set pureBefore
                    then indexOf (read (PureChildren this) w) pureBefore
                    else len (PureChildren this) w) false w in
        tell this (AddElement node (ref this) r.1) r.2
      else Returned undefined w
    else
      let w := (moveIndex node (Children this)
                  (indexOf (read (Children this) w) before) true w).2 in
      if isElement w node then
        let pureBefore := nextElement w before in
        let r := moveIndex node (PureChildren this)
                   (if is_set pureBefore
                    then indexOf (read (PureChildren this) w) pureBefore
                    else len (PureChildren this) w) false w in
        tell_move this node r.1 r.2
      else Returned undefined w
  end.

Definition insertAfter (this node : id) (after : option id) (w : World)
    : outcome :=
  match nodes w !! node with
  | None => Thrown
  | Some nd =>
    if is_set (parentNode nd) && negb (same (parentNode nd) this)
    then Returned undefined w
    else if bool_decide (Some node = after)
            || (is_set (previousSibling nd)
                && bool_decide (previousSibling nd = after))
    then Returned undefined w
    else if negb (is_set (parentNode nd)) then
      let w := linkParent node this w in
      let w := (insertIndex node (Children this)
                  (indexOf (read (Children this) w) after + 1) true w).2 in
      let w := register this node w in
      if isElement w node then
        let r := insertIndex node (PureChildren this)
                   (indexOf (read (PureChildren this) w)
                      (previousElement w after) + 1) false w in
        tell this (AddElement node (ref this) r.1) r.2
      else Returned undefined w
    else
      let w := (moveIndex node (Children this)
                  (indexOf (read (Children this) w) after + 1) true w).2 in
      if isElement w node then
        let r := moveIndex node (PureChildren this)
                   (indexOf (read (PureChildren this) w)
                      (previousElement w after) + 1) false w in
        tell_move this node r.1 r.2
      else Returned undefined w
  end.

(** [if (listener) { listener.cmd(...) }], the answer dropped. *)
Definition send_to (l : option docid) (c : command) (w : World) : World :=
  match l with
  | Some d => emit (Send d c) w
  | None => w
  end.

Definition removeChild (this node : id) (preserved : value) (w : World)
    : outcome :=
  match nodes w !! node with
  | None => Thrown
  | Some nd =>
    let w :=
      if is_set (parentNode nd) then
        let w := removeIndex node (Children this) true w in
        if isElement w node then
          let w := removeIndex node (PureChildren this) false w in
          send_to (getListener (docId (node_of w this)) w) (RemoveElement (ref node)) w
        else w
      else w in
    let w := if negb (truthy preserved) then destroy node w else w in
    Returned undefined w
  end.

(** [list.forEach(f)] for an [f] that acts on the world. *)
Definition forEach (f : id → World → World) (l : list id) (w : World) : World :=
  foldl (λ w' n, f n w') w l.

Definition clear (this : id) (w : World) : outcome :=
  let listener := getListener (docId (node_of w this)) w in
  let w :=
    if bool_decide (is_Some listener)
    then forEach (λ node, send_to listener (RemoveElement (ref node)))
           (read (PureChildren this) w) w
    else w in
  let w := forEach destroy (read (Children this) w) w in
  let w := write (Children this) [] w in
  let w := write (PureChildren this) [] w in
  Returned undefined w.

Definition toStyle (w : World) (this : id) : jsobject :=
  assign (assign ∅ (classStyle (node_of w this))) (style (node_of w this)).

(** [this.attr[key]] and [this.attr[key] = v]; the same for [this.style]. *)
Definition attr_get (w : World) (this : id) (key : string) : value :=
  get (outside w) (attr_prototype (node_of w this)) (attr (node_of w this)) key.
Definition attr_put (key : string) (v : value) (nd : Node) : Node :=
  let r := put (attr_prototype nd) (attr nd) key v in
  set_attr r.2 (set_attr_prototype r.1 nd).
Definition style_get (w : World) (this : id) (key : string) : value :=
  get (outside w) (style_prototype (node_of w this)) (style (node_of w this)) key.
Definition style_put (key : string) (v : value) (nd : Node) : Node :=
  let r := put (style_prototype nd) (style nd) key v in
  set_style r.2 (set_style_prototype r.1 nd).

Definition setAttr (this : id) (key : string) (v silent : value) (w : World)
    : outcome :=
  if strict_eq (attr_get w this key) v
     && negb (strict_eq silent (VBool false))
  then Returned undefined w
  else
    let w := upd this (attr_put key v) w in
    let listener := getListener (docId (node_of w this)) w in
    let w := if negb (truthy silent)
             then send_to listener (SetAttr (ref this) key v) w else w in
    Returned undefined w.

Definition setStyle (this : id) (key : string) (v silent : value) (w : World)
    : outcome :=
  if strict_eq (style_get w this key) v
     && negb (strict_eq silent (VBool false))
  then Returned undefined w
  else
    let w := upd this (style_put key v) w in
    let listener := getListener (docId (node_of w this)) w in
    let w := if negb (truthy silent)
             then send_to listener (SetStyle (ref this) key v) w else w in
    Returned undefined w.

(** The argument of [setClassStyle]: an object of its own, the very object
    the element holds as [classStyle], or nothing ([undefined], [null]). *)
Inductive style_source :=
| Object (o : jsobject)
| OwnClassStyle
| Nothing.

(** [for (const key in o) { o[key] = '' }] *)
Definition reset (o : jsobject) : jsobject := (λ _, VStr "") <$> o.

Definition setClassStyle (this : id) (newClassStyle : style_source)
    (w : World) : outcome :=
  let w := upd this (λ nd, set_classStyle (reset (classStyle nd)) nd) w in
  let source :=
    match newClassStyle with
    | Object o => o
    | OwnClassStyle => classStyle (node_of w this)
    | Nothing => ∅
    end in
  let w := upd this (λ nd, set_classStyle (assign (classStyle nd) source) nd) w in
  let listener := getListener (docId (node_of w this)) w in
  Returned undefined (send_to listener (SetStyles (ref this) (toStyle w this)) w).

(** [this.event[type]], [this.event[type] = handler] and [delete
    this.event[type]].  The constructor makes [this.event] with [{}], and
    the one assignment to it, in [addEvent], is to a type that reads falsy,
    which [__proto__] does not unless it is an own property: the assignment
    never ends in the setter and the prototype stays [Object.prototype]. *)
Definition event_get (w : World) (this : id) (type : string) : value :=
  get (outside w) Object_prototype (event (node_of w this)) type.
Definition event_put (type : string) (handler : value) (nd : Node) : Node :=
  set_event (put Object_prototype (event nd) type handler).2 nd.
Definition event_delete (type : string) (nd : Node) : Node :=
  set_event (delete type (event nd)) nd.

Definition addEvent (this : id) (type : string) (handler : value) (w : World)
    : outcome :=
  if negb (truthy (event_get w this type)) then
    let w := upd this (event_put type handler) w in
    let listener := getListener (docId (node_of w this)) w in
    Returned undefined (send_to listener (AddEvent (ref this) type) w)
  else Returned undefined w.

Definition removeEvent (this : id) (type : string) (w : World) : outcome :=
  if truthy (event_get w this type) then
    let w := upd this (event_delete type) w in
    let listener := getListener (docId (node_of w this)) w in
    Returned undefined (send_to listener (RemoveEvent (ref this) type) w)
  else Returned undefined w.

(** One call after another; an exception ends the run. *)
Definition and_then (o : outcome) (k : World → outcome) : outcome :=
  match o with
  | Returned _ w => k w
  | Thrown => Thrown
  end.

Definition world_of (o : outcome) (w0 : World) : World :=
  match o with
  | Returned _ w => w
  | Thrown => w0
  end.

(** ** Views used by the proofs *)

Global Instance collection_eq_dec : EqDecision collection.
Proof. solve_decision. Defined.

(** A field no sibling link is stored in, and one no array is stored in. *)
Definition link_stable {A} (g : Node → A) : Prop :=
  ∀ v nd, g (set_nextSibling v nd) = g nd ∧ g (set_previousSibling v nd) = g nd.
Definition list_stable {A} (g : Node → A) : Prop :=
  ∀ v nd, g (set_children v nd) = g nd ∧ g (set_pureChildren v nd) = g nd.

(** The array [moveIndex] leaves and the index it returns. *)
Definition moved (t : id) (p : Z) (l : list id) : list id * Z :=
  match index_of t l with
  | None => (l, (-1)%Z)
  | Some i =>
    let l0 := delete_at i l in
    let j := splice_start (length l0)
               (if (Z.of_nat i <? p)%Z then (p - 1)%Z else p) in
    (insert_at j t l0, if bool_decide (j = i) then (-1)%Z else Z.of_nat j)
  end.

(** The array [removeIndex] leaves. *)
Definition removed (t : id) (l : list id) : list id :=
  match index_of t l with
  | None => l
  | Some i => delete_at i l
  end.

(** The array [insertIndex] leaves. *)
Definition inserted (p : Z) (t : id) (l : list id) : list id :=
  insert_at (splice_start (length l) p) t l.

(** The entries of an array that are elements. *)
Abbreviation elems w := (filter (λ c, isElement w c = true)).

(** ** Sequences of calls and the invariant *)

Inductive call :=
| AppendChild (this node : id)
| InsertBefore (this node : id) (before : option id)
| InsertAfter (this node : id) (after : option id)
| RemoveChild (this node : id) (preserved : value)
| Clear (this : id).

Definition exec (c : call) (w : World) : outcome :=
  match c with
  | AppendChild this node => appendChild this node w
  | InsertBefore this node before => insertBefore this node before w
  | InsertAfter this node after => insertAfter this node after w
  | RemoveChild this node preserved => removeChild this node preserved w
  | Clear this => clear this w
  end.

Fixpoint run (cs : list call) (w : World) : outcome :=
  match cs with
  | [] => Returned undefined w
  | c :: cs' => and_then (exec c w) (run cs')
  end.

(** [x] is a node found in [this.children]. *)
Definition is_child (w : World) (this : id) (x : option id) : Prop :=
  match x with
  | Some b => b ∈ children (node_of w this)
  | None => False
  end.

(** What a call asks of its arguments: [node] is an object, and the node an
    insertion is made relative to is a child of [this]. *)
Definition pre (c : call) (w : World) : Prop :=
  match c with
  | AppendChild _ node | RemoveChild _ node _ => is_Some (nodes w !! node)
  | InsertBefore this node x | InsertAfter this node x =>
    is_Some (nodes w !! node) ∧ is_child w this x
  | Clear _ => True
  end.

Fixpoint respects (cs : list call) (w : World) : Prop :=
  match cs with
  | [] => True
  | c :: cs' => pre c w ∧ respects cs' (world_of (exec c w) w)
  end.

(** The invariant of the claim, for one node and for all. *)
Definition pure_ok (w : World) (p : id) : Prop :=
  pureChildren (node_of w p)
    = filter (λ c, isElement w c = true) (children (node_of w p)).

(** What the stores reached from freshly made nodes satisfy: the invariant, no
    node twice in a [children] array, and every node of the array linked to
    the owner of the array. *)
Definition node_wf (w : World) (p : id) : Prop :=
  pure_ok w p
  ∧ NoDup (children (node_of w p))
  ∧ Forall (λ c, parentNode (node_of w c) = Some p) (children (node_of w p)).

Definition WF (w : World) : Prop := ∀ p, node_wf w p.

(** The same, checked on the nodes the store holds. *)
Definition WF_stored (w : World) : Prop :=
  map_Forall (λ p _, node_wf w p) (nodes w).

(** The arrays and parent links after a call on [this] with [node]. *)
Definition effect_on (w w' : World) (this node : id) (L PL : list id)
    (parent' : option id) : Prop :=
  (∀ m, nodeType (node_of w' m) = nodeType (node_of w m))
  ∧ (∀ c, read c w' =
       if decide (c = Children this) then L
       else if decide (c = PureChildren this) then PL
       else read c w)
  ∧ (∀ m, parentNode (node_of w' m) =
       if decide (m = node) then parent' else parentNode (node_of w m)).

(** The two branches the three insertion methods share: a detached node is
    linked, inserted into [children] and, if it is an element, into
    [pureChildren]; a child of [this] is moved in both.  The methods differ in
    the positions they pass and in the index they report. *)
Definition attach (this node : id) (pos ppos : World → Z) (sent : Z → Z)
    (w : World) : outcome :=
  let w := linkParent node this w in
  let w := (insertIndex node (Children this) (pos w) true w).2 in
  let w := register this node w in
  if isElement w node then
    let r := insertIndex node (PureChildren this) (ppos w) false w in
    tell this (AddElement node (ref this) (sent r.1)) r.2
  else Returned undefined w.

Definition reorder (this node : id) (pos ppos : World → Z) (w : World)
    : outcome :=
  let w := (moveIndex node (Children this) (pos w) true w).2 in
  if isElement w node then
    let r := moveIndex node (PureChildren this) (ppos w) false w in
    tell_move this node r.1 r.2
  else Returned undefined w.

(** The positions of [insertBefore] and [insertAfter] in [pureChildren]. *)
Definition pure_before (this : id) (before : option id) (w : World) : Z :=
  if is_set (nextElement w before)
  then indexOf (read (PureChildren this) w) (nextElement w before)
  else len (PureChildren this) w.
Definition pure_after (this : id) (after : option id) (w : World) : Z :=
  (indexOf (read (PureChildren this) w) (previousElement w after) + 1)%Z.

(** The two guards of [insertBefore] and of [insertAfter] after the
    rejection of a node that has another parent. *)
Definition already_there (node : id) (sibling x : option id) : bool :=
  bool_decide (Some node = x) || (is_set sibling && bool_decide (sibling = x)).

Global Instance is_child_dec w this x : Decision (is_child w this x).
Proof. destruct x; simpl; apply _. Defined.

Global Instance pre_dec c w : Decision (pre c w).
Proof. destruct c; simpl; apply _. Defined.

Global Instance respects_dec cs w : Decision (respects cs w).
Proof. revert w. induction cs; simpl; intros w; apply _. Defined.

Global Instance node_wf_dec w p : Decision (node_wf w p).
Proof. unfold node_wf, pure_ok. apply _. Defined.

Global Instance WF_stored_dec w : Decision (WF_stored w).
Proof. unfold WF_stored. apply _. Defined.

(** The claim on [removeChild] as it is worded: a node that is not in
    [this.children] is not removed from anything and no command is sent for
    it; only its destruction depends on [preserved] alone. *)
Definition removeChild_acts_only_on_own_child : Prop :=
  ∀ this node preserved w w',
    is_Some (nodes w !! node) →
    node ∉ children (node_of w this) →
    removeChild this node preserved w = Returned undefined w' →
    children (node_of w' this) = children (node_of w this)
    ∧ pureChildren (node_of w' this) = pureChildren (node_of w this)
    ∧ trace w' = trace w ++ if truthy preserved then [] else [Destroy node].

(** ** Sample worlds

    One document, ["doc"], with a listener; [P] (1) and [Q] (5) are elements
    of that document, [A] (2), [B] (4) and [X] (6) detached elements, [T] (3)
    a detached node that is not an element. *)

Definition no_props : Props := mkProps None None None.

(** No object outside the store has a property. *)
Definition no_properties : properties := λ _ _, VUndefined.
Definition other_node : Node :=
  mkNode 8%Z "comment" None None None None [] [] ∅ ∅ ∅ ∅
    Object_prototype Object_prototype.

Definition world0 : World :=
  mkWorld
    (<[1 := set_docId (Some "doc"%string) (Element None no_props)]>
       (<[2 := Element (Some "text"%string) no_props]>
          (<[3 := other_node]>
             (<[4 := Element None no_props]>
                (<[5 := set_docId (Some "doc"%string) (Element None no_props)]>
                   (<[6 := Element None no_props]> ∅))))))
    {[ "doc"%string := mkDoc ∅ true ]}
    [] no_properties.

(** [X] appended to [Q]. *)
Definition world_QX : World := world_of (appendChild 5 6 world0) world0.

(** [P.children = [A, T, B]], [P.pureChildren = [A, B]]. *)
Definition world_ATB : World :=
  world_of (run [AppendChild 1 2; AppendChild 1 3; AppendChild 1 4] world0)
    world0.

(** A run that inserts, moves, removes and clears. *)
Definition sample_calls : list call :=
  [AppendChild 1 2; AppendChild 1 3; InsertBefore 1 4 (Some 3);
   AppendChild 1 2; InsertAfter 1 2 (Some 4); AppendChild 5 6;
   AppendChild 1 6; RemoveChild 1 3 (VBool true); InsertBefore 1 3 (Some 4);
   RemoveChild 1 4 VUndefined; Clear 1].

(** The element a call is made on. *)
Definition target (c : call) : id :=
  match c with
  | AppendChild this _ | InsertBefore this _ _ | InsertAfter this _ _
  | RemoveChild this _ _ | Clear this => this
  end.

(** The links and arrays of a node: what the attribute, style and event
    methods have no business with. *)
Definition shape (nd : Node)
    : Z * option id * option id * option id * option docid * list id * list id :=
  (nodeType nd, parentNode nd, previousSibling nd, nextSibling nd, docId nd,
   children nd, pureChildren nd).

(** The node tables after [registerNode(d, node)]. *)
Definition registered (d : docid) (node : id) (w : World) : gmap docid Doc :=
  <[d := mkDoc ({[node]} ∪ nodeMap (getDoc d w)) (listener (getDoc d w))]>
    (docs w).

(** Every object of [w] is an object of [w']. *)
Definition keeps_objects (w w' : World) : Prop :=
  ∀ m, is_Some (nodes w !! m) → is_Some (nodes w' !! m).

(** * Properties *)

(** ** The store *)

Lemma node_of_upd n f w m :
  node_of (upd n f w) m = if decide (m = n) then f (node_of w n) else node_of w m.
Proof.
  unfold node_of, upd; simpl. case_decide as E.
  - subst. by rewrite lookup_total_insert_eq.
  - by rewrite lookup_total_insert_ne.
Qed.

Lemma node_of_upd_eq n f w : node_of (upd n f w) n = f (node_of w n).
Proof. rewrite node_of_upd. by case_decide. Qed.

Lemma strict_eq_false_flag silent :
  strict_eq silent (VBool false) = true ↔ silent = VBool false.
Proof.
  destruct silent as [| |[]| | | | |]; simpl; split; intros H; try done;
    by apply bool_decide_eq_true in H.
Qed.

Lemma strict_eq_refl v : v ≠ VNaN → strict_eq v v = true.
Proof. destruct v; intros H; try done; simpl; by apply bool_decide_eq_true. Qed.

Lemma getListener_docs d w w' : docs w' = docs w → getListener d w' = getListener d w.
Proof. intros E. unfold getListener. by rewrite E. Qed.

Lemma node_of_send_to l c w n : node_of (send_to l c w) n = node_of w n.
Proof. by destruct l. Qed.

Lemma docs_send_to l c w : docs (send_to l c w) = docs w.
Proof. by destruct l. Qed.

Lemma trace_send_to l c w :
  trace (send_to l c w) = trace w ++ from_option (λ d, [Send d c]) [] l.
Proof. destruct l; simpl; [done|]. by rewrite app_nil_r. Qed.

(** ** Reading and writing a property *)

Lemma reaches_setter_key proto (o : jsobject) key :
  key ≠ "__proto__"%string → reaches_setter proto o key = false.
Proof.
  intros H. unfold reaches_setter. by rewrite (bool_decide_eq_false_2 _ H).
Qed.

Lemma reaches_setter_own proto (o : jsobject) key :
  is_Some (o !! key) → reaches_setter proto o key = false.
Proof.
  intros [x Hx]. unfold reaches_setter.
  rewrite (bool_decide_eq_false_2 (o !! key = None)); [|by rewrite Hx].
  by rewrite andb_false_r.
Qed.

Lemma put_own proto (o : jsobject) key v :
  reaches_setter proto o key = false → put proto o key v = (proto, <[key := v]> o).
Proof. intros H. unfold put. by rewrite H. Qed.

Lemma put_setter proto (o : jsobject) key v :
  reaches_setter proto o key = true →
  put proto o key v
    = (if is_object v || bool_decide (v = VNull) then v else proto, o).
Proof. intros H. unfold put. by rewrite H. Qed.

Lemma get_own outside proto (o : jsobject) key v :
  o !! key = Some v → get outside proto o key = v.
Proof. intros H. unfold get. by rewrite H. Qed.

Lemma get_put outside proto (o : jsobject) key v :
  reaches_setter proto o key = false →
  get outside (put proto o key v).1 (put proto o key v).2 key = v.
Proof.
  intros H. rewrite (put_own _ _ _ _ H). simpl.
  apply get_own, lookup_insert_eq.
Qed.

Lemma inherited_truthy outside key :
  on_Object_prototype key → truthy (inherited outside Object_prototype key) = true.
Proof.
  intros H. unfold inherited. change (is_object Object_prototype) with true.
  cbn [negb].
  destruct (bool_decide (key = "__proto__"%string)) eqn:E1; [done|].
  rewrite (bool_decide_eq_true_2 (Object_prototype = _)) by done.
  unfold Object_prototype_get.
  destruct (bool_decide (key = "constructor"%string)) eqn:E2; [done|].
  apply bool_decide_eq_false in E1, E2.
  unfold on_Object_prototype in H.
  apply elem_of_cons in H as [H|H]; [done|].
  apply elem_of_cons in H as [H|H]; [done|].
  by rewrite (bool_decide_eq_true_2 _ H).
Qed.

Lemma inherited_undefined outside key :
  ¬ on_Object_prototype key → inherited outside Object_prototype key = VUndefined.
Proof.
  intros H. unfold inherited, on_Object_prototype in *.
  change (is_object Object_prototype) with true. cbn [negb].
  rewrite !not_elem_of_cons in H. destruct H as (H1 & H2 & H3).
  rewrite (bool_decide_eq_false_2 _ H1).
  rewrite (bool_decide_eq_true_2 (Object_prototype = _)) by done.
  unfold Object_prototype_get.
  by rewrite (bool_decide_eq_false_2 _ H2), (bool_decide_eq_false_2 _ H3).
Qed.

(** ** Attributes and styles *)

Lemma setAttr_skip this key v silent w :
  strict_eq (attr_get w this key) v
    && negb (strict_eq silent (VBool false)) = true →
  setAttr this key v silent w = Returned undefined w.
Proof. intros H. unfold setAttr. by rewrite H. Qed.

Lemma setAttr_write this key v silent w :
  strict_eq (attr_get w this key) v
    && negb (strict_eq silent (VBool false)) = false →
  ∃ w', setAttr this key v silent w = Returned undefined w' ∧
    (attr_prototype (node_of w' this), attr (node_of w' this))
      = put (attr_prototype (node_of w this)) (attr (node_of w this)) key v ∧
    docId (node_of w' this) = docId (node_of w this) ∧
    docs w' = docs w ∧
    outside w' = outside w ∧
    trace w' = trace w ++
      if truthy silent then []
      else from_option (λ l, [Send l (SetAttr (ref this) key v)]) []
             (getListener (docId (node_of w this)) w).
Proof.
  intros H. unfold setAttr. rewrite H. eexists. split; [reflexivity|].
  rewrite !node_of_upd_eq. unfold attr_put. simpl.
  destruct (truthy silent); simpl.
  - rewrite node_of_upd_eq. simpl. rewrite app_nil_r.
    by destruct (put _ _ _ _).
  - rewrite node_of_send_to, docs_send_to, trace_send_to, node_of_upd_eq.
    simpl. repeat split; try done.
    + by destruct (put _ _ _ _).
    + by destruct (getListener _ _).
Qed.

Lemma setStyle_skip this key v silent w :
  strict_eq (style_get w this key) v
    && negb (strict_eq silent (VBool false)) = true →
  setStyle this key v silent w = Returned undefined w.
Proof. intros H. unfold setStyle. by rewrite H. Qed.

Lemma setStyle_write this key v silent w :
  strict_eq (style_get w this key) v
    && negb (strict_eq silent (VBool false)) = false →
  ∃ w', setStyle this key v silent w = Returned undefined w' ∧
    (style_prototype (node_of w' this), style (node_of w' this))
      = put (style_prototype (node_of w this)) (style (node_of w this)) key v ∧
    docId (node_of w' this) = docId (node_of w this) ∧
    docs w' = docs w ∧
    outside w' = outside w ∧
    trace w' = trace w ++
      if truthy silent then []
      else from_option (λ l, [Send l (SetStyle (ref this) key v)]) []
             (getListener (docId (node_of w this)) w).
Proof.
  intros H. unfold setStyle. rewrite H. eexists. split; [reflexivity|].
  rewrite !node_of_upd_eq. unfold style_put. simpl.
  destruct (truthy silent); simpl.
  - rewrite node_of_upd_eq. simpl. rewrite app_nil_r.
    by destruct (put _ _ _ _).
  - rewrite node_of_send_to, docs_send_to, trace_send_to, node_of_upd_eq.
    simpl. repeat split; try done.
    + by destruct (put _ _ _ _).
    + by destruct (getListener _ _).
Qed.

Lemma flag_off silent b :
  ¬ (b = true ∧ silent ≠ VBool false) →
  b && negb (strict_eq silent (VBool false)) = false.
Proof.
  intros Hn. destruct b; [|done]. simpl. apply negb_false_iff.
  apply strict_eq_false_flag.
  destruct (decide (silent = VBool false)); [done|]. by destruct Hn.
Qed.

Lemma flag_on silent b :
  b = true → silent ≠ VBool false →
  b && negb (strict_eq silent (VBool false)) = true.
Proof.
  intros -> Hs. simpl. apply negb_true_iff.
  destruct (strict_eq silent (VBool false)) eqn:E; [|done].
  by apply strict_eq_false_flag in E.
Qed.

(** C7. [setAttr(key, value, silent)] leaves the attr map and the bridge as
    they are when [attr[key] === value] and [silent] is not [false];
    otherwise it performs [attr[key] = value] and sends [setAttr(ref, key,
    value)] exactly when [silent] is not truthy and a listener exists.  The
    maps are plain objects, as [{}] makes them.  [attr[key]] is read as
    JavaScript reads it, through the prototype of the map when the map has
    no such property of its own, and the assignment is the one JavaScript
    performs: it writes the own property [key], which [attr[key]] then
    reads, unless it ends in the [__proto__] setter.  With a listener,
    [setAttr(key, v)] twice in a row on an attribute that was not [v] sends
    one command (for every key but an inherited [__proto__]), and
    [setAttr(key, v, false)] on an attribute already [v] still sends one.
    [setStyle] does the same over the style map. *)
Theorem setAttr_setStyle_contract this key v silent w :
  plain (attr_prototype (node_of w this)) →
  plain (style_prototype (node_of w this)) →
  (strict_eq (attr_get w this key) v = true →
   silent ≠ VBool false →
   setAttr this key v silent w = Returned undefined w)
  ∧ (¬ (strict_eq (attr_get w this key) v = true ∧ silent ≠ VBool false) →
     ∃ w', setAttr this key v silent w = Returned undefined w' ∧
       (attr_prototype (node_of w' this), attr (node_of w' this))
         = put (attr_prototype (node_of w this)) (attr (node_of w this))
             key v ∧
       (key ≠ "__proto__"%string →
        attr (node_of w' this) = <[key := v]> (attr (node_of w this))
        ∧ attr_prototype (node_of w' this) = attr_prototype (node_of w this)
        ∧ attr_get w' this key = v) ∧
       trace w' = trace w ++
         if truthy silent then []
         else from_option (λ l, [Send l (SetAttr (ref this) key v)]) []
                (getListener (docId (node_of w this)) w))
  ∧ (∀ l, getListener (docId (node_of w this)) w = Some l →
     v ≠ VNaN →
     strict_eq (attr_get w this key) v = false →
     reaches_setter (attr_prototype (node_of w this)) (attr (node_of w this))
       key = false →
     ∃ w', and_then (setAttr this key v VUndefined w)
             (setAttr this key v VUndefined) = Returned undefined w' ∧
       trace w' = trace w ++ [Send l (SetAttr (ref this) key v)])
  ∧ (∀ l, getListener (docId (node_of w this)) w = Some l →
     strict_eq (attr_get w this key) v = true →
     ∃ w', setAttr this key v (VBool false) w = Returned undefined w' ∧
       trace w' = trace w ++ [Send l (SetAttr (ref this) key v)])
  ∧ (strict_eq (style_get w this key) v = true →
     silent ≠ VBool false →
     setStyle this key v silent w = Returned undefined w)
  ∧ (¬ (strict_eq (style_get w this key) v = true ∧ silent ≠ VBool false) →
     ∃ w', setStyle this key v silent w = Returned undefined w' ∧
       (style_prototype (node_of w' this), style (node_of w' this))
         = put (style_prototype (node_of w this)) (style (node_of w this))
             key v ∧
       (key ≠ "__proto__"%string →
        style (node_of w' this) = <[key := v]> (style (node_of w this))
        ∧ style_prototype (node_of w' this) = style_prototype (node_of w this)
        ∧ style_get w' this key = v) ∧
       trace w' = trace w ++
         if truthy silent then []
         else from_option (λ l, [Send l (SetStyle (ref this) key v)]) []
                (getListener (docId (node_of w this)) w))
  ∧ (∀ l, getListener (docId (node_of w this)) w = Some l →
     v ≠ VNaN →
     strict_eq (style_get w this key) v = false →
     reaches_setter (style_prototype (node_of w this)) (style (node_of w this))
       key = false →
     ∃ w', and_then (setStyle this key v VUndefined w)
             (setStyle this key v VUndefined) = Returned undefined w' ∧
       trace w' = trace w ++ [Send l (SetStyle (ref this) key v)])
  ∧ (∀ l, getListener (docId (node_of w this)) w = Some l →
     strict_eq (style_get w this key) v = true →
     ∃ w', setStyle this key v (VBool false) w = Returned undefined w' ∧
       trace w' = trace w ++ [Send l (SetStyle (ref this) key v)]).
Proof.
  intros _ _. split; [|split; [|split; [|split; [|split; [|split; [|split]]]]]].
  - intros. by apply setAttr_skip, flag_on.
  - intros Hn. destruct (setAttr_write this key v silent w (flag_off _ _ Hn))
      as (w' & E & P & _ & _ & O & T).
    exists w'. split; [done|]. split; [done|]. split; [|done].
    intros Hk. rewrite (put_own _ _ _ _ (reaches_setter_key _ _ _ Hk)) in P.
    injection P as P1 P2. split; [done|]. split; [done|].
    unfold attr_get. rewrite O, P1, P2. apply get_own, lookup_insert_eq.
  - intros l Hl Hv Hne Hs.
    destruct (setAttr_write this key v VUndefined w) as (w1 & E1 & P1 & D1 & G1 & O1 & T1).
    { by rewrite Hne. }
    exists w1. rewrite E1. simpl. split.
    + apply setAttr_skip. unfold attr_get.
      apply (f_equal fst) in P1 as Pa. apply (f_equal snd) in P1 as Pb.
      simpl in Pa, Pb. rewrite O1, Pa, Pb, get_put, strict_eq_refl; done.
    + rewrite T1, Hl. done.
  - intros l Hl He.
    destruct (setAttr_write this key v (VBool false) w) as (w1 & E1 & _ & _ & _ & _ & T1).
    { rewrite He. done. }
    exists w1. split; [done|]. rewrite T1, Hl. done.
  - intros. by apply setStyle_skip, flag_on.
  - intros Hn. destruct (setStyle_write this key v silent w (flag_off _ _ Hn))
      as (w' & E & P & _ & _ & O & T).
    exists w'. split; [done|]. split; [done|]. split; [|done].
    intros Hk. rewrite (put_own _ _ _ _ (reaches_setter_key _ _ _ Hk)) in P.
    injection P as P1 P2. split; [done|]. split; [done|].
    unfold style_get. rewrite O, P1, P2. apply get_own, lookup_insert_eq.
  - intros l Hl Hv Hne Hs.
    destruct (setStyle_write this key v VUndefined w) as (w1 & E1 & P1 & D1 & G1 & O1 & T1).
    { by rewrite Hne. }
    exists w1. rewrite E1. simpl. split.
    + apply setStyle_skip. unfold style_get.
      apply (f_equal fst) in P1 as Pa. apply (f_equal snd) in P1 as Pb.
      simpl in Pa, Pb. rewrite O1, Pa, Pb, get_put, strict_eq_refl; done.
    + rewrite T1, Hl. done.
  - intros l Hl He.
    destruct (setStyle_write this key v (VBool false) w) as (w1 & E1 & _ & _ & _ & _ & T1).
    { rewrite He. done. }
    exists w1. split; [done|]. rewrite T1, Hl. done.
Qed.

Lemma setAttr_setStyle_contract_witness :
  (∃ w', and_then (setAttr 1 "x" (VNum 1) VUndefined world0)
           (setAttr 1 "x" (VNum 1) VUndefined) = Returned undefined w' ∧
     trace w' = trace world0 ++ [Send "doc"%string (SetAttr (ref 1) "x" (VNum 1))])
  ∧ (∃ w', and_then (setStyle 1 "x" (VNum 1) VUndefined world0)
           (setStyle 1 "x" (VNum 1) VUndefined) = Returned undefined w' ∧
     trace w' = trace world0 ++ [Send "doc"%string (SetStyle (ref 1) "x" (VNum 1))]).
Proof.
  destruct (setAttr_setStyle_contract 1 "x" (VNum 1) VUndefined world0)
    as (_ & _ & Ha & _ & _ & _ & Hs & _);
    [left; vm_compute; reflexivity | left; vm_compute; reflexivity |].
  split.
  - apply (Ha "doc"%string); [vm_compute; reflexivity | discriminate
                             | vm_compute; reflexivity | vm_compute; reflexivity].
  - apply (Hs "doc"%string); [vm_compute; reflexivity | discriminate
                             | vm_compute; reflexivity | vm_compute; reflexivity].
Defined.

(** ** Class styles *)

Lemma lookup_assign (target source : jsobject) k :
  assign target source !! k =
    match source !! k with Some v => Some v | None => target !! k end.
Proof.
  unfold assign. rewrite lookup_union.
  destruct (source !! k), (target !! k); done.
Qed.


Lemma lookup_toStyle w this k :
  toStyle w this !! k =
    match style (node_of w this) !! k with
    | Some v => Some v
    | None => classStyle (node_of w this) !! k
    end.
Proof.
  unfold toStyle. rewrite !lookup_assign, lookup_empty.
  destruct (style (node_of w this) !! k), (classStyle (node_of w this) !! k);
    done.
Qed.

Lemma setClassStyle_spec this arg w :
  ∃ w', setClassStyle this arg w = Returned undefined w' ∧
    classStyle (node_of w' this) =
      assign (reset (classStyle (node_of w this)))
        match arg with
        | Object o => o
        | OwnClassStyle => reset (classStyle (node_of w this))
        | Nothing => ∅
        end ∧
    style (node_of w' this) = style (node_of w this) ∧
    docId (node_of w' this) = docId (node_of w this) ∧
    docs w' = docs w ∧
    trace w' = trace w ++
      from_option (λ l, [Send l (SetStyles (ref this) (toStyle w' this))]) []
        (getListener (docId (node_of w this)) w).
Proof.
  unfold setClassStyle. eexists. split; [reflexivity|].
  rewrite node_of_send_to, docs_send_to, trace_send_to.
  rewrite !node_of_upd_eq. simpl.
  repeat split; try done.
  f_equal. by destruct (getListener _ _).
Qed.



(** ** Events *)

Lemma event_put_own outside (o : jsobject) type handler :
  truthy (get outside Object_prototype o type) = false →
  put Object_prototype o type handler = (Object_prototype, <[type := handler]> o).
Proof.
  intros H. apply put_own.
  destruct (reaches_setter Object_prototype o type) eqn:E; [|done].
  unfold reaches_setter in E.
  apply andb_true_iff in E as [E _]. apply andb_true_iff in E as [E1 E2].
  apply bool_decide_eq_true in E1, E2. subst type.
  unfold get in H. rewrite E2 in H.
  by rewrite inherited_truthy in H by (by left).
Qed.

Lemma event_get_stored w this type :
  ¬ on_Object_prototype type →
  event_get w this type = default VUndefined (event (node_of w this) !! type).
Proof.
  intros H. unfold event_get, get.
  destruct (event (node_of w this) !! type); [done|].
  by apply inherited_undefined.
Qed.

Lemma event_get_inherited w this type :
  on_Object_prototype type → event (node_of w this) !! type = None →
  truthy (event_get w this type) = true.
Proof.
  intros H Hn. unfold event_get, get. rewrite Hn. by apply inherited_truthy.
Qed.

Lemma addEvent_skip this type h w :
  truthy (event_get w this type) = true →
  addEvent this type h w = Returned undefined w.
Proof. intros H. unfold addEvent. by rewrite H. Qed.

Lemma addEvent_spec this type h w :
  truthy (event_get w this type) = false →
  ∃ w', addEvent this type h w = Returned undefined w' ∧
    event (node_of w' this) = <[type := h]> (event (node_of w this)) ∧
    docId (node_of w' this) = docId (node_of w this) ∧
    docs w' = docs w ∧
    outside w' = outside w ∧
    trace w' = trace w ++
      from_option (λ l, [Send l (AddEvent (ref this) type)]) []
        (getListener (docId (node_of w this)) w).
Proof.
  intros H. unfold addEvent. rewrite H. simpl. eexists. split; [reflexivity|].
  rewrite node_of_send_to, docs_send_to, trace_send_to, !node_of_upd_eq.
  unfold event_put. rewrite (event_put_own (outside w)) by done.
  split; [done|]. split; [done|]. split; [done|]. split; [|done].
  by destruct (getListener _ _).
Qed.

Lemma removeEvent_skip this type w :
  truthy (event_get w this type) = false →
  removeEvent this type w = Returned undefined w.
Proof. intros H. unfold removeEvent. by rewrite H. Qed.

Lemma removeEvent_spec this type w :
  truthy (event_get w this type) = true →
  ∃ w', removeEvent this type w = Returned undefined w' ∧
    event (node_of w' this) = delete type (event (node_of w this)) ∧
    docId (node_of w' this) = docId (node_of w this) ∧
    docs w' = docs w ∧
    outside w' = outside w ∧
    trace w' = trace w ++
      from_option (λ l, [Send l (RemoveEvent (ref this) type)]) []
        (getListener (docId (node_of w this)) w).
Proof.
  intros H. unfold removeEvent. rewrite H. eexists. split; [reflexivity|].
  rewrite node_of_send_to, docs_send_to, trace_send_to, !node_of_upd_eq.
  split; [done|]. split; [done|]. split; [done|]. split; [|done].
  by destruct (getListener _ _).
Qed.

(** C10.  The claim has [addEvent(type, handler)] leave the event map and
    the bridge untouched only when a truthy handler is stored for [type].
    The method tests [this.event[type]] on an object made by [{}], and for a
    [type] that names a property of [Object.prototype] ([toString],
    [constructor], [__proto__], ...) the test reads the inherited value:
    with nothing stored for such a type the call returns the world as it
    was, the handler is not stored and no command is sent, listener or
    not. *)
Theorem addEvent_inherited_type this type handler w :
  on_Object_prototype type →
  event (node_of w this) !! type = None →
  addEvent this type handler w = Returned undefined w.
Proof.
  intros H Hn. by apply addEvent_skip, event_get_inherited.
Qed.

Lemma addEvent_inherited_type_witness :
  getListener (docId (node_of world0 1)) world0 = Some "doc"%string
  ∧ event (node_of world0 1) !! "toString"%string = None
  ∧ addEvent 1 "toString" (VRef 7) world0 = Returned undefined world0.
Proof.
  split; [vm_compute; reflexivity|].
  split; [vm_compute; reflexivity|].
  apply (addEvent_inherited_type 1 "toString" (VRef 7) world0).
  - apply (@bool_decide_unpack _ (on_Object_prototype_dec "toString")).
    vm_compute. exact I.
  - vm_compute. reflexivity.
Defined.

(** ** Frame lemmas for the index helpers *)

Lemma stable_nodeType : link_stable nodeType ∧ list_stable nodeType.
Proof. by split. Qed.
Lemma stable_parentNode : link_stable parentNode ∧ list_stable parentNode.
Proof. by split. Qed.
Lemma stable_docId : link_stable docId ∧ list_stable docId.
Proof. by split. Qed.
Lemma stable_children : link_stable children.
Proof. by split. Qed.
Lemma stable_pureChildren : link_stable pureChildren.
Proof. by split. Qed.

Lemma field_upd {A} (g : Node → A) n f w m :
  (∀ nd, g (f nd) = g nd) → g (node_of (upd n f w) m) = g (node_of w m).
Proof. intros H. rewrite node_of_upd. case_decide; subst; by rewrite ?H. Qed.

Lemma field_set_next {A} (g : Node → A) n v w m :
  link_stable g → g (node_of (set_next n v w) m) = g (node_of w m).
Proof. intros H. destruct n; [|done]. apply field_upd. intros; apply H. Qed.

Lemma field_set_prev {A} (g : Node → A) n v w m :
  link_stable g → g (node_of (set_prev n v w) m) = g (node_of w m).
Proof. intros H. destruct n; [|done]. apply field_upd. intros; apply H. Qed.

Lemma field_link {A} (g : Node → A) t b a w m :
  link_stable g → g (node_of (link t b a w) m) = g (node_of w m).
Proof.
  intros H. unfold link.
  by rewrite field_set_prev, field_set_next, field_set_prev, field_set_next.
Qed.

Lemma field_unlink {A} (g : Node → A) b a w m :
  link_stable g → g (node_of (unlink b a w) m) = g (node_of w m).
Proof. intros H. unfold unlink. by rewrite field_set_prev, field_set_next. Qed.

Lemma field_write {A} (g : Node → A) c l w m :
  list_stable g → g (node_of (write c l w) m) = g (node_of w m).
Proof. intros H. destruct c; apply field_upd; intros; apply H. Qed.

Lemma docs_set_next n v w : docs (set_next n v w) = docs w.
Proof. by destruct n. Qed.
Lemma docs_set_prev n v w : docs (set_prev n v w) = docs w.
Proof. by destruct n. Qed.
Lemma trace_set_next n v w : trace (set_next n v w) = trace w.
Proof. by destruct n. Qed.
Lemma trace_set_prev n v w : trace (set_prev n v w) = trace w.
Proof. by destruct n. Qed.

Lemma docs_link t b a w : docs (link t b a w) = docs w.
Proof.
  unfold link.
  by rewrite docs_set_prev, docs_set_next, docs_set_prev, docs_set_next.
Qed.
Lemma trace_link t b a w : trace (link t b a w) = trace w.
Proof.
  unfold link.
  by rewrite trace_set_prev, trace_set_next, trace_set_prev, trace_set_next.
Qed.
Lemma docs_unlink b a w : docs (unlink b a w) = docs w.
Proof. unfold unlink. by rewrite docs_set_prev, docs_set_next. Qed.
Lemma trace_unlink b a w : trace (unlink b a w) = trace w.
Proof. unfold unlink. by rewrite trace_set_prev, trace_set_next. Qed.
Lemma docs_write c l w : docs (write c l w) = docs w.
Proof. by destruct c. Qed.
Lemma trace_write c l w : trace (write c l w) = trace w.
Proof. by destruct c. Qed.

Lemma read_write c' c l w :
  read c' (write c l w) = if decide (c' = c) then l else read c' w.
Proof.
  destruct c' as [p'|p'], c as [p|p]; simpl; rewrite node_of_upd;
    repeat case_decide; simplify_eq; done.
Qed.

Lemma read_link c t b a w : read c (link t b a w) = read c w.
Proof. destruct c; simpl; by apply field_link. Qed.

Lemma read_unlink c b a w : read c (unlink b a w) = read c w.
Proof. destruct c; simpl; by apply field_unlink. Qed.

(** What [insertIndex] does to the arrays and to the other fields. *)
Lemma insertIndex_fst t c p b w :
  (insertIndex t c p b w).1 = Z.of_nat (splice_start (length (read c w)) p).
Proof. done. Qed.

Lemma read_insertIndex c' t c p b w :
  read c' (insertIndex t c p b w).2 =
    if decide (c' = c)
    then insert_at (splice_start (length (read c w)) p) t (read c w)
    else read c' w.
Proof.
  unfold insertIndex; simpl. destruct b; rewrite ?read_link, read_write; done.
Qed.

Lemma field_insertIndex {A} (g : Node → A) t c p b w m :
  link_stable g → list_stable g →
  g (node_of (insertIndex t c p b w).2 m) = g (node_of w m).
Proof.
  intros H1 H2. unfold insertIndex; simpl.
  destruct b; rewrite ?field_link, field_write; done.
Qed.

Lemma docs_insertIndex t c p b w : docs (insertIndex t c p b w).2 = docs w.
Proof.
  unfold insertIndex; simpl. destruct b; rewrite ?docs_link, docs_write; done.
Qed.
Lemma trace_insertIndex t c p b w : trace (insertIndex t c p b w).2 = trace w.
Proof.
  unfold insertIndex; simpl. destruct b; rewrite ?trace_link, trace_write; done.
Qed.

Lemma moveIndex_fst t c p b w : (moveIndex t c p b w).1 = (moved t p (read c w)).2.
Proof. unfold moveIndex, moved. by destruct (index_of t (read c w)). Qed.

Lemma read_moveIndex c' t c p b w :
  read c' (moveIndex t c p b w).2 =
    if decide (c' = c) then (moved t p (read c w)).1 else read c' w.
Proof.
  unfold moveIndex, moved. destruct (index_of t (read c w)); simpl.
  - destruct b; rewrite ?read_link, read_write, ?read_unlink; done.
  - by case_decide; subst.
Qed.

Lemma field_moveIndex {A} (g : Node → A) t c p b w m :
  link_stable g → list_stable g →
  g (node_of (moveIndex t c p b w).2 m) = g (node_of w m).
Proof.
  intros H1 H2. unfold moveIndex. destruct (index_of t (read c w)); simpl.
  - destruct b; rewrite ?field_link, field_write, ?field_unlink; done.
  - done.
Qed.

Lemma docs_moveIndex t c p b w : docs (moveIndex t c p b w).2 = docs w.
Proof.
  unfold moveIndex. destruct (index_of t (read c w)); simpl; [|done].
  destruct b; rewrite ?docs_link, docs_write, ?docs_unlink; done.
Qed.
Lemma trace_moveIndex t c p b w : trace (moveIndex t c p b w).2 = trace w.
Proof.
  unfold moveIndex. destruct (index_of t (read c w)); simpl; [|done].
  destruct b; rewrite ?trace_link, trace_write, ?trace_unlink; done.
Qed.

Lemma read_removeIndex c' t c b w :
  read c' (removeIndex t c b w) =
    if decide (c' = c) then removed t (read c w) else read c' w.
Proof.
  unfold removeIndex, removed. destruct (index_of t (read c w)); simpl.
  - destruct b; rewrite read_write, ?read_unlink; done.
  - by case_decide; subst.
Qed.

Lemma field_removeIndex {A} (g : Node → A) t c b w m :
  link_stable g → list_stable g →
  g (node_of (removeIndex t c b w) m) = g (node_of w m).
Proof.
  intros H1 H2. unfold removeIndex. destruct (index_of t (read c w)); simpl.
  - destruct b; rewrite field_write, ?field_unlink; done.
  - done.
Qed.

Lemma docs_removeIndex t c b w : docs (removeIndex t c b w) = docs w.
Proof.
  unfold removeIndex. destruct (index_of t (read c w)); simpl; [|done].
  destruct b; rewrite docs_write, ?docs_unlink; done.
Qed.
Lemma trace_removeIndex t c b w : trace (removeIndex t c b w) = trace w.
Proof.
  unfold removeIndex. destruct (index_of t (read c w)); simpl; [|done].
  destruct b; rewrite trace_write, ?trace_unlink; done.
Qed.

(** ** Arrays: positions, insertion, removal and moves *)

Lemma index_of_None x l : index_of x l = None ↔ x ∉ l.
Proof.
  induction l as [|y l IH]; simpl.
  - split; [intros _; apply not_elem_of_nil | done].
  - case_decide as E.
    + subst. split; [done|]. intros H. destruct H. left.
    + destruct (index_of x l); simpl.
      * split; [done|]. intros H. exfalso. apply H. right.
        apply dec_stable. intros Hn. by apply IH in Hn.
      * split; [|done]. intros _ H. apply elem_of_cons in H as [?|H]; [done|].
        by apply IH in H.
Qed.

Lemma index_of_middle x l1 l2 :
  x ∉ l1 → index_of x (l1 ++ x :: l2) = Some (length l1).
Proof.
  induction l1 as [|y l1 IH]; simpl; intros H.
  - by case_decide.
  - apply not_elem_of_cons in H as [? ?]. case_decide; [done|].
    by rewrite IH.
Qed.

Lemma index_of_split x l i :
  index_of x l = Some i →
  ∃ l1 l2, l = l1 ++ x :: l2 ∧ x ∉ l1 ∧ i = length l1.
Proof.
  revert i. induction l as [|y l IH]; simpl; intros i H; [done|].
  case_decide as E.
  - simplify_eq. exists [], l. split; [done|]. split; [apply not_elem_of_nil|done].
  - destruct (index_of x l) as [j|]; simplify_eq/=.
    destruct (IH j eq_refl) as (l1 & l2 & -> & Hx & ->).
    exists (y :: l1), l2. split; [done|]. split; [|done].
    apply not_elem_of_cons. done.
Qed.

Lemma elem_of_index_of x l : x ∈ l → ∃ i, index_of x l = Some i.
Proof.
  intros H. destruct (index_of x l) as [i|] eqn:E; [eauto|].
  by apply index_of_None in E.
Qed.

Lemma delete_at_middle (l1 l2 : list id) x :
  delete_at (length l1) (l1 ++ x :: l2) = l1 ++ l2.
Proof.
  unfold delete_at. rewrite take_app_length.
  replace (S (length l1)) with (length l1 + 1) by lia.
  by rewrite drop_app_add.
Qed.

Lemma insert_at_middle (l1 l2 : list id) x :
  insert_at (length l1) x (l1 ++ l2) = l1 ++ x :: l2.
Proof. unfold insert_at. by rewrite take_app_length, drop_app_length. Qed.

Lemma removed_middle x l1 l2 : x ∉ l1 → removed x (l1 ++ x :: l2) = l1 ++ l2.
Proof.
  intros H. unfold removed. rewrite index_of_middle by done.
  apply delete_at_middle.
Qed.

Lemma removed_notin x l : x ∉ l → removed x l = l.
Proof. intros H. unfold removed. apply index_of_None in H. by rewrite H. Qed.

Lemma splice_start_in len p :
  (0 ≤ p ≤ Z.of_nat len)%Z → splice_start len p = Z.to_nat p.
Proof.
  intros H. unfold splice_start.
  destruct (Z.ltb_spec p 0); lia.
Qed.

Lemma indexOf_middle l1 y l2 :
  y ∉ l1 → indexOf (l1 ++ y :: l2) (Some y) = Z.of_nat (length l1).
Proof. intros H. unfold indexOf. simpl. by rewrite index_of_middle. Qed.

Lemma indexOf_None l : indexOf l None = (-1)%Z.
Proof. done. Qed.

Lemma inserted_before l1 y l2 x :
  y ∉ l1 →
  inserted (indexOf (l1 ++ y :: l2) (Some y)) x (l1 ++ y :: l2)
    = l1 ++ x :: y :: l2
  ∧ splice_start (length (l1 ++ y :: l2)) (indexOf (l1 ++ y :: l2) (Some y))
    = length l1.
Proof.
  intros H. unfold inserted. rewrite indexOf_middle by done.
  rewrite splice_start_in by (rewrite length_app; simpl; lia).
  rewrite Nat2Z.id. split; [apply insert_at_middle | done].
Qed.

Lemma inserted_after l1 y l2 x :
  y ∉ l1 →
  inserted (indexOf (l1 ++ y :: l2) (Some y) + 1) x (l1 ++ y :: l2)
    = l1 ++ y :: x :: l2
  ∧ splice_start (length (l1 ++ y :: l2))
      (indexOf (l1 ++ y :: l2) (Some y) + 1) = S (length l1).
Proof.
  intros H. unfold inserted. rewrite indexOf_middle by done.
  rewrite splice_start_in by (rewrite length_app; simpl; lia).
  replace (Z.to_nat (Z.of_nat (length l1) + 1)) with (length (l1 ++ [y]))
    by (rewrite length_app; simpl; lia).
  split.
  - rewrite (cons_middle y l1 l2), app_assoc, insert_at_middle.
    by rewrite <- app_assoc.
  - rewrite length_app. simpl. lia.
Qed.

Lemma inserted_end l x :
  inserted (Z.of_nat (length l)) x l = l ++ [x]
  ∧ splice_start (length l) (Z.of_nat (length l)) = length l.
Proof.
  unfold inserted. rewrite splice_start_in by lia. rewrite Nat2Z.id.
  split; [|done]. unfold insert_at. by rewrite firstn_all, drop_all.
Qed.

Lemma inserted_start l x :
  inserted 0 x l = x :: l ∧ splice_start (length l) 0 = 0.
Proof. unfold inserted. rewrite splice_start_in by lia. done. Qed.

(** A move is a removal followed by an insertion. *)
Lemma moved_split x a b p k :
  x ∉ a →
  splice_start (length (a ++ b))
    (if (Z.of_nat (length a) <? p)%Z then (p - 1)%Z else p) = k →
  moved x p (a ++ x :: b)
    = (insert_at k x (a ++ b),
       if bool_decide (k = length a) then (-1)%Z else Z.of_nat k).
Proof.
  intros Hx Hk. unfold moved. rewrite index_of_middle by done.
  rewrite delete_at_middle. simpl. by rewrite Hk.
Qed.

Lemma moved_absent x p l : x ∉ l → moved x p l = (l, (-1)%Z).
Proof. intros H. unfold moved. apply index_of_None in H. by rewrite H. Qed.

Lemma moved_end x a b :
  x ∉ a →
  moved x (Z.of_nat (length (a ++ x :: b))) (a ++ x :: b)
    = ((a ++ b) ++ [x],
       if bool_decide (length (a ++ b) = length a) then (-1)%Z
       else Z.of_nat (length (a ++ b))).
Proof.
  intros Hx. rewrite (moved_split x a b _ (length (a ++ b))); [|done|].
  - unfold insert_at. by rewrite firstn_all, drop_all.
  - rewrite !length_app. simpl.
    destruct (Z.ltb_spec (Z.of_nat (length a))
                (Z.of_nat (length a + S (length b)))); [|lia].
    rewrite splice_start_in by lia. lia.
Qed.

Lemma moved_start x a b :
  x ∉ a →
  moved x 0 (a ++ x :: b)
    = (x :: a ++ b, if bool_decide (0 = length a) then (-1)%Z else 0%Z).
Proof.
  intros Hx. rewrite (moved_split x a b _ 0); [done|done|].
  destruct (Z.ltb_spec (Z.of_nat (length a)) 0); [lia|].
  by rewrite splice_start_in by lia.
Qed.

Lemma split_around (a b l1 l2 : list id) y :
  a ++ b = l1 ++ y :: l2 →
  (∃ a2, a = l1 ++ y :: a2 ∧ l2 = a2 ++ b)
  ∨ (∃ b1, l1 = a ++ b1 ∧ b = b1 ++ y :: l2).
Proof.
  intros H. apply List.app_eq_app in H as (c & [[-> H]|[-> H]]).
  - destruct c as [|z c]; simpl in H.
    + right. exists []. rewrite !app_nil_r. by subst.
    + left. simplify_eq. eauto.
  - right. eauto.
Qed.

Ltac position :=
  repeat (rewrite ?length_app, ?length_cons; simpl);
  match goal with
  | |- context [(?a <? ?b)%Z] => destruct (Z.ltb_spec a b)
  end; try lia;
  rewrite splice_start_in by (repeat (rewrite ?length_app; simpl); lia); lia.

Lemma moved_before x y a b l1 l2 :
  x ∉ a → y ∉ l1 → x ≠ y → a ++ b = l1 ++ y :: l2 →
  moved x (indexOf (a ++ x :: b) (Some y)) (a ++ x :: b)
    = (l1 ++ x :: y :: l2,
       if bool_decide (length l1 = length a) then (-1)%Z
       else Z.of_nat (length l1)).
Proof.
  intros Hx Hy Hxy Hs.
  rewrite (moved_split x a b _ (length l1)); [|done|].
  - by rewrite Hs, insert_at_middle.
  - destruct (split_around _ _ _ _ _ Hs) as [(a2 & -> & ->)|(b1 & -> & ->)].
    + rewrite <- !app_assoc. simpl. rewrite indexOf_middle by done. position.
    + rewrite (cons_middle x a), !app_assoc, indexOf_middle.
      2:{ rewrite <- app_assoc. simpl. intros H.
          apply elem_of_app in H as [H|H].
          - apply Hy. apply elem_of_app. by left.
          - apply elem_of_cons in H as [H|H]; [done|].
            apply Hy. apply elem_of_app. by right. }
      position.
Qed.

Lemma moved_after x y a b l1 l2 :
  x ∉ a → y ∉ l1 → x ≠ y → a ++ b = l1 ++ y :: l2 →
  moved x (indexOf (a ++ x :: b) (Some y) + 1) (a ++ x :: b)
    = (l1 ++ y :: x :: l2,
       if bool_decide (S (length l1) = length a) then (-1)%Z
       else Z.of_nat (S (length l1))).
Proof.
  intros Hx Hy Hxy Hs.
  rewrite (moved_split x a b _ (S (length l1))); [|done|].
  - rewrite Hs. replace (S (length l1)) with (length (l1 ++ [y]))
      by (rewrite length_app; simpl; lia).
    rewrite (cons_middle y l1 l2), app_assoc, insert_at_middle.
    by rewrite <- app_assoc.
  - destruct (split_around _ _ _ _ _ Hs) as [(a2 & -> & ->)|(b1 & -> & ->)].
    + rewrite <- !app_assoc. simpl. rewrite indexOf_middle by done. position.
    + rewrite (cons_middle x a), !app_assoc, indexOf_middle.
      2:{ rewrite <- app_assoc. simpl. intros H.
          apply elem_of_app in H as [H|H].
          - apply Hy. apply elem_of_app. by left.
          - apply elem_of_cons in H as [H|H]; [done|].
            apply Hy. apply elem_of_app. by right. }
      position.
Qed.

(** ** Frame lemmas for the remaining steps *)

Lemma field_linkParent {A} (g : Node → A) n p w m :
  (∀ v nd, g (set_parentNode v nd) = g nd) →
  (∀ v nd, g (set_docId v nd) = g nd) →
  g (node_of (linkParent n p w) m) = g (node_of w m).
Proof.
  intros H1 H2. unfold linkParent.
  destruct (docId_truthy _); rewrite ?field_upd; done.
Qed.

Lemma parent_linkParent n p w m :
  parentNode (node_of (linkParent n p w) m) =
    if decide (m = n) then Some p else parentNode (node_of w m).
Proof.
  unfold linkParent.
  destruct (docId_truthy _); rewrite ?(field_upd parentNode) by done;
    rewrite node_of_upd; by case_decide.
Qed.

Lemma docId_linkParent n p w m :
  docId (node_of (linkParent n p w) m) =
    if decide (m = n)
    then if docId_truthy (docId (node_of w p)) then docId (node_of w p)
         else docId (node_of w n)
    else docId (node_of w m).
Proof.
  unfold linkParent. destruct (docId_truthy _).
  - rewrite node_of_upd. case_decide; [done|].
    by rewrite (field_upd docId).
  - rewrite node_of_upd. by case_decide.
Qed.

Lemma docs_linkParent n p w : docs (linkParent n p w) = docs w.
Proof. unfold linkParent. by destruct (docId_truthy _). Qed.
Lemma trace_linkParent n p w : trace (linkParent n p w) = trace w.
Proof. unfold linkParent. by destruct (docId_truthy _). Qed.

Lemma read_linkParent c n p w : read c (linkParent n p w) = read c w.
Proof. destruct c; simpl; by apply field_linkParent. Qed.

Lemma node_of_register this node w m :
  node_of (register this node w) m = node_of w m.
Proof.
  unfold register. destruct (docId (node_of w this)); [|done].
  by destruct (docId_truthy _).
Qed.

Lemma trace_register this node w : trace (register this node w) = trace w.
Proof.
  unfold register. destruct (docId (node_of w this)); [|done].
  by destruct (docId_truthy _).
Qed.

Lemma getListener_registerNode x d node w :
  getListener x (registerNode d node w) = getListener x w.
Proof.
  unfold getListener, registerNode, getDoc. simpl.
  destruct x as [x|]; simpl; [|done].
  destruct (decide (d = x)) as [->|Hne].
  - rewrite lookup_insert_eq. simpl.
    destruct (docs w !! x) as [doc|]; simpl; done.
  - by rewrite lookup_insert_ne.
Qed.

Lemma getListener_register x this node w :
  getListener x (register this node w) = getListener x w.
Proof.
  unfold register. destruct (docId (node_of w this)); [|done].
  destruct (docId_truthy _); [|done]. apply getListener_registerNode.
Qed.

Lemma read_register c this node w : read c (register this node w) = read c w.
Proof. destruct c; simpl; by rewrite node_of_register. Qed.

Lemma node_of_forEach_destroy l w m :
  node_of (forEach destroy l w) m = node_of w m.
Proof.
  revert w. induction l as [|x l IH]; intros w; [done|].
  unfold forEach in *. simpl. by rewrite IH.
Qed.

Lemma node_of_forEach_send_to ls l w m :
  node_of (forEach (λ node, send_to ls (RemoveElement (ref node))) l w) m
    = node_of w m.
Proof.
  revert w. induction l as [|x l IH]; intros w; [done|].
  unfold forEach in *. simpl. by rewrite IH, node_of_send_to.
Qed.

Lemma tell_eq this c w :
  tell this c w =
    Returned (from_option (λ _, signal c) undefined
                (getListener (docId (node_of w this)) w))
      (send_to (getListener (docId (node_of w this)) w) c w).
Proof. unfold tell. by destruct (getListener _ _). Qed.

(** The commands [tell_move] sends. *)
Lemma tell_move_eq this node index w :
  ∃ r, tell_move this node index w =
    Returned r
      (send_to (if (0 <=? index)%Z
                then getListener (docId (node_of w this)) w else None)
         (MoveElement (ref node) (ref this) index) w).
Proof.
  unfold tell_move. destruct (getListener _ _); [|by destruct (0 <=? _)%Z; eauto].
  destruct (0 <=? index)%Z; eauto.
Qed.

Lemma lookup_node_of w n nd : nodes w !! n = Some nd → node_of w n = nd.
Proof. intros H. unfold node_of. by rewrite (lookup_total_correct _ _ _ H). Qed.

Lemma node_of_absent w n : nodes w !! n = None → node_of w n = blank.
Proof. intros H. unfold node_of. by rewrite lookup_total_alt, H. Qed.

Lemma read_send_to c l cmd w : read c (send_to l cmd w) = read c w.
Proof. by destruct l, c. Qed.

Lemma isElement_ext w w' :
  (∀ m, nodeType (node_of w' m) = nodeType (node_of w m)) →
  ∀ m, isElement w' m = isElement w m.
Proof. intros H m. unfold isElement. by rewrite H. Qed.

Ltac frame :=
  repeat first
    [ rewrite node_of_send_to
    | rewrite read_send_to
    | rewrite trace_send_to
    | rewrite docs_send_to
    | rewrite node_of_register
    | rewrite read_register
    | rewrite trace_register
    | rewrite getListener_register
    | rewrite read_linkParent
    | rewrite trace_linkParent
    | rewrite docs_linkParent
    | rewrite parent_linkParent
    | rewrite (field_linkParent nodeType) by done
    | rewrite read_insertIndex
    | rewrite trace_insertIndex
    | rewrite docs_insertIndex
    | rewrite (field_insertIndex nodeType) by done
    | rewrite (field_insertIndex parentNode) by done
    | rewrite (field_insertIndex docId) by done
    | rewrite read_moveIndex
    | rewrite trace_moveIndex
    | rewrite docs_moveIndex
    | rewrite (field_moveIndex nodeType) by done
    | rewrite (field_moveIndex parentNode) by done
    | rewrite (field_moveIndex docId) by done
    | rewrite read_removeIndex
    | rewrite trace_removeIndex
    | rewrite docs_removeIndex
    | rewrite (field_removeIndex nodeType) by done
    | rewrite (field_removeIndex parentNode) by done
    | rewrite (field_removeIndex docId) by done ].

(** ** The methods, branch by branch *)

Lemma is_set_Some (x : id) : is_set (Some x) = true.
Proof. unfold is_set. apply bool_decide_eq_true_2. eauto. Qed.

Lemma is_set_None : is_set None = false.
Proof. unfold is_set. apply bool_decide_eq_false_2. by intros [? ?]. Qed.

Lemma appendChild_unfold this node w :
  appendChild this node w =
    match nodes w !! node with
    | None => Thrown
    | Some nd =>
      match parentNode nd with
      | None =>
        attach this node (len (Children this)) (len (PureChildren this))
          (λ _, (-1)%Z) w
      | Some q =>
        if decide (q = this)
        then reorder this node (len (Children this)) (len (PureChildren this)) w
        else Returned undefined w
      end
    end.
Proof.
  unfold appendChild. destruct (nodes w !! node) as [nd|]; [|done].
  destruct (parentNode nd) as [q|]; [|done].
  unfold is_set, same. rewrite bool_decide_eq_true_2 by eauto. simpl.
  case_decide as E.
  - subst. by rewrite bool_decide_eq_true_2.
  - rewrite bool_decide_eq_false_2; [done|]. congruence.
Qed.

Lemma insertBefore_unfold this node before w :
  insertBefore this node before w =
    match nodes w !! node with
    | None => Thrown
    | Some nd =>
      match parentNode nd with
      | None =>
        if already_there node (nextSibling nd) before
        then Returned undefined w
        else attach this node
               (λ w, indexOf (read (Children this) w) before)
               (pure_before this before) (λ i, i) w
      | Some q =>
        if decide (q = this)
        then if already_there node (nextSibling nd) before
             then Returned undefined w
             else reorder this node
                    (λ w, indexOf (read (Children this) w) before)
                    (pure_before this before) w
        else Returned undefined w
      end
    end.
Proof.
  unfold insertBefore. destruct (nodes w !! node) as [nd|]; [|done].
  fold (already_there node (nextSibling nd) before).
  destruct (parentNode nd) as [q|].
  - unfold is_set at 1 2, same. rewrite bool_decide_eq_true_2 by eauto.
    cbn [andb negb]. case_decide as E.
    + subst. rewrite bool_decide_eq_true_2 by done. cbn [andb negb].
      by destruct (already_there _ _ _).
    + rewrite bool_decide_eq_false_2; [done|]. congruence.
  - rewrite is_set_None. cbn [andb negb]. by destruct (already_there _ _ _).
Qed.

Lemma insertAfter_unfold this node after w :
  insertAfter this node after w =
    match nodes w !! node with
    | None => Thrown
    | Some nd =>
      match parentNode nd with
      | None =>
        if already_there node (previousSibling nd) after
        then Returned undefined w
        else attach this node
               (λ w, (indexOf (read (Children this) w) after + 1)%Z)
               (pure_after this after) (λ i, i) w
      | Some q =>
        if decide (q = this)
        then if already_there node (previousSibling nd) after
             then Returned undefined w
             else reorder this node
                    (λ w, (indexOf (read (Children this) w) after + 1)%Z)
                    (pure_after this after) w
        else Returned undefined w
      end
    end.
Proof.
  unfold insertAfter. destruct (nodes w !! node) as [nd|]; [|done].
  fold (already_there node (previousSibling nd) after).
  destruct (parentNode nd) as [q|].
  - unfold is_set at 1 2, same. rewrite bool_decide_eq_true_2 by eauto.
    cbn [andb negb]. case_decide as E.
    + subst. rewrite bool_decide_eq_true_2 by done. cbn [andb negb].
      by destruct (already_there _ _ _).
    + rewrite bool_decide_eq_false_2; [done|]. congruence.
  - rewrite is_set_None. cbn [andb negb]. by destruct (already_there _ _ _).
Qed.

(** The element siblings the position in [pureChildren] is taken from. *)
Lemma nextElement_in w this y l1 l2 :
  parentNode (node_of w y) = Some this →
  children (node_of w this) = l1 ++ y :: l2 → y ∉ l1 →
  nextElement w (Some y) = head (elems w (y :: l2)).
Proof.
  intros Hp Hc Hy. unfold nextElement, siblings_from. simpl.
  rewrite Hp, Hc, index_of_middle by done. by rewrite drop_app_length.
Qed.

Lemma previousElement_in w this y l1 l2 :
  parentNode (node_of w y) = Some this →
  children (node_of w this) = l1 ++ y :: l2 → y ∉ l1 →
  previousElement w (Some y) = last (elems w (l1 ++ [y])).
Proof.
  intros Hp Hc Hy. unfold previousElement, siblings_upto. simpl.
  rewrite Hp, Hc, index_of_middle by done.
  replace (S (length l1)) with (length (l1 ++ [y]))
    by (rewrite length_app; simpl; lia).
  by rewrite (cons_middle y l1 l2), app_assoc, take_app_length.
Qed.

Lemma node_of_destroy n w m : node_of (destroy n w) m = node_of w m.
Proof. done. Qed.

Lemma trace_destroy n w : trace (destroy n w) = trace w ++ [Destroy n].
Proof. done. Qed.

Lemma listener_release ns (d : Doc) : listener (release ns d) = listener d.
Proof. done. Qed.

Lemma getListener_destroy x n w : getListener x (destroy n w) = getListener x w.
Proof.
  unfold getListener, destroy. simpl. destruct x as [x|]; simpl; [|done].
  rewrite lookup_fmap. by destruct (docs w !! x).
Qed.

Lemma trace_forEach_destroy l w :
  trace (forEach destroy l w) = trace w ++ map Destroy l.
Proof.
  revert w. induction l as [|x l IH]; intros w; simpl.
  - by rewrite app_nil_r.
  - unfold forEach in *. simpl. rewrite IH, trace_destroy.
    by rewrite <- app_assoc.
Qed.

Lemma trace_forEach_send_to ls l w :
  trace (forEach (λ node, send_to ls (RemoveElement (ref node))) l w)
    = trace w ++
      from_option (λ d, map (λ n, Send d (RemoveElement (ref n))) l) [] ls.
Proof.
  revert w. induction l as [|x l IH]; intros w; simpl.
  - destruct ls; simpl; by rewrite app_nil_r.
  - unfold forEach in *. simpl. rewrite IH, trace_send_to.
    destruct ls; simpl; by rewrite <- app_assoc.
Qed.

Opaque insertIndex moveIndex removeIndex linkParent register tell tell_move
  send_to destroy nextElement previousElement getListener write forEach
  indexOf.

(** The listener [this] talks to is the same after the node has been linked,
    inserted and registered. *)
Lemma docId_this_linkParent node this w :
  docId (node_of (linkParent node this w) this) = docId (node_of w this).
Proof.
  rewrite docId_linkParent. case_decide as E; [|done]. subst.
  by destruct (docId_truthy _).
Qed.

(** ** What each branch of the insertion methods does *)

Lemma attach_spec this node pos ppos sent w :
  let L := inserted (pos (linkParent node this w)) node
             (children (node_of w this)) in
  ∃ w3 r w',
    attach this node pos ppos sent w = Returned r w' ∧
    effect_on w w3 this node L (pureChildren (node_of w this)) (Some this) ∧
    effect_on w w' this node L
      (if isElement w node
       then inserted (ppos w3) node (pureChildren (node_of w this))
       else pureChildren (node_of w this))
      (Some this) ∧
    trace w' = trace w ++
      if isElement w node
      then from_option
             (λ l, [Send l (AddElement node (ref this)
                      (sent (Z.of_nat (splice_start
                         (length (pureChildren (node_of w this)))
                         (ppos w3)))))]) []
             (getListener (docId (node_of w this)) w)
      else [].
Proof.
  intros L. unfold attach.
  set (w1 := linkParent node this w).
  set (w2 := (insertIndex node (Children this) (pos w1) true w1).2).
  set (w3 := register this node w2).
  assert (Ht : ∀ m, nodeType (node_of w3 m) = nodeType (node_of w m)).
  { intros m. unfold w3, w2, w1. by frame. }
  assert (Hc : read (Children this) w3 = L).
  { unfold w3, w2. frame. rewrite decide_True by done.
    unfold w1 at 1 3. by frame. }
  assert (Hpc : read (PureChildren this) w3 = pureChildren (node_of w this)).
  { unfold w3, w2, w1. frame. by rewrite decide_False. }
  assert (Ho : ∀ c, c ≠ Children this → read c w3 = read c w).
  { intros c Hc'. unfold w3, w2, w1. frame. by rewrite decide_False. }
  assert (Hpar : ∀ m, parentNode (node_of w3 m) =
                   if decide (m = node) then Some this
                   else parentNode (node_of w m)).
  { intros m. unfold w3, w2, w1. by frame. }
  assert (Hl : getListener (docId (node_of w3 this)) w3
               = getListener (docId (node_of w this)) w).
  { unfold w3, w2, w1. frame.
    rewrite docId_this_linkParent. by apply getListener_docs; frame. }
  assert (E3 : effect_on w w3 this node L (pureChildren (node_of w this))
                 (Some this)).
  { split; [done|]. split; [|done].
    intros c. destruct (decide (c = Children this)) as [->|E1]; [exact Hc|].
    destruct (decide (c = PureChildren this)) as [->|E2]; [exact Hpc|].
    by apply Ho. }
  exists w3. rewrite (isElement_ext w w3 Ht). destruct (isElement w node).
  - rewrite tell_eq. eexists _, _. split; [reflexivity|]. split; [done|].
    split; [split; [|split]|].
    + intros m. by frame.
    + intros c. frame.
      destruct (decide (c = Children this)) as [->|E1].
      * rewrite decide_False by done. exact Hc.
      * destruct (decide (c = PureChildren this)) as [->|E2].
        -- by rewrite Hpc.
        -- by apply Ho.
    + intros m. by frame.
    + frame. f_equal; [unfold w3, w2, w1; by frame|].
      rewrite (getListener_docs _ w3) by (by frame).
      rewrite Hl, insertIndex_fst, Hpc. done.
  - eexists _, _. split; [reflexivity|]. split; [done|]. split; [done|].
    unfold w3, w2, w1. frame. by rewrite app_nil_r.
Qed.

Lemma reorder_spec this node pos ppos w :
  let L := (moved node (pos w) (children (node_of w this))).1 in
  let P := moved node
             (ppos (moveIndex node (Children this) (pos w) true w).2)
             (pureChildren (node_of w this)) in
  ∃ w2 r w',
    w2 = (moveIndex node (Children this) (pos w) true w).2 ∧
    reorder this node pos ppos w = Returned r w' ∧
    effect_on w w2 this node L (pureChildren (node_of w this))
      (parentNode (node_of w node)) ∧
    effect_on w w' this node L
      (if isElement w node then P.1 else pureChildren (node_of w this))
      (parentNode (node_of w node)) ∧
    trace w' = trace w ++
      if isElement w node
      then if (0 <=? P.2)%Z
           then from_option
                  (λ l, [Send l (MoveElement (ref node) (ref this) P.2)]) []
                  (getListener (docId (node_of w this)) w)
           else []
      else [].
Proof.
  intros L P. unfold reorder.
  set (w2 := (moveIndex node (Children this) (pos w) true w).2) in *.
  assert (Ht : ∀ m, nodeType (node_of w2 m) = nodeType (node_of w m)).
  { intros m. unfold w2. by frame. }
  assert (Hc : read (Children this) w2 = L).
  { unfold w2. frame. by rewrite decide_True. }
  assert (Hpc : read (PureChildren this) w2 = pureChildren (node_of w this)).
  { unfold w2. frame. by rewrite decide_False. }
  assert (Ho : ∀ c, c ≠ Children this → read c w2 = read c w).
  { intros c Hc'. unfold w2. frame. by rewrite decide_False. }
  assert (Hpar : ∀ m, parentNode (node_of w2 m) =
                   if decide (m = node) then parentNode (node_of w node)
                   else parentNode (node_of w m)).
  { intros m. unfold w2. frame. by case_decide; subst. }
  assert (Hl : getListener (docId (node_of w2 this)) w2
               = getListener (docId (node_of w this)) w).
  { unfold w2. frame. by apply getListener_docs; frame. }
  assert (E2 : effect_on w w2 this node L (pureChildren (node_of w this))
                 (parentNode (node_of w node))).
  { split; [done|]. split; [|done].
    intros c. destruct (decide (c = Children this)) as [->|E1]; [exact Hc|].
    destruct (decide (c = PureChildren this)) as [->|E2]; [exact Hpc|].
    by apply Ho. }
  exists w2. rewrite (isElement_ext w w2 Ht). destruct (isElement w node).
  - destruct (tell_move_eq this node
                (moveIndex node (PureChildren this) (ppos w2) false w2).1
                (moveIndex node (PureChildren this) (ppos w2) false w2).2)
      as [r Hr].
    rewrite Hr. eexists _, _. split; [done|]. split; [reflexivity|].
    split; [done|]. split; [split; [|split]|].
    + intros m. by frame.
    + intros c. frame.
      destruct (decide (c = Children this)) as [->|E1].
      * rewrite decide_False by done. exact Hc.
      * destruct (decide (c = PureChildren this)) as [->|E3].
        -- by rewrite Hpc.
        -- by apply Ho.
    + intros m. frame. apply Hpar.
    + frame. f_equal; [unfold w2; by frame|].
      rewrite moveIndex_fst, Hpc. fold P.
      destruct (0 <=? P.2)%Z; [|done].
      rewrite (getListener_docs _ w2) by (by frame).
      by rewrite Hl.
  - eexists _, _. split; [done|]. split; [reflexivity|]. split; [done|].
    split; [done|]. unfold w2. frame. by rewrite app_nil_r.
Qed.

(** ** Where an element lands in [pureChildren] *)

Lemma NoDup_app_cons_notin (A r : list id) e : NoDup (A ++ e :: r) → e ∉ A.
Proof.
  intros H He. apply NoDup_app in H as (_ & H & _).
  apply (H e He). left.
Qed.

Lemma place_before (A B : list id) x :
  NoDup (A ++ B) →
  let p := if is_set (head B) then indexOf (A ++ B) (head B)
           else Z.of_nat (length (A ++ B)) in
  inserted p x (A ++ B) = A ++ x :: B
  ∧ splice_start (length (A ++ B)) p = length A.
Proof.
  intros Hnd p. subst p. destruct B as [|e r]; cbn [head].
  - rewrite is_set_None, app_nil_r. apply inserted_end.
  - rewrite is_set_Some. apply inserted_before.
    by apply NoDup_app_cons_notin in Hnd.
Qed.

Lemma place_after (A B : list id) x :
  NoDup (A ++ B) →
  let p := (indexOf (A ++ B) (last A) + 1)%Z in
  inserted p x (A ++ B) = A ++ x :: B
  ∧ splice_start (length (A ++ B)) p = length A.
Proof.
  intros Hnd p. subst p. destruct A as [|e A _] using rev_ind.
  - Transparent indexOf. unfold indexOf. Opaque indexOf. simpl. apply inserted_start.
  - rewrite last_snoc, <- !app_assoc. simpl.
    rewrite <- app_assoc in Hnd. simpl in Hnd.
    apply NoDup_app_cons_notin in Hnd.
    destruct (inserted_after A e B x Hnd) as [H1 H2].
    rewrite H1, H2, length_app. simpl. split; [done|lia].
Qed.

Lemma move_before (A B a b : list id) x :
  NoDup (a ++ x :: b) → a ++ b = A ++ B →
  let p := if is_set (head B) then indexOf (a ++ x :: b) (head B)
           else Z.of_nat (length (a ++ x :: b)) in
  moved x p (a ++ x :: b)
    = (A ++ x :: B,
       if bool_decide (length A = length a) then (-1)%Z
       else Z.of_nat (length A)).
Proof.
  intros Hnd Hs p. subst p.
  assert (Hxa : x ∉ a) by by apply NoDup_app_cons_notin in Hnd.
  assert (Hnd' : NoDup (a ++ b)).
  { apply NoDup_app in Hnd as (H1 & H2 & H3). apply NoDup_cons in H3 as [? ?].
    apply NoDup_app. split; [done|]. split; [|done].
    intros z Hz Hb. apply (H2 z Hz). by right. }
  assert (Hxab : x ∉ a ++ b).
  { intros H. apply elem_of_app in H as [H|H]; [done|].
    apply NoDup_app in Hnd as (_ & _ & H3). by apply NoDup_cons in H3 as [? ?]. }
  destruct B as [|e r]; cbn [head].
  - rewrite is_set_None, app_nil_r in *. subst A.
    by rewrite moved_end.
  - rewrite is_set_Some. apply moved_before; [done| | |done].
    + rewrite Hs in Hnd'. by apply NoDup_app_cons_notin in Hnd'.
    + intros ->. apply Hxab. rewrite Hs. apply elem_of_app. right. left.
Qed.

Lemma move_after (A B a b : list id) x :
  NoDup (a ++ x :: b) → a ++ b = A ++ B →
  let p := (indexOf (a ++ x :: b) (last A) + 1)%Z in
  moved x p (a ++ x :: b)
    = (A ++ x :: B,
       if bool_decide (length A = length a) then (-1)%Z
       else Z.of_nat (length A)).
Proof.
  intros Hnd Hs p. subst p.
  assert (Hxa : x ∉ a) by by apply NoDup_app_cons_notin in Hnd.
  assert (Hnd' : NoDup (a ++ b)).
  { apply NoDup_app in Hnd as (H1 & H2 & H3). apply NoDup_cons in H3 as [? ?].
    apply NoDup_app. split; [done|]. split; [|done].
    intros z Hz Hb. apply (H2 z Hz). by right. }
  assert (Hxab : x ∉ a ++ b).
  { intros H. apply elem_of_app in H as [H|H]; [done|].
    apply NoDup_app in Hnd as (_ & _ & H3). by apply NoDup_cons in H3 as [? ?]. }
  destruct A as [|e A _] using rev_ind.
  - Transparent indexOf. unfold indexOf. Opaque indexOf. simpl.
    rewrite moved_start by done. by rewrite Hs.
  - rewrite last_snoc, <- !app_assoc. simpl.
    rewrite <- app_assoc in Hs. simpl in Hs.
    rewrite (moved_after x e a b A B); [| done | | | done].
    + rewrite length_app. simpl.
      replace (length A + 1) with (S (length A)) by lia. done.
    + rewrite Hs in Hnd'. by apply NoDup_app_cons_notin in Hnd'.
    + intros ->. apply Hxab. rewrite Hs. apply elem_of_app. right. left.
Qed.

(** ** Well-formed stores *)

Lemma WF_pure w p : WF w → pureChildren (node_of w p) = elems w (children (node_of w p)).
Proof. intros H. apply (H p). Qed.

Lemma WF_NoDup w p : WF w → NoDup (children (node_of w p)).
Proof. intros H. apply (H p). Qed.

Lemma WF_parent w p c :
  WF w → c ∈ children (node_of w p) → parentNode (node_of w c) = Some p.
Proof.
  intros H Hc. destruct (H p) as (_ & _ & Hf).
  by apply (proj1 (Forall_forall _ _) Hf).
Qed.

Lemma WF_detached w p n :
  WF w → parentNode (node_of w n) = None → n ∉ children (node_of w p).
Proof. intros H Hn Hc. apply (WF_parent w p n H) in Hc. congruence. Qed.

Lemma WF_other_parent w p q n :
  WF w → parentNode (node_of w n) = Some q → q ≠ p →
  n ∉ children (node_of w p).
Proof. intros H Hn Hq Hc. apply (WF_parent w p n H) in Hc. congruence. Qed.

Lemma elems_ext w w' (l : list id) :
  (∀ m, nodeType (node_of w' m) = nodeType (node_of w m)) →
  elems w' l = elems w l.
Proof.
  intros H. apply list_filter_iff. intros x. by rewrite (isElement_ext w w' H).
Qed.

Lemma WF_stored_WF w : WF_stored w → WF w.
Proof.
  intros H p. destruct (nodes w !! p) as [nd|] eqn:E.
  - apply (H p nd E).
  - unfold node_wf, pure_ok. rewrite (node_of_absent w p E). simpl.
    split; [done|]. split; [apply NoDup_nil_2 | apply Forall_nil_2].
Qed.

Lemma WF_effect w w' this node L PL par :
  WF w → effect_on w w' this node L PL par →
  NoDup L → PL = elems w L →
  (∀ c, c ∈ L →
     (if decide (c = node) then par else parentNode (node_of w c)) = Some this) →
  (par = parentNode (node_of w node) ∨ parentNode (node_of w node) = None) →
  WF w'.
Proof.
  intros Hwf (Ht & Hr & Hp) Hnd HPL Hpar Hn p.
  unfold node_wf, pure_ok.
  change (pureChildren (node_of w' p)) with (read (PureChildren p) w').
  change (children (node_of w' p)) with (read (Children p) w').
  rewrite !Hr. rewrite (elems_ext w w') by done.
  destruct (decide (p = this)) as [->|Hne].
  - rewrite (decide_False (P := PureChildren this = Children this)) by done.
    rewrite !decide_True by done.
    split; [done|]. split; [done|].
    apply Forall_forall. intros c Hc. rewrite Hp. by apply Hpar.
  - rewrite (decide_False (P := PureChildren p = Children this)) by done.
    rewrite (decide_False (P := PureChildren p = PureChildren this))
      by congruence.
    rewrite (decide_False (P := Children p = Children this)) by congruence.
    rewrite (decide_False (P := Children p = PureChildren this)) by done.
    split; [by apply WF_pure|]. split; [by apply WF_NoDup|].
    apply Forall_forall. intros c Hc. rewrite Hp.
    pose proof (WF_parent w p c Hwf Hc) as Hcp.
    case_decide as E; [|done]. subst c.
    destruct Hn as [->|Hn]; congruence.
Qed.

(** ** [appendChild] *)

Lemma appendChild_detached this node w nd :
  nodes w !! node = Some nd → parentNode nd = None →
  ∃ r w', appendChild this node w = Returned r w' ∧
    effect_on w w' this node
      (children (node_of w this) ++ [node])
      (if isElement w node then pureChildren (node_of w this) ++ [node]
       else pureChildren (node_of w this))
      (Some this) ∧
    trace w' = trace w ++
      if isElement w node
      then from_option (λ l, [Send l (AddElement node (ref this) (-1))]) []
             (getListener (docId (node_of w this)) w)
      else [].
Proof.
  intros Hn Hp. rewrite appendChild_unfold, Hn, Hp.
  destruct (attach_spec this node (len (Children this))
              (len (PureChildren this)) (λ _, (-1)%Z) w)
    as (w3 & r & w' & E & E3 & E' & T).
  exists r, w'. split; [done|]. split; [|done].
  unfold len in E'. rewrite read_linkParent in E'.
  destruct E3 as (_ & R3 & _). rewrite R3 in E'.
  rewrite decide_False, decide_True in E' by done.
  by rewrite !(proj1 (inserted_end _ _)) in E'.
Qed.

Lemma appendChild_child this node w nd :
  nodes w !! node = Some nd → parentNode nd = Some this →
  let P := moved node (Z.of_nat (length (pureChildren (node_of w this))))
             (pureChildren (node_of w this)) in
  ∃ r w', appendChild this node w = Returned r w' ∧
    effect_on w w' this node
      (moved node (Z.of_nat (length (children (node_of w this))))
         (children (node_of w this))).1
      (if isElement w node then P.1 else pureChildren (node_of w this))
      (Some this) ∧
    trace w' = trace w ++
      if isElement w node
      then if (0 <=? P.2)%Z
           then from_option
                  (λ l, [Send l (MoveElement (ref node) (ref this) P.2)]) []
                  (getListener (docId (node_of w this)) w)
           else []
      else [].
Proof.
  intros Hn Hp P. rewrite appendChild_unfold, Hn, Hp, decide_True by done.
  destruct (reorder_spec this node (len (Children this))
              (len (PureChildren this)) w)
    as (w2 & r & w' & -> & E & E2 & E' & T).
  exists r, w'. split; [done|].
  rewrite (lookup_node_of w node nd Hn), Hp in E'.
  unfold len in E', T. destruct E2 as (_ & R2 & _). rewrite R2 in E', T.
  rewrite decide_False, decide_True in E', T by done.
  done.
Qed.

Lemma appendChild_rejected this node w nd q :
  nodes w !! node = Some nd → parentNode nd = Some q → q ≠ this →
  appendChild this node w = Returned undefined w.
Proof.
  intros Hn Hp Hq. by rewrite appendChild_unfold, Hn, Hp, decide_False.
Qed.

Lemma effect_on_refl w this node :
  effect_on w w this node (children (node_of w this))
    (pureChildren (node_of w this)) (parentNode (node_of w node)).
Proof.
  split; [done|]. split.
  - intros c. repeat case_decide; by subst.
  - intros m. case_decide; by subst.
Qed.

Lemma WF_attach w w' this node L PL l1 l2 :
  WF w → parentNode (node_of w node) = None →
  effect_on w w' this node L PL (Some this) →
  children (node_of w this) = l1 ++ l2 →
  L = l1 ++ node :: l2 →
  PL = (if isElement w node then elems w l1 ++ node :: elems w l2
        else pureChildren (node_of w this)) →
  WF w'.
Proof.
  intros Hwf Hp E Hc -> ->.
  assert (Hnot : node ∉ l1 ++ l2).
  { rewrite <- Hc. by apply WF_detached. }
  apply (WF_effect w w' this node _ _ _ Hwf E).
  - pose proof (WF_NoDup w this Hwf) as Hnd. rewrite Hc in Hnd.
    apply NoDup_app in Hnd as (H1 & H2 & H3).
    apply NoDup_app. split; [done|]. split.
    + intros z Hz Hz'. apply elem_of_cons in Hz' as [->|Hz'].
      * apply Hnot. apply elem_of_app. by left.
      * by apply (H2 z).
    + apply NoDup_cons. split; [|done].
      intros Hz. apply Hnot. apply elem_of_app. by right.
  - rewrite filter_app. destruct (isElement w node) eqn:He.
    + by rewrite filter_cons_True.
    + rewrite filter_cons_False by (by rewrite He).
      by rewrite (WF_pure w this Hwf), Hc, filter_app.
  - intros c Hc'. case_decide as Ec; [done|].
    apply (WF_parent w this c Hwf). rewrite Hc.
    apply elem_of_app in Hc' as [?|Hc']; apply elem_of_app; [by left|].
    apply elem_of_cons in Hc' as [?|?]; [done|by right].
  - by right.
Qed.

(** A child that is moved: the array is a permutation of what it was, its
    elements as well. *)
Lemma WF_reorder w w' this node L PL a b l1 l2 :
  WF w → parentNode (node_of w node) = Some this →
  effect_on w w' this node L PL (Some this) →
  children (node_of w this) = a ++ node :: b →
  a ++ b = l1 ++ l2 →
  L = l1 ++ node :: l2 →
  PL = (if isElement w node then elems w l1 ++ node :: elems w l2
        else pureChildren (node_of w this)) →
  WF w'.
Proof.
  intros Hwf Hp E Hc Hs -> ->.
  pose proof (WF_NoDup w this Hwf) as Hnd. rewrite Hc in Hnd.
  assert (Hnd' : NoDup (l1 ++ node :: l2)).
  { apply (NoDup_Permutation_proper _ (a ++ node :: b)); [|done].
    rewrite <- !Permutation_middle. by rewrite Hs. }
  apply (WF_effect w w' this node _ _ _ Hwf E); [done| | |].
  - rewrite filter_app. destruct (isElement w node) eqn:He.
    + by rewrite filter_cons_True.
    + rewrite filter_cons_False by (by rewrite He).
      rewrite (WF_pure w this Hwf), Hc, filter_app, filter_cons_False
        by (by rewrite He).
      by rewrite <- !filter_app, Hs.
  - intros c Hc'. case_decide as Ec; [done|].
    apply (WF_parent w this c Hwf). rewrite Hc.
    assert (c ∈ a ++ b).
    { rewrite Hs. apply elem_of_app in Hc' as [?|Hc']; apply elem_of_app;
        [by left|]. apply elem_of_cons in Hc' as [?|?]; [done|by right]. }
    apply elem_of_app in H as [?|?]; apply elem_of_app; [by left|].
    right. by right.
  - by left.
Qed.

Lemma WF_same w w' this node par :
  WF w →
  effect_on w w' this node (children (node_of w this))
    (pureChildren (node_of w this)) par →
  par = parentNode (node_of w node) →
  WF w'.
Proof.
  intros Hwf E ->. apply (WF_effect w w' this node _ _ _ Hwf E).
  - by apply WF_NoDup.
  - by apply WF_pure.
  - intros c Hc. pose proof (WF_parent w this c Hwf Hc).
    case_decide; by subst.
  - by left.
Qed.

Lemma NoDup_middle_notin (a b : list id) x :
  NoDup (a ++ x :: b) → x ∉ a ∧ x ∉ b ∧ x ∉ a ++ b ∧ NoDup (a ++ b).
Proof.
  intros Hnd.
  assert (Hxa : x ∉ a) by by apply NoDup_app_cons_notin in Hnd.
  apply NoDup_app in Hnd as (H1 & H2 & H3). apply NoDup_cons in H3 as [H3 H4].
  split; [done|]. split; [done|]. split.
  - intros H. by apply elem_of_app in H as [H|H].
  - apply NoDup_app. split; [done|]. split; [|done].
    intros z Hz Hb. apply (H2 z Hz). by right.
Qed.

Lemma indexOf_Some_eq l x : indexOf l (Some x) = from_option Z.of_nat (-1)%Z (index_of x l).
Proof.
  Transparent indexOf. unfold indexOf. Opaque indexOf. simpl.
  by destruct (index_of x l).
Qed.

Lemma moved_to_end l x :
  NoDup l → x ∈ l →
  let l' := removed x l ++ [x] in
  moved x (Z.of_nat (length l)) l
    = (l', if bool_decide (indexOf l' (Some x) = indexOf l (Some x))
           then (-1)%Z else indexOf l' (Some x))
  ∧ (last l = Some x → l' = l).
Proof.
  intros Hnd Hx l'.
  apply list_elem_of_split_l in Hx as (a & b & -> & Hxa).
  destruct (NoDup_middle_notin a b x Hnd) as (_ & Hxb & Hxab & _).
  unfold l'. rewrite removed_middle by done.
  rewrite moved_end by done.
  rewrite (indexOf_middle (a ++ b) x []), (indexOf_middle a x b) by done.
  split.
  - f_equal. repeat case_bool_decide; try done; lia.
  - intros Hl. rewrite (cons_middle x a b), app_assoc in Hl.
    destruct b as [|z b _] using rev_ind; [by rewrite app_nil_r|].
    rewrite app_assoc, last_snoc in Hl. simplify_eq.
    exfalso. apply Hxb. apply elem_of_app. right. left.
Qed.

Lemma appendChild_WF this node w :
  WF w → is_Some (nodes w !! node) →
  ∃ r w', appendChild this node w = Returned r w' ∧ WF w'.
Proof.
  intros Hwf [nd Hn]. pose proof (lookup_node_of w node nd Hn) as Hnd.
  destruct (parentNode nd) as [q|] eqn:Hp.
  - destruct (decide (q = this)) as [->|Hq].
    + destruct (appendChild_child this node w nd Hn Hp) as (r & w' & E & Ef & _).
      exists r, w'. split; [done|].
      destruct (decide (node ∈ children (node_of w this))) as [Hin|Hout].
      * apply list_elem_of_split_l in Hin as (a & b & Hc & Hxa).
        assert (Hpure : pureChildren (node_of w this)
                        = elems w a ++ elems w (node :: b)).
        { by rewrite (WF_pure w this Hwf), Hc, filter_app. }
        eapply (WF_reorder w w' this node _ _ a b (a ++ b) [] Hwf);
          [by rewrite Hnd|exact Ef|done|by rewrite app_nil_r| |].
        -- rewrite Hc, moved_end by done. done.
        -- destruct (isElement w node) eqn:He; [|done].
           rewrite Hpure, filter_cons_True by done.
           rewrite moved_end.
           ++ by rewrite filter_app.
           ++ intros H. by apply list_elem_of_filter in H as [_ H].
      * rewrite moved_absent in Ef by done.
        rewrite moved_absent in Ef.
        2:{ rewrite (WF_pure w this Hwf). intros H.
            by apply list_elem_of_filter in H as [_ H]. }
        eapply (WF_same w w' this node (Some this) Hwf).
        -- by destruct (isElement w node).
        -- by rewrite Hnd.
    + exists undefined, w. split; [|done].
      by apply (appendChild_rejected this node w nd q).
  - destruct (appendChild_detached this node w nd Hn Hp) as (r & w' & E & Ef & _).
    exists r, w'. split; [done|].
    eapply (WF_attach w w' this node _ _ (children (node_of w this)) [] Hwf);
      [by rewrite Hnd|exact Ef|by rewrite app_nil_r|done|].
    destruct (isElement w node); [|done].
    by rewrite (WF_pure w this Hwf).
Qed.

(** ** Insertion at a place given by two halves of [children] *)

Lemma attach_at this node pos ppos sent w (A B : list id) :
  WF w →
  children (node_of w this) = A ++ B →
  inserted (pos (linkParent node this w)) node (A ++ B) = A ++ node :: B →
  (∀ w3, effect_on w w3 this node (A ++ node :: B)
           (pureChildren (node_of w this)) (Some this) →
         inserted (ppos w3) node (elems w A ++ elems w B)
           = elems w A ++ node :: elems w B
         ∧ splice_start (length (elems w A ++ elems w B)) (ppos w3)
           = length (elems w A)) →
  ∃ r w', attach this node pos ppos sent w = Returned r w' ∧
    effect_on w w' this node (A ++ node :: B)
      (if isElement w node then elems w A ++ node :: elems w B
       else pureChildren (node_of w this))
      (Some this) ∧
    trace w' = trace w ++
      if isElement w node
      then from_option
             (λ l, [Send l (AddElement node (ref this)
                              (sent (Z.of_nat (length (elems w A)))))]) []
             (getListener (docId (node_of w this)) w)
      else [].
Proof.
  intros Hwf Hc Hpos Hppos.
  destruct (attach_spec this node pos ppos sent w)
    as (w3 & r & w' & E & E3 & E' & T).
  rewrite Hc, Hpos in E3, E'.
  destruct (Hppos w3 E3) as [H1 H2].
  rewrite (WF_pure w this Hwf), Hc, filter_app in E', T.
  rewrite H1 in E'. rewrite H2 in T.
  exists r, w'. split; [done|]. split; [|done].
  by rewrite (WF_pure w this Hwf), Hc, filter_app.
Qed.

Lemma reorder_at this node pos ppos w (a b A B : list id) :
  WF w →
  children (node_of w this) = a ++ node :: b →
  a ++ b = A ++ B →
  (moved node (pos w) (a ++ node :: b)).1 = A ++ node :: B →
  (isElement w node = true →
   ∀ w2, effect_on w w2 this node (A ++ node :: B)
           (pureChildren (node_of w this)) (parentNode (node_of w node)) →
         moved node (ppos w2) (elems w a ++ node :: elems w b)
           = (elems w A ++ node :: elems w B,
              if bool_decide (length (elems w A) = length (elems w a))
              then (-1)%Z else Z.of_nat (length (elems w A)))) →
  ∃ r w', reorder this node pos ppos w = Returned r w' ∧
    effect_on w w' this node (A ++ node :: B)
      (if isElement w node then elems w A ++ node :: elems w B
       else pureChildren (node_of w this))
      (parentNode (node_of w node)) ∧
    trace w' = trace w ++
      if isElement w node
         && negb (bool_decide (length (elems w A) = length (elems w a)))
      then from_option
             (λ l, [Send l (MoveElement (ref node) (ref this)
                              (Z.of_nat (length (elems w A))))]) []
             (getListener (docId (node_of w this)) w)
      else [].
Proof.
  intros Hwf Hc Hs Hpos Hppos.
  destruct (reorder_spec this node pos ppos w)
    as (w2 & r & w' & -> & E & E2 & E' & T).
  rewrite Hc, Hpos in E2, E'.
  exists r, w'. split; [done|].
  destruct (isElement w node) eqn:He; [|by rewrite app_nil_r in T |- *].
  specialize (Hppos eq_refl _ E2).
  rewrite (WF_pure w this Hwf), Hc, filter_app, filter_cons_True in E', T
    by done.
  rewrite Hppos in E', T. simpl in E', T. split; [done|].
  rewrite T. f_equal. simpl.
  case_bool_decide; simpl; [done|].
  by destruct (Z.leb_spec 0 (Z.of_nat (length (elems w A)))); [|lia].
Qed.

Lemma reorder_absent this node pos ppos w :
  WF w → node ∉ children (node_of w this) →
  ∃ r w', reorder this node pos ppos w = Returned r w' ∧
    effect_on w w' this node (children (node_of w this))
      (pureChildren (node_of w this)) (parentNode (node_of w node)) ∧
    trace w' = trace w.
Proof.
  intros Hwf Hout.
  destruct (reorder_spec this node pos ppos w)
    as (w2 & r & w' & -> & E & E2 & E' & T).
  assert (Hp : node ∉ pureChildren (node_of w this)).
  { rewrite (WF_pure w this Hwf). intros H.
    by apply list_elem_of_filter in H as [_ H]. }
  rewrite (moved_absent node _ (children (node_of w this))) in E' by done.
  rewrite (moved_absent node _ (pureChildren (node_of w this))) in E', T
    by done.
  exists r, w'. split; [done|]. split.
  - by destruct (isElement w node).
  - rewrite T. destruct (isElement w node); simpl; by rewrite app_nil_r.
Qed.

(** ** [insertBefore] and [insertAfter] *)

Lemma already_there_ne node sibling y :
  already_there node sibling (Some y) = false → node ≠ y.
Proof.
  unfold already_there. intros H ->.
  rewrite bool_decide_eq_true_2 in H by done. done.
Qed.

Lemma pure_before_eq w w3 this node y l1 l2 par :
  WF w → y ∈ children (node_of w this) → node ≠ y → y ∉ l1 →
  effect_on w w3 this node (l1 ++ node :: y :: l2)
    (pureChildren (node_of w this)) par →
  pure_before this (Some y) w3 =
    if is_set (head (elems w (y :: l2)))
    then indexOf (pureChildren (node_of w this)) (head (elems w (y :: l2)))
    else Z.of_nat (length (pureChildren (node_of w this))).
Proof.
  intros Hwf Hy Hne Hl1 (Ht & Hr & Hp). unfold pure_before, len.
  rewrite (nextElement_in w3 this y (l1 ++ [node]) l2).
  - rewrite (elems_ext w w3) by done. rewrite Hr.
    by rewrite decide_False, decide_True.
  - rewrite Hp, decide_False by done. by apply WF_parent.
  - change (children (node_of w3 this)) with (read (Children this) w3).
    rewrite Hr, decide_True by done. by rewrite <- app_assoc.
  - intros H. apply elem_of_app in H as [H|H]; [done|].
    apply list_elem_of_singleton in H. done.
Qed.

Lemma pure_after_eq w w3 this node y l1 l2 par :
  WF w → y ∈ children (node_of w this) → node ≠ y → y ∉ l1 →
  effect_on w w3 this node (l1 ++ y :: node :: l2)
    (pureChildren (node_of w this)) par →
  pure_after this (Some y) w3 =
    (indexOf (pureChildren (node_of w this)) (last (elems w (l1 ++ [y]))) + 1)%Z.
Proof.
  intros Hwf Hy Hne Hl1 (Ht & Hr & Hp). unfold pure_after.
  rewrite (previousElement_in w3 this y l1 (node :: l2)).
  - rewrite (elems_ext w w3) by done. rewrite Hr.
    by rewrite decide_False, decide_True.
  - rewrite Hp, decide_False by done. by apply WF_parent.
  - change (children (node_of w3 this)) with (read (Children this) w3).
    by rewrite Hr, decide_True.
  - done.
Qed.

Lemma insertBefore_detached this node y w nd l1 l2 :
  WF w → nodes w !! node = Some nd → parentNode nd = None →
  already_there node (nextSibling nd) (Some y) = false →
  children (node_of w this) = l1 ++ y :: l2 →
  ∃ r w', insertBefore this node (Some y) w = Returned r w' ∧
    effect_on w w' this node (l1 ++ node :: y :: l2)
      (if isElement w node then elems w l1 ++ node :: elems w (y :: l2)
       else pureChildren (node_of w this))
      (Some this) ∧
    trace w' = trace w ++
      if isElement w node
      then from_option
             (λ l, [Send l (AddElement node (ref this)
                              (Z.of_nat (length (elems w l1))))]) []
             (getListener (docId (node_of w this)) w)
      else [].
Proof.
  intros Hwf Hn Hp Hg Hc.
  rewrite insertBefore_unfold, Hn, Hp, Hg.
  pose proof (WF_NoDup w this Hwf) as Hnd. rewrite Hc in Hnd.
  pose proof (NoDup_app_cons_notin _ _ _ Hnd) as Hy.
  apply (attach_at this node _ _ (λ i, i) w l1 (y :: l2) Hwf Hc).
  - rewrite read_linkParent. unfold read. rewrite Hc.
    by apply inserted_before.
  - intros w3 E3.
    rewrite (pure_before_eq w w3 this node y l1 l2 (Some this)); try done.
    + rewrite (WF_pure w this Hwf), Hc, filter_app.
      apply place_before. rewrite <- filter_app. by apply NoDup_filter.
    + rewrite Hc. apply elem_of_app. right. left.
    + by apply already_there_ne in Hg.
Qed.

Lemma insertAfter_detached this node y w nd l1 l2 :
  WF w → nodes w !! node = Some nd → parentNode nd = None →
  already_there node (previousSibling nd) (Some y) = false →
  children (node_of w this) = l1 ++ y :: l2 →
  ∃ r w', insertAfter this node (Some y) w = Returned r w' ∧
    effect_on w w' this node ((l1 ++ [y]) ++ node :: l2)
      (if isElement w node then elems w (l1 ++ [y]) ++ node :: elems w l2
       else pureChildren (node_of w this))
      (Some this) ∧
    trace w' = trace w ++
      if isElement w node
      then from_option
             (λ l, [Send l (AddElement node (ref this)
                              (Z.of_nat (length (elems w (l1 ++ [y])))))]) []
             (getListener (docId (node_of w this)) w)
      else [].
Proof.
  intros Hwf Hn Hp Hg Hc.
  rewrite insertAfter_unfold, Hn, Hp, Hg.
  pose proof (WF_NoDup w this Hwf) as Hnd. rewrite Hc in Hnd.
  pose proof (NoDup_app_cons_notin _ _ _ Hnd) as Hy.
  assert (Hc' : children (node_of w this) = (l1 ++ [y]) ++ l2).
  { by rewrite <- app_assoc. }
  apply (attach_at this node _ _ (λ i, i) w (l1 ++ [y]) l2 Hwf Hc').
  - rewrite read_linkParent. unfold read. rewrite Hc.
    rewrite <- !app_assoc. simpl. by apply inserted_after.
  - intros w3 E3. rewrite <- app_assoc in E3. simpl in E3.
    rewrite (pure_after_eq w w3 this node y l1 l2 (Some this)); try done.
    + rewrite (WF_pure w this Hwf), Hc', filter_app.
      apply place_after. rewrite <- filter_app, <- app_assoc.
      by apply NoDup_filter.
    + rewrite Hc. apply elem_of_app. right. left.
    + by apply already_there_ne in Hg.
Qed.

Lemma insertBefore_child this node y w nd a b l1 l2 :
  WF w → nodes w !! node = Some nd → parentNode nd = Some this →
  already_there node (nextSibling nd) (Some y) = false →
  children (node_of w this) = a ++ node :: b →
  a ++ b = l1 ++ y :: l2 →
  ∃ r w', insertBefore this node (Some y) w = Returned r w' ∧
    effect_on w w' this node (l1 ++ node :: y :: l2)
      (if isElement w node then elems w l1 ++ node :: elems w (y :: l2)
       else pureChildren (node_of w this))
      (Some this) ∧
    trace w' = trace w ++
      if isElement w node
         && negb (bool_decide (length (elems w l1) = length (elems w a)))
      then from_option
             (λ l, [Send l (MoveElement (ref node) (ref this)
                              (Z.of_nat (length (elems w l1))))]) []
             (getListener (docId (node_of w this)) w)
      else [].
Proof.
  intros Hwf Hn Hp Hg Hc Hs.
  rewrite insertBefore_unfold, Hn, Hp, decide_True, Hg by done.
  pose proof (WF_NoDup w this Hwf) as Hnd. rewrite Hc in Hnd.
  destruct (NoDup_middle_notin a b node Hnd) as (Hxa & Hxb & Hxab & Hnd').
  pose proof Hnd' as Hnd''. rewrite Hs in Hnd''.
  pose proof (NoDup_app_cons_notin _ _ _ Hnd'') as Hy.
  pose proof (already_there_ne _ _ _ Hg) as Hne.
  rewrite <- Hp, <- (lookup_node_of w node nd Hn).
  apply (reorder_at this node _ _ w a b l1 (y :: l2) Hwf Hc Hs).
  - unfold read. rewrite Hc. by rewrite (moved_before node y a b l1 l2).
  - intros He w2 E2.
    rewrite (pure_before_eq w w2 this node y l1 l2
               (parentNode (node_of w node))); try done.
    + rewrite (WF_pure w this Hwf), Hc, filter_app, (filter_cons_True _ node)
        by done.
      apply move_before.
      * rewrite <- (filter_cons_True _ node) by done. rewrite <- filter_app.
        by apply NoDup_filter.
      * by rewrite <- !filter_app, Hs.
    + rewrite Hc. assert (H : y ∈ a ++ b).
      { rewrite Hs. apply elem_of_app. right. left. }
      apply elem_of_app in H as [?|?]; apply elem_of_app; [by left|].
      right. by right.
Qed.

Lemma insertAfter_child this node y w nd a b l1 l2 :
  WF w → nodes w !! node = Some nd → parentNode nd = Some this →
  already_there node (previousSibling nd) (Some y) = false →
  children (node_of w this) = a ++ node :: b →
  a ++ b = l1 ++ y :: l2 →
  ∃ r w', insertAfter this node (Some y) w = Returned r w' ∧
    effect_on w w' this node ((l1 ++ [y]) ++ node :: l2)
      (if isElement w node then elems w (l1 ++ [y]) ++ node :: elems w l2
       else pureChildren (node_of w this))
      (Some this) ∧
    trace w' = trace w ++
      if isElement w node
         && negb (bool_decide (length (elems w (l1 ++ [y]))
                               = length (elems w a)))
      then from_option
             (λ l, [Send l (MoveElement (ref node) (ref this)
                              (Z.of_nat (length (elems w (l1 ++ [y])))))]) []
             (getListener (docId (node_of w this)) w)
      else [].
Proof.
  intros Hwf Hn Hp Hg Hc Hs.
  rewrite insertAfter_unfold, Hn, Hp, decide_True, Hg by done.
  pose proof (WF_NoDup w this Hwf) as Hnd. rewrite Hc in Hnd.
  destruct (NoDup_middle_notin a b node Hnd) as (Hxa & Hxb & Hxab & Hnd').
  pose proof Hnd' as Hnd''. rewrite Hs in Hnd''.
  pose proof (NoDup_app_cons_notin _ _ _ Hnd'') as Hy.
  pose proof (already_there_ne _ _ _ Hg) as Hne.
  rewrite <- Hp, <- (lookup_node_of w node nd Hn).
  assert (Hs' : a ++ b = (l1 ++ [y]) ++ l2) by by rewrite <- app_assoc.
  apply (reorder_at this node _ _ w a b (l1 ++ [y]) l2 Hwf Hc Hs').
  - unfold read. rewrite Hc, (moved_after node y a b l1 l2) by done.
    by rewrite <- app_assoc.
  - intros He w2 E2. rewrite <- app_assoc in E2. simpl in E2.
    rewrite (pure_after_eq w w2 this node y l1 l2
               (parentNode (node_of w node))); try done.
    + rewrite (WF_pure w this Hwf), Hc, filter_app, (filter_cons_True _ node)
        by done.
      apply move_after.
      * rewrite <- (filter_cons_True _ node) by done. rewrite <- filter_app.
        by apply NoDup_filter.
      * by rewrite <- !filter_app, Hs'.
    + rewrite Hc. assert (H : y ∈ a ++ b).
      { rewrite Hs. apply elem_of_app. right. left. }
      apply elem_of_app in H as [?|?]; apply elem_of_app; [by left|].
      right. by right.
Qed.

Lemma insert_guarded this node x w nd sibling :
  nodes w !! node = Some nd →
  already_there node sibling x = true →
  (sibling = nextSibling nd → insertBefore this node x w = Returned undefined w)
  ∧ (sibling = previousSibling nd →
     insertAfter this node x w = Returned undefined w).
Proof.
  intros Hn Hg. split; intros ->.
  - rewrite insertBefore_unfold, Hn, Hg.
    destruct (parentNode nd); [|done]. by case_decide.
  - rewrite insertAfter_unfold, Hn, Hg.
    destruct (parentNode nd); [|done]. by case_decide.
Qed.

Lemma insert_rejected this node x w nd q :
  nodes w !! node = Some nd → parentNode nd = Some q → q ≠ this →
  insertBefore this node x w = Returned undefined w
  ∧ insertAfter this node x w = Returned undefined w.
Proof.
  intros Hn Hp Hq.
  by rewrite insertBefore_unfold, insertAfter_unfold, Hn, Hp, !decide_False
    by done.
Qed.

Lemma insertBefore_WF this node before w :
  WF w → is_Some (nodes w !! node) → is_child w this before →
  ∃ r w', insertBefore this node before w = Returned r w' ∧ WF w'.
Proof.
  intros Hwf [nd Hn] Hb. pose proof (lookup_node_of w node nd Hn) as Hnd.
  destruct before as [y|]; [|done]. simpl in Hb.
  destruct (already_there node (nextSibling nd) (Some y)) eqn:Hg.
  { exists undefined, w. split; [|done].
    by apply (insert_guarded this node (Some y) w nd (nextSibling nd)). }
  pose proof (already_there_ne _ _ _ Hg) as Hne.
  destruct (parentNode nd) as [q|] eqn:Hp.
  - destruct (decide (q = this)) as [->|Hq].
    + destruct (decide (node ∈ children (node_of w this))) as [Hin|Hout].
      * apply list_elem_of_split_l in Hin as (a & b & Hc & Hxa).
        assert (Hy : y ∈ a ++ b).
        { rewrite Hc in Hb. apply elem_of_app in Hb as [?|Hb];
            apply elem_of_app; [by left|].
          apply elem_of_cons in Hb as [?|?]; [done|by right]. }
        apply list_elem_of_split_l in Hy as (l1 & l2 & Hs & Hyl).
        destruct (insertBefore_child this node y w nd a b l1 l2)
          as (r & w' & E & Ef & _); try done.
        exists r, w'. split; [done|].
        eapply (WF_reorder w w' this node _ _ a b l1 (y :: l2) Hwf);
          [by rewrite Hnd|exact Ef|done|done|done|done].
      * rewrite insertBefore_unfold, Hn, Hp, decide_True, Hg by done.
        destruct (reorder_absent this node
                    (λ w, indexOf (read (Children this) w) (Some y))
                    (pure_before this (Some y)) w Hwf Hout)
          as (r & w' & E & Ef & _).
        exists r, w'. split; [done|].
        by eapply (WF_same w w' this node _ Hwf Ef).
    + exists undefined, w. split; [|done].
      by apply (insert_rejected this node (Some y) w nd q).
  - apply list_elem_of_split_l in Hb as (l1 & l2 & Hc & Hyl).
    destruct (insertBefore_detached this node y w nd l1 l2)
      as (r & w' & E & Ef & _); try done.
    exists r, w'. split; [done|].
    eapply (WF_attach w w' this node _ _ l1 (y :: l2) Hwf);
      [by rewrite Hnd|exact Ef|done|done|].
    destruct (isElement w node); done.
Qed.

Lemma insertAfter_WF this node after w :
  WF w → is_Some (nodes w !! node) → is_child w this after →
  ∃ r w', insertAfter this node after w = Returned r w' ∧ WF w'.
Proof.
  intros Hwf [nd Hn] Hb. pose proof (lookup_node_of w node nd Hn) as Hnd.
  destruct after as [y|]; [|done]. simpl in Hb.
  destruct (already_there node (previousSibling nd) (Some y)) eqn:Hg.
  { exists undefined, w. split; [|done].
    by apply (insert_guarded this node (Some y) w nd (previousSibling nd)). }
  pose proof (already_there_ne _ _ _ Hg) as Hne.
  destruct (parentNode nd) as [q|] eqn:Hp.
  - destruct (decide (q = this)) as [->|Hq].
    + destruct (decide (node ∈ children (node_of w this))) as [Hin|Hout].
      * apply list_elem_of_split_l in Hin as (a & b & Hc & Hxa).
        assert (Hy : y ∈ a ++ b).
        { rewrite Hc in Hb. apply elem_of_app in Hb as [?|Hb];
            apply elem_of_app; [by left|].
          apply elem_of_cons in Hb as [?|?]; [done|by right]. }
        apply list_elem_of_split_l in Hy as (l1 & l2 & Hs & Hyl).
        destruct (insertAfter_child this node y w nd a b l1 l2)
          as (r & w' & E & Ef & _); try done.
        exists r, w'. split; [done|].
        eapply (WF_reorder w w' this node _ _ a b (l1 ++ [y]) l2 Hwf);
          [by rewrite Hnd|exact Ef|done|by rewrite <- app_assoc|done|done].
      * rewrite insertAfter_unfold, Hn, Hp, decide_True, Hg by done.
        destruct (reorder_absent this node
                    (λ w, (indexOf (read (Children this) w) (Some y) + 1)%Z)
                    (pure_after this (Some y)) w Hwf Hout)
          as (r & w' & E & Ef & _).
        exists r, w'. split; [done|].
        by eapply (WF_same w w' this node _ Hwf Ef).
    + exists undefined, w. split; [|done].
      by apply (insert_rejected this node (Some y) w nd q).
  - apply list_elem_of_split_l in Hb as (l1 & l2 & Hc & Hyl).
    destruct (insertAfter_detached this node y w nd l1 l2)
      as (r & w' & E & Ef & _); try done.
    exists r, w'. split; [done|].
    eapply (WF_attach w w' this node _ _ (l1 ++ [y]) l2 Hwf);
      [by rewrite Hnd|exact Ef|by rewrite <- app_assoc|done|].
    destruct (isElement w node); done.
Qed.

(** ** [removeChild] and [clear] *)

Lemma read_destroy c n w : read c (destroy n w) = read c w.
Proof. destruct c; unfold read; by rewrite node_of_destroy. Qed.

Lemma removeChild_spec this node preserved w nd :
  nodes w !! node = Some nd →
  ∃ w', removeChild this node preserved w = Returned undefined w' ∧
    effect_on w w' this node
      (if is_set (parentNode nd)
       then removed node (children (node_of w this))
       else children (node_of w this))
      (if is_set (parentNode nd) && isElement w node
       then removed node (pureChildren (node_of w this))
       else pureChildren (node_of w this))
      (parentNode nd) ∧
    trace w' = trace w
      ++ (if is_set (parentNode nd) && isElement w node
          then from_option (λ l, [Send l (RemoveElement (ref node))]) []
                 (getListener (docId (node_of w this)) w)
          else [])
      ++ (if truthy preserved then [] else [Destroy node]).
Proof.
  intros Hn. pose proof (lookup_node_of w node nd Hn) as Hnd.
  unfold removeChild. rewrite Hn. eexists. split; [reflexivity|].
  set (w1 := removeIndex node (Children this) true w).
  assert (He : isElement w1 node = isElement w node).
  { apply isElement_ext. intros m. unfold w1. by frame. }
  rewrite He.
  assert (Hl : getListener (docId (node_of
                 (removeIndex node (PureChildren this) false w1) this))
                 (removeIndex node (PureChildren this) false w1)
               = getListener (docId (node_of w this)) w).
  { unfold w1. frame. by apply getListener_docs; frame. }
  rewrite Hl.
  assert (Hrefl : ∀ m, parentNode (node_of w m) =
            if decide (m = node) then parentNode nd
            else parentNode (node_of w m)).
  { intros m. case_decide; by subst. }
  destruct (is_set (parentNode nd)); simpl.
  - destruct (isElement w node); simpl.
    + split; [split; [|split]|].
      * intros m. destruct (truthy preserved); simpl;
          rewrite ?node_of_destroy; unfold w1; by frame.
      * intros c. destruct (truthy preserved); simpl;
          rewrite ?read_destroy; unfold w1; frame;
          destruct (decide (c = Children this)) as [->|E1];
          try (rewrite decide_False by done; done);
          destruct (decide (c = PureChildren this)) as [->|E2]; done.
      * intros m. destruct (truthy preserved); simpl;
          rewrite ?node_of_destroy; unfold w1; frame; apply Hrefl.
      * destruct (truthy preserved); simpl; rewrite ?trace_destroy;
          unfold w1; frame; by rewrite ?app_nil_r, <- ?app_assoc.
    + split; [split; [|split]|].
      * intros m. destruct (truthy preserved); simpl;
          rewrite ?node_of_destroy; unfold w1; by frame.
      * intros c. destruct (truthy preserved); simpl;
          rewrite ?read_destroy; unfold w1; frame;
          destruct (decide (c = Children this)) as [->|E1]; try done;
          destruct (decide (c = PureChildren this)) as [->|E2]; done.
      * intros m. destruct (truthy preserved); simpl;
          rewrite ?node_of_destroy; unfold w1; frame; apply Hrefl.
      * destruct (truthy preserved); simpl; rewrite ?trace_destroy;
          unfold w1; frame; by rewrite ?app_nil_r, <- ?app_assoc.
  - split; [split; [|split]|].
    + intros m. destruct (truthy preserved); simpl;
        by rewrite ?node_of_destroy.
    + intros c. destruct (truthy preserved); simpl; rewrite ?read_destroy;
        destruct (decide (c = Children this)) as [->|E1]; try done;
        destruct (decide (c = PureChildren this)) as [->|E2]; done.
    + intros m. destruct (truthy preserved); simpl;
        rewrite ?node_of_destroy; apply Hrefl.
    + destruct (truthy preserved); simpl; rewrite ?trace_destroy;
        by rewrite ?app_nil_r.
Qed.

Lemma clear_spec this w :
  ∃ w', clear this w = Returned undefined w' ∧
    effect_on w w' this this [] [] (parentNode (node_of w this)) ∧
    trace w' = trace w
      ++ from_option
           (λ l, map (λ n, Send l (RemoveElement (ref n)))
                   (pureChildren (node_of w this))) []
           (getListener (docId (node_of w this)) w)
      ++ map Destroy (children (node_of w this)).
Proof.
  unfold clear. eexists. split; [reflexivity|].
  set (ls := getListener (docId (node_of w this)) w).
  set (w1 := if bool_decide (is_Some ls)
             then forEach (λ node, send_to ls (RemoveElement (ref node)))
                    (read (PureChildren this) w) w
             else w).
  assert (H1 : ∀ m, node_of w1 m = node_of w m).
  { intros m. unfold w1. case_bool_decide; [|done].
    apply node_of_forEach_send_to. }
  assert (T1 : trace w1 = trace w ++
            from_option
              (λ l, map (λ n, Send l (RemoveElement (ref n)))
                      (pureChildren (node_of w this))) [] ls).
  { unfold w1. case_bool_decide as E.
    - apply trace_forEach_send_to.
    - destruct ls; [|by rewrite app_nil_r]. destruct E. eauto. }
  assert (R1 : ∀ c, read c w1 = read c w).
  { intros c. destruct c; unfold read; by rewrite H1. }
  split; [split; [|split]|].
  - intros m. rewrite !(field_write nodeType) by done.
    by rewrite node_of_forEach_destroy, H1.
  - intros c. rewrite !read_write.
    destruct (decide (c = Children this)) as [->|E1].
    + by rewrite decide_False.
    + destruct (decide (c = PureChildren this)) as [->|E2]; [done|].
      destruct c; unfold read; by rewrite node_of_forEach_destroy, H1.
  - intros m. rewrite !(field_write parentNode) by done.
    rewrite node_of_forEach_destroy, H1. case_decide; by subst.
  - rewrite !trace_write, trace_forEach_destroy, T1, R1.
    by rewrite <- app_assoc.
Qed.

Lemma removed_sub x (l : list id) c : c ∈ removed x l → c ∈ l.
Proof.
  destruct (decide (x ∈ l)) as [Hin|Hout].
  - apply list_elem_of_split_l in Hin as (a & b & -> & Hxa).
    rewrite removed_middle by done. intros H.
    apply elem_of_app in H as [?|?]; apply elem_of_app; [by left|].
    right. by right.
  - by rewrite removed_notin.
Qed.

Lemma removed_NoDup x (l : list id) : NoDup l → NoDup (removed x l).
Proof.
  intros Hnd. destruct (decide (x ∈ l)) as [Hin|Hout].
  - apply list_elem_of_split_l in Hin as (a & b & -> & Hxa).
    rewrite removed_middle by done.
    by apply NoDup_middle_notin in Hnd as (_ & _ & _ & ?).
  - by rewrite removed_notin.
Qed.

Lemma elems_removed w x (l : list id) :
  elems w (removed x l) =
    if isElement w x then removed x (elems w l) else elems w l.
Proof.
  destruct (decide (x ∈ l)) as [Hin|Hout].
  - apply list_elem_of_split_l in Hin as (a & b & -> & Hxa).
    rewrite removed_middle by done. rewrite !filter_app.
    destruct (isElement w x) eqn:He.
    + rewrite filter_cons_True by done. rewrite removed_middle; [done|].
      intros H. by apply list_elem_of_filter in H as [_ H].
    + by rewrite filter_cons_False by (by rewrite He).
  - rewrite removed_notin by done.
    destruct (isElement w x); [|done]. rewrite removed_notin; [done|].
    intros H. by apply list_elem_of_filter in H as [_ H].
Qed.

Lemma removeChild_WF this node preserved w :
  WF w → is_Some (nodes w !! node) →
  ∃ r w', removeChild this node preserved w = Returned r w' ∧ WF w'.
Proof.
  intros Hwf [nd Hn]. pose proof (lookup_node_of w node nd Hn) as Hnd.
  destruct (removeChild_spec this node preserved w nd Hn) as (w' & E & Ef & _).
  exists undefined, w'. split; [done|].
  eapply (WF_effect w w' this node _ _ _ Hwf Ef).
  - destruct (is_set (parentNode nd)); [apply removed_NoDup|];
      by apply WF_NoDup.
  - rewrite (WF_pure w this Hwf).
    destruct (is_set (parentNode nd)); simpl; [|done].
    by rewrite elems_removed.
  - intros c Hc.
    assert (Hc' : c ∈ children (node_of w this)).
    { destruct (is_set (parentNode nd)); [by apply removed_sub in Hc|done]. }
    pose proof (WF_parent w this c Hwf Hc') as Hp.
    case_decide; by subst.
  - left. by rewrite Hnd.
Qed.

Lemma clear_WF this w :
  WF w → ∃ r w', clear this w = Returned r w' ∧ WF w'.
Proof.
  intros Hwf. destruct (clear_spec this w) as (w' & E & Ef & _).
  exists undefined, w'. split; [done|].
  eapply (WF_effect w w' this this _ _ _ Hwf Ef).
  - apply NoDup_nil_2.
  - done.
  - intros c Hc. by apply elem_of_nil in Hc.
  - by left.
Qed.

Lemma exec_WF c w :
  WF w → pre c w → ∃ r w', exec c w = Returned r w' ∧ WF w'.
Proof.
  intros Hwf Hpre. destruct c; simpl in *.
  - by apply appendChild_WF.
  - destruct Hpre. by apply insertBefore_WF.
  - destruct Hpre. by apply insertAfter_WF.
  - by apply removeChild_WF.
  - by apply clear_WF.
Qed.

(** C1. From a well-formed store (such as one of freshly made nodes), after
    each call of a sequence of [appendChild], [insertBefore], [insertAfter],
    [removeChild] and [clear] calls whose [node] is an object and whose
    [before] / [after] is a child of [this], the calls return and the
    [pureChildren] of every node is its [children] filtered, in order, by
    [nodeType === 1]. *)
Theorem pureChildren_invariant w cs :
  WF w → respects cs w →
  ∀ cs1 cs2, cs = cs1 ++ cs2 →
    ∃ r w1, run cs1 w = Returned r w1 ∧
      ∀ p, pureChildren (node_of w1 p)
           = filter (λ c, nodeType (node_of w1 c) = 1%Z)
               (children (node_of w1 p)).
Proof.
  intros Hwf Hres cs1. revert w cs Hwf Hres.
  induction cs1 as [|c cs1 IH]; intros w cs Hwf Hres cs2 ->; simpl.
  - exists undefined, w. split; [done|]. intros p.
    rewrite (WF_pure w p Hwf). apply list_filter_iff. intros x.
    unfold isElement. apply Z.eqb_eq.
  - simpl in Hres. destruct Hres as [Hpre Hres].
    destruct (exec_WF c w Hwf Hpre) as (r & w' & E & Hwf').
    rewrite E in Hres |- *. simpl in *.
    by apply (IH w' (cs1 ++ cs2) Hwf' Hres cs2).
Qed.

Lemma world0_WF : WF world0.
Proof.
  apply WF_stored_WF.
  apply (@bool_decide_unpack _ (WF_stored_dec world0)). vm_compute. exact I.
Qed.

Lemma pureChildren_invariant_witness :
  ∃ r w1, run sample_calls world0 = Returned r w1 ∧
    ∀ p, pureChildren (node_of w1 p)
         = filter (λ c, nodeType (node_of w1 c) = 1%Z) (children (node_of w1 p)).
Proof.
  apply (pureChildren_invariant world0 sample_calls) with (cs2 := []).
  - apply WF_stored_WF.
    apply (@bool_decide_unpack _ (WF_stored_dec world0)). vm_compute. exact I.
  - apply (@bool_decide_unpack _ (respects_dec sample_calls world0)).
    vm_compute. exact I.
  - by rewrite app_nil_r.
Defined.

(** C4. For a node whose [parentNode] is set and is not [this],
    [appendChild], [insertBefore] and [insertAfter] return (nothing is
    thrown, the result is [undefined]) and hand back the world they were
    given: no array, no link and no trace entry differs. *)
Theorem reparent_rejected this node x w nd q :
  nodes w !! node = Some nd → parentNode nd = Some q → q ≠ this →
  appendChild this node w = Returned undefined w
  ∧ insertBefore this node x w = Returned undefined w
  ∧ insertAfter this node x w = Returned undefined w.
Proof.
  intros Hn Hp Hq. split.
  - by apply (appendChild_rejected this node w nd q).
  - by apply (insert_rejected this node x w nd q).
Qed.

Lemma reparent_rejected_witness :
  appendChild 1 6 world_QX = Returned undefined world_QX
  ∧ insertBefore 1 6 (Some 2) world_QX = Returned undefined world_QX
  ∧ insertAfter 1 6 (Some 2) world_QX = Returned undefined world_QX.
Proof.
  apply (reparent_rejected 1 6 (Some 2) world_QX (node_of world_QX 6) 5).
  - vm_compute. reflexivity.
  - vm_compute. reflexivity.
  - lia.
Defined.

(** C9. [clear()] returns with [children] and [pureChildren] empty; what it
    adds to the trace is, when a listener exists, one [removeElement] per
    entry of [pureChildren] in the order of that array, and after these one
    [destroy] per entry of [children]: every child is destroyed, none is
    kept. *)
Theorem clear_contract this w :
  ∃ w', clear this w = Returned undefined w' ∧
    children (node_of w' this) = [] ∧
    pureChildren (node_of w' this) = [] ∧
    trace w' = trace w
      ++ from_option
           (λ l, map (λ n, Send l (RemoveElement (ref n)))
                   (pureChildren (node_of w this))) []
           (getListener (docId (node_of w this)) w)
      ++ map Destroy (children (node_of w this)).
Proof.
  destruct (clear_spec this w) as (w' & E & (_ & R & _) & T).
  exists w'. split; [done|].
  pose proof (R (Children this)) as Rc. pose proof (R (PureChildren this)) as Rp.
  rewrite decide_True in Rc by done.
  rewrite decide_False, decide_True in Rp by done.
  done.
Qed.

(** ** [removeChild] *)

(** [removeChild(node, preserved)] as it is written: the test is
    [node.parentNode], whichever node that parent is.  When it is set, [node]
    is taken out of [this.children] if it is there and, when it is an
    element, out of [this.pureChildren], and [removeElement] with its ref is
    sent when a listener exists; when it is unset nothing is removed and
    nothing is sent.  In both cases [node] is destroyed exactly when
    [preserved] is falsy, after the removal.  In a well-formed store a child
    of [this] is in neither array afterwards. *)
Theorem removeChild_contract this node preserved w nd :
  nodes w !! node = Some nd →
  ∃ w', removeChild this node preserved w = Returned undefined w' ∧
    children (node_of w' this) =
      (if is_set (parentNode nd)
       then removed node (children (node_of w this))
       else children (node_of w this)) ∧
    pureChildren (node_of w' this) =
      (if is_set (parentNode nd) && isElement w node
       then removed node (pureChildren (node_of w this))
       else pureChildren (node_of w this)) ∧
    trace w' = trace w
      ++ (if is_set (parentNode nd) && isElement w node
          then from_option (λ l, [Send l (RemoveElement (ref node))]) []
                 (getListener (docId (node_of w this)) w)
          else [])
      ++ (if truthy preserved then [] else [Destroy node]) ∧
    (WF w → is_Some (parentNode nd) →
     node ∉ children (node_of w' this) ∧ node ∉ pureChildren (node_of w' this)).
Proof.
  intros Hn.
  destruct (removeChild_spec this node preserved w nd Hn)
    as (w' & E & (Ht & R & _) & T).
  exists w'. split; [done|].
  pose proof (R (Children this)) as Rc. pose proof (R (PureChildren this)) as Rp.
  rewrite decide_True in Rc by done.
  rewrite decide_False, decide_True in Rp by done.
  unfold read in Rc, Rp.
  split; [done|]. split; [done|]. split; [done|]. intros Hwf Hs. split.
  - rewrite Rc. unfold is_set.
    rewrite bool_decide_eq_true_2 by done.
    pose proof (WF_NoDup w this Hwf) as Hnd. intros Hin.
    pose proof (removed_sub _ _ _ Hin) as Hin'.
    apply list_elem_of_split_l in Hin' as (a & b & Hc & Hxa).
    rewrite Hc in Hin, Hnd. rewrite removed_middle in Hin by done.
    by apply NoDup_middle_notin in Hnd as (_ & _ & ? & _).
  - intros Hin.
    assert (Hw' : WF w').
    { destruct (removeChild_WF this node preserved w Hwf) as (r & w2 & E2 & H2);
        [eauto|]. rewrite E in E2. by simplify_eq. }
    rewrite (WF_pure w' this Hw') in Hin.
    apply list_elem_of_filter in Hin as [_ Hin]. revert Hin.
    rewrite Rc. unfold is_set. rewrite bool_decide_eq_true_2 by done.
    pose proof (WF_NoDup w this Hwf) as Hnd. intros Hin.
    pose proof (removed_sub _ _ _ Hin) as Hin'.
    apply list_elem_of_split_l in Hin' as (a & b & Hc & Hxa).
    rewrite Hc in Hin, Hnd. rewrite removed_middle in Hin by done.
    by apply NoDup_middle_notin in Hnd as (_ & _ & ? & _).
Qed.

Lemma removeChild_contract_witness :
  ∃ w', removeChild 1 2 VUndefined world_ATB = Returned undefined w' ∧
    children (node_of w' 1) = [3; 4] ∧
    pureChildren (node_of w' 1) = [4] ∧
    trace w' = trace world_ATB
      ++ [Send "doc"%string (RemoveElement (ref 2))] ++ [Destroy 2].
Proof.
  destruct (removeChild_contract 1 2 VUndefined world_ATB
              (node_of world_ATB 2)) as (w' & E & C & P & T & _).
  - vm_compute. reflexivity.
  - exists w'. split; [exact E|]. split; [|split].
    + rewrite C. vm_compute. reflexivity.
    + rewrite P. vm_compute. reflexivity.
    + rewrite T. vm_compute. reflexivity.
Defined.

(** C2.  The claim has [removeChild] remove and report [node] only if it
    is attached to [this].  The method tests [node.parentNode] alone, where
    [appendChild], [insertBefore] and [insertAfter] test [node.parentNode !==
    this]: with [X] a child of [Q] and not of [P], [P.removeChild(X, true)]
    sends [removeElement] for [X] to the listener of [P]'s document, while
    [X] stays in the arrays of [Q] with [Q] as its parent. *)
Lemma removeChild_foreign_child :
  parentNode (node_of world_QX 6) = Some 5
  ∧ 6 ∉ children (node_of world_QX 1)
  ∧ (∃ w', removeChild 1 6 (VBool true) world_QX = Returned undefined w'
           ∧ trace w' = trace world_QX
               ++ [Send "doc"%string (RemoveElement (ref 6))]
           ∧ children (node_of w' 5) = [6]
           ∧ pureChildren (node_of w' 5) = [6]
           ∧ parentNode (node_of w' 6) = Some 5)
  ∧ ¬ removeChild_acts_only_on_own_child.
Proof.
  split; [vm_compute; reflexivity|].
  assert (Hout : 6 ∉ children (node_of world_QX 1)).
  { vm_compute. apply not_elem_of_nil. }
  split; [exact Hout|]. split.
  - eexists. repeat split; vm_compute; reflexivity.
  - intros H.
    destruct (H 1 6 (VBool true) world_QX
                (world_of (removeChild 1 6 (VBool true) world_QX) world_QX))
      as (_ & _ & T).
    + vm_compute. eauto.
    + exact Hout.
    + vm_compute. reflexivity.
    + vm_compute in T. apply (f_equal length) in T. simpl in T. lia.
Qed.

(** ** Reordering by [appendChild] *)

Lemma indexOf_nonneg (l : list id) x : x ∈ l → (0 ≤ indexOf l (Some x))%Z.
Proof.
  intros H. rewrite indexOf_Some_eq.
  destruct (elem_of_index_of x l H) as [i ->]. simpl. lia.
Qed.

(** C5. [appendChild(node)] with [node] already a child of [this] moves it to
    the end of [children] and, if it is an element, to the end of
    [pureChildren]; [moveElement(node.ref, this.ref, index)], with the new
    index of [node] in [pureChildren], is sent exactly when [node] is an
    element whose index in [pureChildren] changed and a listener exists.  If
    [node] is already the last child, both arrays are as they were and nothing
    is sent. *)
Theorem appendChild_existing_child this node w nd :
  WF w → nodes w !! node = Some nd → parentNode nd = Some this →
  node ∈ children (node_of w this) →
  ∃ r w', appendChild this node w = Returned r w' ∧
    children (node_of w' this)
      = removed node (children (node_of w this)) ++ [node] ∧
    pureChildren (node_of w' this)
      = (if isElement w node
         then removed node (pureChildren (node_of w this)) ++ [node]
         else pureChildren (node_of w this)) ∧
    trace w' = trace w ++
      (if isElement w node
          && negb (bool_decide
                     (indexOf (pureChildren (node_of w' this)) (Some node)
                      = indexOf (pureChildren (node_of w this)) (Some node)))
       then from_option
              (λ l, [Send l (MoveElement (ref node) (ref this)
                       (indexOf (pureChildren (node_of w' this)) (Some node)))])
              [] (getListener (docId (node_of w this)) w)
       else []) ∧
    (last (children (node_of w this)) = Some node →
     children (node_of w' this) = children (node_of w this)
     ∧ pureChildren (node_of w' this) = pureChildren (node_of w this)
     ∧ trace w' = trace w).
Proof.
  intros Hwf Hn Hp Hin.
  destruct (appendChild_child this node w nd Hn Hp)
    as (r & w' & E & (_ & R & _) & T).
  exists r, w'. split; [done|].
  pose proof (R (Children this)) as Rc. pose proof (R (PureChildren this)) as Rp.
  rewrite decide_True in Rc by done.
  rewrite decide_False, decide_True in Rp by done.
  unfold read in Rc, Rp.
  destruct (moved_to_end (children (node_of w this)) node
              (WF_NoDup w this Hwf) Hin) as [Mc Lc].
  rewrite Mc in Rc. simpl in Rc.
  destruct (isElement w node) eqn:He; simpl.
  - assert (Hinp : node ∈ pureChildren (node_of w this)).
    { rewrite (WF_pure w this Hwf). by apply list_elem_of_filter. }
    assert (Hndp : NoDup (pureChildren (node_of w this))).
    { rewrite (WF_pure w this Hwf). apply NoDup_filter. by apply WF_NoDup. }
    destruct (moved_to_end (pureChildren (node_of w this)) node Hndp Hinp)
      as [Mp Lp].
    rewrite Mp in Rp, T. simpl in Rp, T. rewrite <- Rp in T.
    assert (Hcmd : trace w' = trace w ++
      (if negb (bool_decide
                  (indexOf (pureChildren (node_of w' this)) (Some node)
                   = indexOf (pureChildren (node_of w this)) (Some node)))
       then from_option
              (λ l, [Send l (MoveElement (ref node) (ref this)
                       (indexOf (pureChildren (node_of w' this)) (Some node)))])
              [] (getListener (docId (node_of w this)) w)
       else [])).
    { rewrite T. f_equal.
      destruct (bool_decide
                  (indexOf (pureChildren (node_of w' this)) (Some node)
                   = indexOf (pureChildren (node_of w this)) (Some node)));
        simpl; [done|].
      destruct (Z.leb_spec 0
                  (indexOf (pureChildren (node_of w' this)) (Some node)));
        [done|].
      assert (Hmem : node ∈ pureChildren (node_of w' this)).
      { rewrite Rp. apply elem_of_app. right. left. }
      pose proof (indexOf_nonneg _ _ Hmem). lia. }
    split; [done|]. split; [done|]. split; [done|].
    intros Hl. split; [by rewrite Rc, Lc|].
    assert (Hlp : last (pureChildren (node_of w this)) = Some node).
    { apply last_Some in Hl as [l' Hl].
      rewrite (WF_pure w this Hwf), Hl, filter_app, filter_cons_True by done.
      by rewrite filter_nil, last_snoc. }
    assert (Hsame : pureChildren (node_of w' this)
                    = pureChildren (node_of w this)).
    { by rewrite Rp, Lp. }
    split; [done|]. rewrite Hcmd, Hsame.
    rewrite bool_decide_eq_true_2 by done. simpl. by rewrite app_nil_r.
  - split; [done|]. split; [done|]. split; [by rewrite T|].
    intros Hl. split; [by rewrite Rc, Lc|]. split; [done|].
    by rewrite T, app_nil_r.
Qed.

Lemma appendChild_existing_child_witness :
  ∃ r w', appendChild 1 4 world_ATB = Returned r w' ∧
    children (node_of w' 1) = children (node_of world_ATB 1)
    ∧ pureChildren (node_of w' 1) = pureChildren (node_of world_ATB 1)
    ∧ trace w' = trace world_ATB.
Proof.
  destruct (appendChild_existing_child 1 4 world_ATB (node_of world_ATB 4))
    as (r & w' & E & _ & _ & _ & H).
  - apply WF_stored_WF.
    apply (@bool_decide_unpack _ (WF_stored_dec world_ATB)).
    vm_compute. exact I.
  - vm_compute. reflexivity.
  - vm_compute. reflexivity.
  - refine (bool_decide_unpack _ _). vm_compute. exact I.
  - exists r, w'. split; [exact E|]. apply H. vm_compute. reflexivity.
Defined.

(** C3, as amended.  With [P.children = [A, T, B]], [A] and [B] elements and
    [T] not, [P.appendChild(A)] moves [A] to the end of [children] and to the
    end of [pureChildren]; [A] was the first element and is now the last, so
    [moveElement] for [A] under [P], with the new index of [A], is sent when a
    listener exists. *)
Theorem appendChild_first_of_ATB P A T B w nd :
  WF w → nodes w !! A = Some nd → parentNode nd = Some P →
  children (node_of w P) = [A; T; B] →
  isElement w A = true → isElement w T = false → isElement w B = true →
  pureChildren (node_of w P) = [A; B] ∧
  ∃ r w', appendChild P A w = Returned r w' ∧
    children (node_of w' P) = [T; B; A] ∧
    pureChildren (node_of w' P) = [B; A] ∧
    trace w' = trace w ++
      from_option (λ l, [Send l (MoveElement (ref A) (ref P) 1)]) []
        (getListener (docId (node_of w P)) w).
Proof.
  intros Hwf Hn Hp Hc HA HT HB.
  assert (Hpure : pureChildren (node_of w P) = [A; B]).
  { rewrite (WF_pure w P Hwf), Hc.
    rewrite filter_cons_True, filter_cons_False, filter_cons_True; try done.
    by rewrite HT. }
  split; [done|].
  destruct (appendChild_child P A w nd Hn Hp)
    as (r & w' & E & (_ & R & _) & T').
  exists r, w'. split; [done|].
  pose proof (R (Children P)) as Rc. pose proof (R (PureChildren P)) as Rp.
  rewrite decide_True in Rc by done.
  rewrite decide_False, decide_True in Rp by done.
  unfold read in Rc, Rp.
  rewrite HA, Hpure in Rp, T'. rewrite Hc in Rc.
  pose proof (moved_end A [] [T; B] (not_elem_of_nil _)) as Mc.
  pose proof (moved_end A [] [B] (not_elem_of_nil _)) as Mp.
  cbn [app] in Mc, Mp. rewrite Mc in Rc. rewrite Mp in Rp, T'.
  done.
Qed.

Lemma appendChild_first_of_ATB_witness :
  ∃ r w', appendChild 1 2 world_ATB = Returned r w' ∧
    children (node_of w' 1) = [3; 4; 2] ∧
    pureChildren (node_of w' 1) = [4; 2] ∧
    trace w' = trace world_ATB ++
      from_option (λ l, [Send l (MoveElement (ref 2) (ref 1) 1)]) []
        (getListener (docId (node_of world_ATB 1)) world_ATB).
Proof.
  apply (appendChild_first_of_ATB 1 2 3 4 world_ATB (node_of world_ATB 2)).
  - apply WF_stored_WF.
    apply (@bool_decide_unpack _ (WF_stored_dec world_ATB)).
    vm_compute. exact I.
  - vm_compute. reflexivity.
  - vm_compute. reflexivity.
  - vm_compute. reflexivity.
  - vm_compute. reflexivity.
  - vm_compute. reflexivity.
  - vm_compute. reflexivity.
Defined.

(** C3 as worded does not hold: in the scenario a command is sent, and [A]
    does move in [pureChildren]. *)
Lemma appendChild_ATB_sends_move :
  children (node_of world_ATB 1) = [2; 3; 4]
  ∧ pureChildren (node_of world_ATB 1) = [2; 4]
  ∧ getListener (docId (node_of world_ATB 1)) world_ATB = Some "doc"%string
  ∧ ∃ w', appendChild 1 2 world_ATB = Returned (signal (MoveElement 2 1 1)) w'
      ∧ children (node_of w' 1) = [3; 4; 2]
      ∧ pureChildren (node_of w' 1) = [4; 2]
      ∧ trace w' = trace world_ATB ++ [Send "doc"%string (MoveElement 2 1 1)]
      ∧ trace w' ≠ trace world_ATB.
Proof.
  split; [vm_compute; reflexivity|]. split; [vm_compute; reflexivity|].
  split; [vm_compute; reflexivity|].
  eexists. split; [vm_compute; reflexivity|].
  split; [vm_compute; reflexivity|]. split; [vm_compute; reflexivity|].
  split; [vm_compute; reflexivity|]. vm_compute. discriminate.
Qed.

(** ** Insertion relative to a sibling *)

Lemma already_there_true node sibling x :
  x = Some node ∨ (is_Some sibling ∧ sibling = x) →
  already_there node sibling x = true.
Proof.
  unfold already_there, is_set. intros [->|[Hs ->]].
  - by rewrite bool_decide_eq_true_2.
  - rewrite (bool_decide_eq_true_2 (is_Some x)) by done.
    rewrite (bool_decide_eq_true_2 (x = x)) by done.
    by destruct (bool_decide _).
Qed.

Lemma already_there_false node sibling y :
  node ≠ y → ¬ (is_Some sibling ∧ sibling = Some y) →
  already_there node sibling (Some y) = false.
Proof.
  intros Hne Hs. unfold already_there, is_set.
  rewrite bool_decide_eq_false_2 by congruence. simpl.
  destruct (bool_decide (is_Some sibling)) eqn:E1; [|done]. simpl.
  apply bool_decide_eq_true in E1.
  apply bool_decide_eq_false_2. intros E2. by apply Hs.
Qed.

(** C6. [insertBefore(node, before)] does nothing when [node] is [before] or
    [before] is the next sibling of [node], and [insertAfter(node, after)]
    nothing when [node] is [after] or [after] is its previous sibling.
    Otherwise, for a detached element [node] and a child [y] of [this]:
    [insertBefore] puts [node] in [pureChildren] right before the nearest
    element at or after [y], at the end if there is none; [insertAfter] puts
    it right after the nearest element at or before [y], at the start if there
    is none; and [addElement] with the index of [node] in [pureChildren] is
    sent when a listener exists. *)
Theorem insert_relative_contract this node x w nd :
  nodes w !! node = Some nd →
  (x = Some node ∨ (is_Some (nextSibling nd) ∧ nextSibling nd = x) →
   insertBefore this node x w = Returned undefined w)
  ∧ (x = Some node ∨ (is_Some (previousSibling nd) ∧ previousSibling nd = x) →
     insertAfter this node x w = Returned undefined w)
  ∧ (∀ y, WF w → x = Some y → y ∈ children (node_of w this) →
     parentNode nd = None → isElement w node = true → node ≠ y →
     ¬ (is_Some (nextSibling nd) ∧ nextSibling nd = Some y) →
     ∃ r w', insertBefore this node x w = Returned r w' ∧
       match nextElement w (Some y) with
       | Some e => ∃ p1 p2,
           pureChildren (node_of w this) = p1 ++ e :: p2 ∧
           pureChildren (node_of w' this) = p1 ++ node :: e :: p2 ∧
           trace w' = trace w ++
             from_option
               (λ l, [Send l (AddElement node (ref this)
                                (Z.of_nat (length p1)))]) []
               (getListener (docId (node_of w this)) w)
       | None =>
           pureChildren (node_of w' this)
             = pureChildren (node_of w this) ++ [node] ∧
           trace w' = trace w ++
             from_option
               (λ l, [Send l (AddElement node (ref this)
                        (Z.of_nat (length (pureChildren (node_of w this)))))])
               [] (getListener (docId (node_of w this)) w)
       end)
  ∧ (∀ y, WF w → x = Some y → y ∈ children (node_of w this) →
     parentNode nd = None → isElement w node = true → node ≠ y →
     ¬ (is_Some (previousSibling nd) ∧ previousSibling nd = Some y) →
     ∃ r w', insertAfter this node x w = Returned r w' ∧
       match previousElement w (Some y) with
       | Some e => ∃ p1 p2,
           pureChildren (node_of w this) = p1 ++ e :: p2 ∧
           pureChildren (node_of w' this) = p1 ++ e :: node :: p2 ∧
           trace w' = trace w ++
             from_option
               (λ l, [Send l (AddElement node (ref this)
                                (Z.of_nat (S (length p1))))]) []
               (getListener (docId (node_of w this)) w)
       | None =>
           pureChildren (node_of w' this)
             = node :: pureChildren (node_of w this) ∧
           trace w' = trace w ++
             from_option
               (λ l, [Send l (AddElement node (ref this) 0)]) []
               (getListener (docId (node_of w this)) w)
       end).
Proof.
  intros Hn. split; [|split; [|split]].
  - intros H. apply already_there_true in H.
    by apply (insert_guarded this node x w nd (nextSibling nd)).
  - intros H. apply already_there_true in H.
    by apply (insert_guarded this node x w nd (previousSibling nd)).
  - intros y Hwf -> Hy Hp He Hne Hs.
    pose proof (already_there_false _ _ _ Hne Hs) as Hg.
    pose proof (WF_parent w this y Hwf Hy) as Hpy.
    apply list_elem_of_split_l in Hy as (l1 & l2 & Hc & Hyl).
    destruct (insertBefore_detached this node y w nd l1 l2 Hwf Hn Hp Hg Hc)
      as (r & w' & E & (_ & R & _) & T).
    exists r, w'. split; [done|].
    pose proof (R (PureChildren this)) as Rp.
    rewrite decide_False, decide_True in Rp by done. unfold read in Rp.
    rewrite He in Rp, T.
    rewrite (nextElement_in w this y l1 l2 Hpy Hc Hyl).
    assert (Hpure : pureChildren (node_of w this)
                    = elems w l1 ++ elems w (y :: l2)).
    { by rewrite (WF_pure w this Hwf), Hc, filter_app. }
    destruct (elems w (y :: l2)) as [|e p2] eqn:Ee; simpl.
    + rewrite app_nil_r in Hpure. by rewrite Hpure.
    + exists (elems w l1), p2. done.
  - intros y Hwf -> Hy Hp He Hne Hs.
    pose proof (already_there_false _ _ _ Hne Hs) as Hg.
    pose proof (WF_parent w this y Hwf Hy) as Hpy.
    apply list_elem_of_split_l in Hy as (l1 & l2 & Hc & Hyl).
    destruct (insertAfter_detached this node y w nd l1 l2 Hwf Hn Hp Hg Hc)
      as (r & w' & E & (_ & R & _) & T).
    exists r, w'. split; [done|].
    pose proof (R (PureChildren this)) as Rp.
    rewrite decide_False, decide_True in Rp by done. unfold read in Rp.
    rewrite He in Rp, T.
    rewrite (previousElement_in w this y l1 l2 Hpy Hc Hyl).
    assert (Hpure : pureChildren (node_of w this)
                    = elems w (l1 ++ [y]) ++ elems w l2).
    { rewrite (WF_pure w this Hwf), Hc, <- filter_app.
      by rewrite <- app_assoc. }
    destruct (elems w (l1 ++ [y])) as [|e p1 _] eqn:Ee using rev_ind.
    + simpl in *. by rewrite Hpure.
    + rewrite last_snoc. exists p1, (elems w l2).
      rewrite <- !app_assoc in Hpure, Rp. simpl in Hpure, Rp.
      rewrite length_app in T. simpl in T.
      replace (length p1 + 1) with (S (length p1)) in T by lia. done.
Qed.

Lemma insert_relative_contract_witness :
  (∃ r w', insertBefore 1 6 (Some 3) world_ATB = Returned r w' ∧
     match nextElement world_ATB (Some 3) with
     | Some e => ∃ p1 p2,
         pureChildren (node_of world_ATB 1) = p1 ++ e :: p2 ∧
         pureChildren (node_of w' 1) = p1 ++ 6 :: e :: p2 ∧
         trace w' = trace world_ATB ++
           from_option
             (λ l, [Send l (AddElement 6 (ref 1) (Z.of_nat (length p1)))]) []
             (getListener (docId (node_of world_ATB 1)) world_ATB)
     | None =>
         pureChildren (node_of w' 1)
           = pureChildren (node_of world_ATB 1) ++ [6] ∧
         trace w' = trace world_ATB ++
           from_option
             (λ l, [Send l (AddElement 6 (ref 1)
                      (Z.of_nat (length (pureChildren (node_of world_ATB 1)))))])
             [] (getListener (docId (node_of world_ATB 1)) world_ATB)
     end)
  ∧ (∃ r w', insertAfter 1 6 (Some 3) world_ATB = Returned r w' ∧
     match previousElement world_ATB (Some 3) with
     | Some e => ∃ p1 p2,
         pureChildren (node_of world_ATB 1) = p1 ++ e :: p2 ∧
         pureChildren (node_of w' 1) = p1 ++ e :: 6 :: p2 ∧
         trace w' = trace world_ATB ++
           from_option
             (λ l, [Send l (AddElement 6 (ref 1) (Z.of_nat (S (length p1))))])
             [] (getListener (docId (node_of world_ATB 1)) world_ATB)
     | None =>
         pureChildren (node_of w' 1)
           = 6 :: pureChildren (node_of world_ATB 1) ∧
         trace w' = trace world_ATB ++
           from_option (λ l, [Send l (AddElement 6 (ref 1) 0)]) []
             (getListener (docId (node_of world_ATB 1)) world_ATB)
     end).
Proof.
  destruct (insert_relative_contract 1 6 (Some 3) world_ATB
              (node_of world_ATB 6)) as (_ & _ & Hb & Ha).
  { vm_compute. reflexivity. }
  assert (Hwf : WF world_ATB).
  { apply WF_stored_WF.
    apply (@bool_decide_unpack _ (WF_stored_dec world_ATB)).
    vm_compute. exact I. }
  assert (Hin : 3 ∈ children (node_of world_ATB 1)).
  { refine (bool_decide_unpack _ _). vm_compute. exact I. }
  split.
  - apply (Hb 3 Hwf eq_refl Hin).
    + vm_compute. reflexivity.
    + vm_compute. reflexivity.
    + lia.
    + intros [_ H]. vm_compute in H. discriminate.
  - apply (Ha 3 Hwf eq_refl Hin).
    + vm_compute. reflexivity.
    + vm_compute. reflexivity.
    + lia.
    + intros [_ H]. vm_compute in H. discriminate.
Defined.

(** * Further properties of the methods *)

(** ** [addEvent] and [removeEvent] *)

(** [addEvent(type, handler)] returns the world as it was exactly when
    [this.event[type]] reads truthy, and otherwise writes the own entry
    [type] and sends [addEvent(ref, type)] if a listener exists.  For a
    [type] that [Object.prototype] has no property for, what is read is the
    stored handler ([undefined] when there is none).  A falsy handler is
    stored and announced, and the next [addEvent] for the type writes the
    entry again and announces it again. *)
Theorem addEvent_registers this type handler w :
  (truthy (event_get w this type) = true →
   addEvent this type handler w = Returned undefined w)
  ∧ (truthy (event_get w this type) = false →
     ∃ w', addEvent this type handler w = Returned undefined w' ∧
       event (node_of w' this) = <[type := handler]> (event (node_of w this)) ∧
       trace w' = trace w ++
         from_option (λ l, [Send l (AddEvent (ref this) type)]) []
           (getListener (docId (node_of w this)) w))
  ∧ (¬ on_Object_prototype type →
     event_get w this type
       = default VUndefined (event (node_of w this) !! type))
  ∧ (∀ l, getListener (docId (node_of w this)) w = Some l →
     (addEvent this type handler w = Returned undefined w
      ↔ truthy (event_get w this type) = true))
  ∧ (truthy (event_get w this type) = false →
     truthy handler = false →
     ∀ handler', ∃ w' w'',
       addEvent this type handler w = Returned undefined w' ∧
       event (node_of w' this) !! type = Some handler ∧
       addEvent this type handler' w' = Returned undefined w'' ∧
       event (node_of w'' this) !! type = Some handler' ∧
       trace w'' = trace w ++
         from_option (λ l, [Send l (AddEvent (ref this) type);
                            Send l (AddEvent (ref this) type)]) []
           (getListener (docId (node_of w this)) w)).
Proof.
  split; [|split; [|split; [|split]]].
  - apply addEvent_skip.
  - intros H. destruct (addEvent_spec this type handler w H)
      as (w' & ? & ? & ? & ? & ? & ?). eauto.
  - apply event_get_stored.
  - intros l Hl. split; [|apply addEvent_skip].
    intros E. destruct (truthy (event_get w this type)) eqn:Ht; [done|].
    destruct (addEvent_spec this type handler w Ht) as (w' & E' & _ & _ & _ & _ & T).
    rewrite E' in E. injection E as ->. rewrite Hl in T. simpl in T.
    apply (f_equal length) in T. rewrite length_app in T. simpl in T. lia.
  - intros Hf Hh handler'.
    destruct (addEvent_spec this type handler w Hf) as (w' & E & Ev & D & G & O & T).
    assert (Hf' : truthy (event_get w' this type) = false).
    { unfold event_get. rewrite Ev, (get_own _ _ _ _ handler); [done|].
      apply lookup_insert_eq. }
    destruct (addEvent_spec this type handler' w' Hf')
      as (w'' & E' & Ev' & D' & G' & O' & T').
    exists w', w''. repeat split; try done.
    + rewrite Ev. apply lookup_insert_eq.
    + rewrite Ev'. apply lookup_insert_eq.
    + rewrite T', T, D, (getListener_docs _ w w' G).
      destruct (getListener _ _); simpl; by rewrite <- app_assoc.
Qed.

Lemma addEvent_registers_witness :
  ∃ w' w'',
    addEvent 1 "click" VUndefined world0 = Returned undefined w' ∧
    event (node_of w' 1) !! "click"%string = Some VUndefined ∧
    addEvent 1 "click" (VRef 7) w' = Returned undefined w'' ∧
    event (node_of w'' 1) !! "click"%string = Some (VRef 7) ∧
    trace w'' = trace world0 ++
      from_option (λ l, [Send l (AddEvent (ref 1) "click");
                         Send l (AddEvent (ref 1) "click")]) []
        (getListener (docId (node_of world0 1)) world0).
Proof.
  destruct (addEvent_registers 1 "click" VUndefined world0)
    as (_ & _ & _ & _ & H).
  apply H; vm_compute; reflexivity.
Defined.

(** [removeEvent(type)] returns the world as it is when [this.event[type]]
    reads falsy; otherwise it deletes the own entry and sends
    [removeEvent(ref, type)] if a listener exists.  For a [type] that
    [Object.prototype] has no property for, what is read is the stored
    handler; for one it has a property for, with nothing stored, the
    inherited value is read, nothing is there to delete and the command is
    sent all the same.  Registering a truthy handler and removing it again
    leaves no entry for [type] and sends the two commands; a falsy handler
    that [addEvent] stored is not removed by [removeEvent], the entry
    stays. *)
Theorem removeEvent_contract this type handler w :
  (truthy (event_get w this type) = false →
   removeEvent this type w = Returned undefined w)
  ∧ (truthy (event_get w this type) = true →
     ∃ w', removeEvent this type w = Returned undefined w' ∧
       event (node_of w' this) = delete type (event (node_of w this)) ∧
       trace w' = trace w ++
         from_option (λ l, [Send l (RemoveEvent (ref this) type)]) []
           (getListener (docId (node_of w this)) w))
  ∧ (¬ on_Object_prototype type →
     event_get w this type
       = default VUndefined (event (node_of w this) !! type))
  ∧ (on_Object_prototype type →
     event (node_of w this) !! type = None →
     ∃ w', removeEvent this type w = Returned undefined w' ∧
       event (node_of w' this) = event (node_of w this) ∧
       trace w' = trace w ++
         from_option (λ l, [Send l (RemoveEvent (ref this) type)]) []
           (getListener (docId (node_of w this)) w))
  ∧ (truthy (event_get w this type) = false →
     truthy handler = true →
     ∃ w1 w2, addEvent this type handler w = Returned undefined w1 ∧
       removeEvent this type w1 = Returned undefined w2 ∧
       event (node_of w2 this) = delete type (event (node_of w this)) ∧
       event (node_of w2 this) !! type = None ∧
       trace w2 = trace w ++
         from_option (λ l, [Send l (AddEvent (ref this) type);
                            Send l (RemoveEvent (ref this) type)]) []
           (getListener (docId (node_of w this)) w))
  ∧ (truthy (event_get w this type) = false →
     truthy handler = false →
     ∃ w1, addEvent this type handler w = Returned undefined w1 ∧
       removeEvent this type w1 = Returned undefined w1 ∧
       event (node_of w1 this) !! type = Some handler).
Proof.
  split; [|split; [|split; [|split; [|split]]]].
  - apply removeEvent_skip.
  - intros H. destruct (removeEvent_spec this type w H)
      as (w' & ? & ? & ? & ? & ? & ?). eauto.
  - apply event_get_stored.
  - intros H Hn.
    destruct (removeEvent_spec this type w (event_get_inherited _ _ _ H Hn))
      as (w' & E & V & _ & _ & _ & T).
    exists w'. split; [done|]. split; [|done].
    rewrite V. by apply delete_id.
  - intros Hf Hh.
    destruct (addEvent_spec this type handler w Hf)
      as (w1 & E1 & V1 & D1 & G1 & O1 & T1).
    assert (Ht : truthy (event_get w1 this type) = true).
    { unfold event_get. rewrite V1, (get_own _ _ _ _ handler); [done|].
      apply lookup_insert_eq. }
    destruct (removeEvent_spec this type w1 Ht)
      as (w2 & E2 & V2 & D2 & G2 & O2 & T2).
    exists w1, w2. split; [done|]. split; [done|].
    assert (Hdel : event (node_of w2 this) = delete type (event (node_of w this))).
    { by rewrite V2, V1, delete_insert_eq. }
    split; [done|]. split; [by rewrite Hdel, lookup_delete_eq|].
    rewrite T2, T1, D1, (getListener_docs _ w w1 G1).
    destruct (getListener _ _); simpl; by rewrite <- app_assoc.
  - intros Hf Hh.
    destruct (addEvent_spec this type handler w Hf)
      as (w1 & E1 & V1 & D1 & G1 & O1 & T1).
    exists w1. split; [done|]. split.
    + apply removeEvent_skip. unfold event_get.
      rewrite V1, (get_own _ _ _ _ handler); [done|]. apply lookup_insert_eq.
    + rewrite V1. apply lookup_insert_eq.
Qed.

Lemma removeEvent_contract_witness :
  (∃ w1 w2, addEvent 1 "click" (VRef 7) world0 = Returned undefined w1 ∧
     removeEvent 1 "click" w1 = Returned undefined w2 ∧
     event (node_of w2 1) = delete "click"%string (event (node_of world0 1)) ∧
     event (node_of w2 1) !! "click"%string = None ∧
     trace w2 = trace world0 ++
       from_option (λ l, [Send l (AddEvent (ref 1) "click");
                          Send l (RemoveEvent (ref 1) "click")]) []
         (getListener (docId (node_of world0 1)) world0))
  ∧ (∃ w', removeEvent 1 "toString" world0 = Returned undefined w' ∧
       event (node_of w' 1) = event (node_of world0 1) ∧
       trace w' = trace world0 ++
         from_option (λ l, [Send l (RemoveEvent (ref 1) "toString")]) []
           (getListener (docId (node_of world0 1)) world0)).
Proof.
  split.
  - destruct (removeEvent_contract 1 "click" (VRef 7) world0)
      as (_ & _ & _ & _ & H & _).
    apply H; vm_compute; reflexivity.
  - destruct (removeEvent_contract 1 "toString" (VRef 7) world0)
      as (_ & _ & _ & H & _).
    apply H.
    + apply (@bool_decide_unpack _ (on_Object_prototype_dec "toString")).
      vm_compute. exact I.
    + vm_compute. reflexivity.
Defined.

(** ** [toStyle] after [setStyle] *)

Lemma setStyle_stores this key v silent w :
  ∃ w', setStyle this key v silent w = Returned undefined w' ∧
    classStyle (node_of w' this) = classStyle (node_of w this) ∧
    (∀ k, k ≠ key →
       style (node_of w' this) !! k = style (node_of w this) !! k) ∧
    (strict_eq (style_get w this key) v
       && negb (strict_eq silent (VBool false)) = false →
     reaches_setter (style_prototype (node_of w this))
       (style (node_of w this)) key = false →
     style (node_of w' this) !! key = Some v) ∧
    (strict_eq (style_get w this key) v
       && negb (strict_eq silent (VBool false)) = true →
     w' = w).
Proof.
  destruct (strict_eq (style_get w this key) v
            && negb (strict_eq silent (VBool false))) eqn:E.
  - exists w. rewrite (setStyle_skip this key v silent w E). done.
  - unfold setStyle. rewrite E. eexists. split; [reflexivity|].
    assert (H : ∀ w0, node_of
              (if negb (truthy silent)
               then send_to (getListener (docId (node_of w0 this)) w0)
                      (SetStyle (ref this) key v) w0
               else w0) this = node_of w0 this).
    { intros w0. destruct (negb (truthy silent)); by rewrite ?node_of_send_to. }
    rewrite H, node_of_upd_eq. unfold style_put, put. simpl.
    split; [done|]. split; [|split; [|done]].
    + intros k Hk. destruct (reaches_setter _ _ _); simpl; [done|].
      by rewrite lookup_insert_ne.
    + intros _ ->. simpl. apply lookup_insert_eq.
Qed.

(** In [toStyle()] an own style entry wins over the class style entry of the
    same key, and a key the own style lacks shows the class style entry.  A
    value that [setStyle] writes is what [toStyle()] shows for its key from
    then on, whatever the class style holds for it, and no other key of
    [toStyle()] changes.  The style map is a plain object, and the key
    [__proto__] is left aside: an assignment to it may end in the setter of
    the prototype and store nothing. *)
Theorem own_style_wins this key v silent w :
  plain (style_prototype (node_of w this)) →
  (∀ k, k ≠ "__proto__"%string →
     toStyle w this !! k =
       match style (node_of w this) !! k with
       | Some x => Some x
       | None => classStyle (node_of w this) !! k
       end)
  ∧ (key ≠ "__proto__"%string →
     strict_eq (style_get w this key) v
       && negb (strict_eq silent (VBool false)) = false →
     ∃ w1, setStyle this key v silent w = Returned undefined w1 ∧
       toStyle w1 this !! key = Some v ∧
       (∀ k, k ≠ key → toStyle w1 this !! k = toStyle w this !! k)).
Proof.
  intros _. split; [intros k _; apply lookup_toStyle|].
  intros Hk Hw.
  destruct (setStyle_stores this key v silent w) as (w1 & E1 & C1 & O1 & S1 & _).
  exists w1. split; [done|]. split.
  - rewrite lookup_toStyle, (S1 Hw); [done|]. by apply reaches_setter_key.
  - intros k Hne. by rewrite !lookup_toStyle, C1, (O1 k Hne).
Qed.

Lemma own_style_wins_witness :
  ∃ w1, setStyle 1 "color" (VStr "blue") VUndefined world0
          = Returned undefined w1 ∧
    toStyle w1 1 !! "color"%string = Some (VStr "blue") ∧
    (∀ k, k ≠ "color"%string → toStyle w1 1 !! k = toStyle world0 1 !! k).
Proof.
  destruct (own_style_wins 1 "color" (VStr "blue") VUndefined world0)
    as (_ & H); [left; vm_compute; reflexivity|].
  apply H; [discriminate | vm_compute; reflexivity].
Defined.

(** ** The key [__proto__] *)

Lemma strict_eq_object_primitive p v :
  is_object p = true → is_object v = false → strict_eq p v = false.
Proof.
  intros Hp Hv. destruct p; try done; destruct v; try done; simpl;
    by apply bool_decide_eq_false.
Qed.

(** On an attr map made by an object literal, with no property [__proto__]
    of its own, [setAttr('__proto__', v)] stores nothing: the assignment
    ends in the setter of [Object.prototype], which ignores a [v] that is
    neither an object nor [null].  The command is sent all the same, and
    sent again by the next call, which finds the attribute as it was.  For
    [null] the setter takes the prototype away, and from then on the map
    reads [undefined] wherever it has no property of its own. *)
Theorem proto_key_is_not_stored this v w :
  attr (node_of w this) !! "__proto__"%string = None →
  attr_prototype (node_of w this) = Object_prototype →
  (is_object v = false → v ≠ VNull →
   ∃ w1 w2,
     setAttr this "__proto__" v VUndefined w = Returned undefined w1 ∧
     attr (node_of w1 this) = attr (node_of w this) ∧
     attr_prototype (node_of w1 this) = Object_prototype ∧
     setAttr this "__proto__" v VUndefined w1 = Returned undefined w2 ∧
     attr (node_of w2 this) = attr (node_of w this) ∧
     trace w2 = trace w ++
       from_option (λ l, [Send l (SetAttr (ref this) "__proto__" v);
                          Send l (SetAttr (ref this) "__proto__" v)]) []
         (getListener (docId (node_of w this)) w))
  ∧ (∃ w1,
       setAttr this "__proto__" VNull VUndefined w = Returned undefined w1 ∧
       attr (node_of w1 this) = attr (node_of w this) ∧
       attr_prototype (node_of w1 this) = VNull ∧
       ∀ key, attr_get w1 this key
              = default VUndefined (attr (node_of w this) !! key)).
Proof.
  intros Hown Hproto.
  assert (Hget : ∀ w0, attr (node_of w0 this) = attr (node_of w this) →
            attr_prototype (node_of w0 this) = Object_prototype →
            attr_get w0 this "__proto__" = Object_prototype).
  { intros w0 A P. unfold attr_get, get. by rewrite A, P, Hown. }
  assert (Hset : ∀ w0, attr (node_of w0 this) = attr (node_of w this) →
            attr_prototype (node_of w0 this) = Object_prototype →
            reaches_setter (attr_prototype (node_of w0 this))
              (attr (node_of w0 this)) "__proto__" = true).
  { intros w0 A P. unfold reaches_setter.
    rewrite A, P, bool_decide_eq_true_2, bool_decide_eq_true_2; done. }
  assert (Hstep : ∀ w0, attr (node_of w0 this) = attr (node_of w this) →
            attr_prototype (node_of w0 this) = Object_prototype →
            is_object v = false → v ≠ VNull →
            ∃ w1, setAttr this "__proto__" v VUndefined w0 = Returned undefined w1 ∧
              attr (node_of w1 this) = attr (node_of w this) ∧
              attr_prototype (node_of w1 this) = Object_prototype ∧
              docId (node_of w1 this) = docId (node_of w0 this) ∧
              docs w1 = docs w0 ∧
              trace w1 = trace w0 ++
                from_option (λ l, [Send l (SetAttr (ref this) "__proto__" v)]) []
                  (getListener (docId (node_of w0 this)) w0)).
  { intros w0 A P Hv Hn.
    destruct (setAttr_write this "__proto__" v VUndefined w0)
      as (w1 & E1 & P1 & D1 & G1 & O1 & T1).
    { rewrite (Hget w0 A P), strict_eq_object_primitive; done. }
    rewrite (put_setter _ _ _ _ (Hset w0 A P)), Hv in P1.
    rewrite (bool_decide_eq_false_2 _ Hn) in P1. simpl in P1.
    injection P1 as Pa Pb. exists w1. rewrite Pb, Pa. done. }
  split.
  - intros Hv Hn.
    destruct (Hstep w eq_refl Hproto Hv Hn) as (w1 & E1 & A1 & P1 & D1 & G1 & T1).
    destruct (Hstep w1 A1 P1 Hv Hn) as (w2 & E2 & A2 & P2 & D2 & G2 & T2).
    exists w1, w2. repeat split; try done.
    rewrite T2, T1, D1, (getListener_docs _ w w1 G1).
    destruct (getListener _ _); simpl; by rewrite <- app_assoc.
  - destruct (setAttr_write this "__proto__" VNull VUndefined w)
      as (w1 & E1 & P1 & D1 & G1 & O1 & T1).
    { by rewrite (Hget w eq_refl Hproto). }
    rewrite (put_setter _ _ _ _ (Hset w eq_refl Hproto)) in P1. simpl in P1.
    injection P1 as Pa Pb. exists w1. repeat split; try done.
    intros key. unfold attr_get, get. rewrite Pa, Pb.
    by destruct (attr (node_of w this) !! key).
Qed.

Lemma proto_key_is_not_stored_witness :
  ∃ w1 w2,
    setAttr 1 "__proto__" (VNum 1) VUndefined world0 = Returned undefined w1 ∧
    attr (node_of w1 1) = attr (node_of world0 1) ∧
    attr_prototype (node_of w1 1) = Object_prototype ∧
    setAttr 1 "__proto__" (VNum 1) VUndefined w1 = Returned undefined w2 ∧
    attr (node_of w2 1) = attr (node_of world0 1) ∧
    trace w2 = trace world0 ++
      from_option (λ l, [Send l (SetAttr (ref 1) "__proto__" (VNum 1));
                         Send l (SetAttr (ref 1) "__proto__" (VNum 1))]) []
        (getListener (docId (node_of world0 1)) world0).
Proof.
  destruct (proto_key_is_not_stored 1 (VNum 1) world0) as (H & _).
  - vm_compute. reflexivity.
  - vm_compute. reflexivity.
  - apply H; [reflexivity | discriminate].
Defined.

(** ** The shape of the tree along a run *)

Lemma run_WF w cs :
  WF w → respects cs w → ∃ r w', run cs w = Returned r w' ∧ WF w'.
Proof.
  revert w. induction cs as [|c cs IH]; intros w Hwf Hres; simpl.
  - by exists undefined, w.
  - simpl in Hres. destruct Hres as [Hpre Hres].
    destruct (exec_WF c w Hwf Hpre) as (r & w' & E & Hwf').
    rewrite E in Hres |- *. simpl in *. by apply IH.
Qed.

(** Along a run of calls whose [node] is an object and whose [before] /
    [after] is a child of [this], started in a well-formed store: every call
    returns; no node is twice in a [children] array; every entry of
    [this.children] has [this] as its [parentNode], so no node is in the
    arrays of two parents; and [pureChildren] holds only elements that are in
    [children]. *)
Theorem run_keeps_structure w cs :
  WF w → respects cs w →
  ∃ r w', run cs w = Returned r w' ∧
    (∀ p, NoDup (children (node_of w' p))) ∧
    (∀ p c, c ∈ children (node_of w' p) → parentNode (node_of w' c) = Some p) ∧
    (∀ p q c, c ∈ children (node_of w' p) → c ∈ children (node_of w' q) →
       p = q) ∧
    (∀ p c, c ∈ pureChildren (node_of w' p) →
       c ∈ children (node_of w' p) ∧ nodeType (node_of w' c) = 1%Z) ∧
    (∀ p, NoDup (pureChildren (node_of w' p))).
Proof.
  intros Hwf Hres. destruct (run_WF w cs Hwf Hres) as (r & w' & E & Hwf').
  exists r, w'. split; [done|]. split; [|split; [|split; [|split]]].
  - intros p. by apply WF_NoDup.
  - intros p c. by apply WF_parent.
  - intros p q c Hp Hq.
    pose proof (WF_parent w' p c Hwf' Hp). pose proof (WF_parent w' q c Hwf' Hq).
    congruence.
  - intros p c Hc. rewrite (WF_pure w' p Hwf') in Hc.
    apply list_elem_of_filter in Hc as [He Hc]. split; [done|].
    unfold isElement in He. by apply Z.eqb_eq in He.
  - intros p. rewrite (WF_pure w' p Hwf'). apply NoDup_filter.
    by apply WF_NoDup.
Qed.

Lemma run_keeps_structure_witness :
  ∃ r w', run sample_calls world0 = Returned r w' ∧
    (∀ p, NoDup (children (node_of w' p))) ∧
    (∀ p c, c ∈ children (node_of w' p) → parentNode (node_of w' c) = Some p) ∧
    (∀ p q c, c ∈ children (node_of w' p) → c ∈ children (node_of w' q) →
       p = q) ∧
    (∀ p c, c ∈ pureChildren (node_of w' p) →
       c ∈ children (node_of w' p) ∧ nodeType (node_of w' c) = 1%Z) ∧
    (∀ p, NoDup (pureChildren (node_of w' p))).
Proof.
  apply (run_keeps_structure world0 sample_calls).
  - apply WF_stored_WF.
    apply (@bool_decide_unpack _ (WF_stored_dec world0)). vm_compute. exact I.
  - apply (@bool_decide_unpack _ (respects_dec sample_calls world0)).
    vm_compute. exact I.
Defined.

(** ** Appending a detached node *)

(** [appendChild(node)] for a [node] whose [parentNode] is unset (be it
    [this] itself): [node] becomes the last entry of [this.children] and gets
    [this] as parent; if it is an element it becomes the last entry of
    [this.pureChildren] and [addElement(node, this.ref, -1)] is sent when a
    listener exists; otherwise [pureChildren] and the trace are as before.  No
    other node's arrays or parent change. *)
Theorem appendChild_detached_contract this node w nd :
  nodes w !! node = Some nd → parentNode nd = None →
  ∃ r w', appendChild this node w = Returned r w' ∧
    children (node_of w' this) = children (node_of w this) ++ [node] ∧
    pureChildren (node_of w' this)
      = (if isElement w node then pureChildren (node_of w this) ++ [node]
         else pureChildren (node_of w this)) ∧
    parentNode (node_of w' node) = Some this ∧
    (∀ m, m ≠ node → parentNode (node_of w' m) = parentNode (node_of w m)) ∧
    (∀ p, p ≠ this →
       children (node_of w' p) = children (node_of w p)
       ∧ pureChildren (node_of w' p) = pureChildren (node_of w p)) ∧
    trace w' = trace w ++
      if isElement w node
      then from_option (λ l, [Send l (AddElement node (ref this) (-1))]) []
             (getListener (docId (node_of w this)) w)
      else [].
Proof.
  intros Hn Hp.
  destruct (appendChild_detached this node w nd Hn Hp)
    as (r & w' & E & (_ & R & P) & T).
  exists r, w'. split; [done|].
  pose proof (R (Children this)) as Rc. pose proof (R (PureChildren this)) as Rp.
  rewrite decide_True in Rc by done.
  rewrite decide_False, decide_True in Rp by done.
  split; [done|]. split; [done|]. split; [by rewrite P, decide_True|].
  split; [intros m Hm; by rewrite P, decide_False|]. split; [|done].
  intros p Hp'. split.
  - pose proof (R (Children p)) as Rc'.
    by rewrite !decide_False in Rc' by congruence.
  - pose proof (R (PureChildren p)) as Rp'.
    by rewrite !decide_False in Rp' by congruence.
Qed.

Lemma appendChild_detached_contract_witness :
  ∃ r w', appendChild 1 1 world0 = Returned r w' ∧
    children (node_of w' 1) = children (node_of world0 1) ++ [1] ∧
    parentNode (node_of w' 1) = Some 1.
Proof.
  destruct (appendChild_detached_contract 1 1 world0 (node_of world0 1))
    as (r & w' & E & C & _ & P & _).
  - vm_compute. reflexivity.
  - vm_compute. reflexivity.
  - exists r, w'. split; [exact E|]. split; [exact C|exact P].
Defined.

(** ** Nodes that are not elements, and documents without a listener *)

Lemma attach_other this node pos ppos sent w :
  isElement w node = false →
  ∃ w', attach this node pos ppos sent w = Returned undefined w' ∧
    trace w' = trace w ∧
    ∀ p, pureChildren (node_of w' p) = pureChildren (node_of w p).
Proof.
  intros He. unfold attach.
  set (w1 := linkParent node this w).
  set (w2 := (insertIndex node (Children this) (pos w1) true w1).2).
  set (w3 := register this node w2).
  assert (Ht : isElement w3 node = isElement w node).
  { apply isElement_ext. intros m. unfold w3, w2, w1. by frame. }
  rewrite Ht, He. exists w3. split; [done|]. split.
  - unfold w3, w2, w1. by frame.
  - intros p. change (read (PureChildren p) w3 = read (PureChildren p) w).
    unfold w3, w2, w1. frame. by rewrite decide_False.
Qed.

Lemma reorder_other this node pos ppos w :
  isElement w node = false →
  ∃ w', reorder this node pos ppos w = Returned undefined w' ∧
    trace w' = trace w ∧
    ∀ p, pureChildren (node_of w' p) = pureChildren (node_of w p).
Proof.
  intros He. unfold reorder.
  set (w2 := (moveIndex node (Children this) (pos w) true w).2).
  assert (Ht : isElement w2 node = isElement w node).
  { apply isElement_ext. intros m. unfold w2. by frame. }
  rewrite Ht, He. exists w2. split; [done|]. split.
  - unfold w2. by frame.
  - intros p. change (read (PureChildren p) w2 = read (PureChildren p) w).
    unfold w2. frame. by rewrite decide_False.
Qed.

(** Whatever the branch, [appendChild], [insertBefore] and [insertAfter] of a
    node that is not an element return [undefined], send nothing and leave
    every [pureChildren] array as it is; [removeChild] of such a node sends
    nothing either, the trace gaining only its destruction when [preserved] is
    falsy. *)
Theorem non_element_is_silent this node x preserved w nd :
  nodes w !! node = Some nd → isElement w node = false →
  (∃ w', appendChild this node w = Returned undefined w' ∧
     trace w' = trace w ∧
     ∀ p, pureChildren (node_of w' p) = pureChildren (node_of w p))
  ∧ (∃ w', insertBefore this node x w = Returned undefined w' ∧
     trace w' = trace w ∧
     ∀ p, pureChildren (node_of w' p) = pureChildren (node_of w p))
  ∧ (∃ w', insertAfter this node x w = Returned undefined w' ∧
     trace w' = trace w ∧
     ∀ p, pureChildren (node_of w' p) = pureChildren (node_of w p))
  ∧ (∃ w', removeChild this node preserved w = Returned undefined w' ∧
     trace w' = trace w ++ (if truthy preserved then [] else [Destroy node]) ∧
     ∀ p, pureChildren (node_of w' p) = pureChildren (node_of w p)).
Proof.
  intros Hn He. split; [|split; [|split]].
  - rewrite appendChild_unfold, Hn.
    destruct (parentNode nd) as [q|]; [|by apply attach_other].
    case_decide; [by apply attach_other || by apply reorder_other|].
    by exists w.
  - rewrite insertBefore_unfold, Hn.
    destruct (parentNode nd) as [q|].
    + case_decide; [|by exists w].
      destruct (already_there _ _ _); [by exists w|]. by apply reorder_other.
    + destruct (already_there _ _ _); [by exists w|]. by apply attach_other.
  - rewrite insertAfter_unfold, Hn.
    destruct (parentNode nd) as [q|].
    + case_decide; [|by exists w].
      destruct (already_there _ _ _); [by exists w|]. by apply reorder_other.
    + destruct (already_there _ _ _); [by exists w|]. by apply attach_other.
  - destruct (removeChild_spec this node preserved w nd Hn)
      as (w' & E & (_ & R & _) & T).
    exists w'. split; [done|]. rewrite He, andb_false_r in T, R.
    split; [by rewrite T|].
    intros p. pose proof (R (PureChildren p)) as Rp.
    rewrite decide_False in Rp by done. unfold read in Rp.
    rewrite Rp. by case_decide; simplify_eq.
Qed.

Lemma non_element_is_silent_witness :
  ∃ w', insertBefore 1 3 (Some 2) world_ATB = Returned undefined w' ∧
    trace w' = trace world_ATB ∧
    ∀ p, pureChildren (node_of w' p) = pureChildren (node_of world_ATB p).
Proof.
  destruct (non_element_is_silent 1 3 (Some 2) VUndefined world_ATB
              (node_of world_ATB 3)) as (_ & H & _).
  - vm_compute. reflexivity.
  - vm_compute. reflexivity.
  - exact H.
Defined.

Lemma attach_quiet this node pos ppos sent w :
  getListener (docId (node_of w this)) w = None →
  ∃ r w', attach this node pos ppos sent w = Returned r w' ∧ trace w' = trace w.
Proof.
  intros Hl. destruct (attach_spec this node pos ppos sent w)
    as (w3 & r & w' & E & _ & _ & T).
  exists r, w'. split; [done|]. rewrite T, Hl.
  destruct (isElement w node); simpl; by rewrite app_nil_r.
Qed.

Lemma reorder_quiet this node pos ppos w :
  getListener (docId (node_of w this)) w = None →
  ∃ r w', reorder this node pos ppos w = Returned r w' ∧ trace w' = trace w.
Proof.
  intros Hl. destruct (reorder_spec this node pos ppos w)
    as (w2 & r & w' & _ & E & _ & _ & T).
  exists r, w'. split; [done|]. rewrite T, Hl.
  destruct (isElement w node); [|by rewrite app_nil_r].
  destruct (0 <=? _)%Z; simpl; by rewrite app_nil_r.
Qed.

(** When the document of [this] has no listener, no method sends a command:
    the three insertion methods leave the trace as it is, and [removeChild]
    and [clear] add to it only the destruction of nodes. *)
Theorem no_listener_no_command c w r w' :
  getListener (docId (node_of w (target c))) w = None →
  exec c w = Returned r w' →
  ∃ ds, trace w' = trace w ++ map Destroy ds.
Proof.
  intros Hl E. destruct c as [this node|this node x|this node x|this node p|this];
    simpl in *.
  - exists []. simpl. rewrite app_nil_r.
    rewrite appendChild_unfold in E.
    destruct (nodes w !! node) as [nd|]; [|done].
    destruct (parentNode nd) as [q|].
    + case_decide; [|by simplify_eq].
      destruct (reorder_quiet this node (len (Children this))
                  (len (PureChildren this)) w Hl) as (r' & w'' & E' & T).
      rewrite E' in E. by simplify_eq.
    + destruct (attach_quiet this node (len (Children this))
                  (len (PureChildren this)) (λ _, (-1)%Z) w Hl)
        as (r' & w'' & E' & T).
      rewrite E' in E. by simplify_eq.
  - exists []. simpl. rewrite app_nil_r.
    rewrite insertBefore_unfold in E.
    destruct (nodes w !! node) as [nd|]; [|done].
    destruct (parentNode nd) as [q|].
    + case_decide; [|by simplify_eq].
      destruct (already_there _ _ _); [by simplify_eq|].
      destruct (reorder_quiet this node
                  (λ w, indexOf (read (Children this) w) x)
                  (pure_before this x) w Hl) as (r' & w'' & E' & T).
      rewrite E' in E. by simplify_eq.
    + destruct (already_there _ _ _); [by simplify_eq|].
      destruct (attach_quiet this node
                  (λ w, indexOf (read (Children this) w) x)
                  (pure_before this x) (λ i, i) w Hl) as (r' & w'' & E' & T).
      rewrite E' in E. by simplify_eq.
  - exists []. simpl. rewrite app_nil_r.
    rewrite insertAfter_unfold in E.
    destruct (nodes w !! node) as [nd|]; [|done].
    destruct (parentNode nd) as [q|].
    + case_decide; [|by simplify_eq].
      destruct (already_there _ _ _); [by simplify_eq|].
      destruct (reorder_quiet this node
                  (λ w, (indexOf (read (Children this) w) x + 1)%Z)
                  (pure_after this x) w Hl) as (r' & w'' & E' & T).
      rewrite E' in E. by simplify_eq.
    + destruct (already_there _ _ _); [by simplify_eq|].
      destruct (attach_quiet this node
                  (λ w, (indexOf (read (Children this) w) x + 1)%Z)
                  (pure_after this x) (λ i, i) w Hl) as (r' & w'' & E' & T).
      rewrite E' in E. by simplify_eq.
  - destruct (nodes w !! node) as [nd|] eqn:Hn.
    + destruct (removeChild_spec this node p w nd Hn) as (w'' & E' & _ & T).
      rewrite E' in E. simplify_eq. rewrite T, Hl.
      exists (if truthy p then [] else [node]).
      destruct (is_set (parentNode nd) && isElement w node), (truthy p);
        simpl; by rewrite ?app_nil_r.
    + unfold removeChild in E. by rewrite Hn in E.
  - destruct (clear_spec this w) as (w'' & E' & _ & T).
    rewrite E' in E. simplify_eq. rewrite T, Hl. simpl. eauto.
Qed.

Lemma no_listener_no_command_witness :
  ∃ ds, trace (world_of (exec (AppendChild 6 5) world_ATB) world_ATB)
        = trace world_ATB ++ map Destroy ds.
Proof.
  apply (no_listener_no_command (AppendChild 6 5) world_ATB undefined).
  - vm_compute. reflexivity.
  - vm_compute. reflexivity.
Defined.

(** The same for the attribute, style and event methods: without a listener
    the trace is left as it is, while the maps are still updated: [addEvent]
    writes the entry of a type that reads falsy, [setAttr] and [setStyle]
    the entry they do not skip (in a plain map, under every key but
    [__proto__], whose assignment may end in the setter of the
    prototype). *)
Theorem no_listener_maps_only this key v silent arg w :
  getListener (docId (node_of w this)) w = None →
  trace (world_of (setAttr this key v silent w) w) = trace w
  ∧ trace (world_of (setStyle this key v silent w) w) = trace w
  ∧ trace (world_of (setClassStyle this arg w) w) = trace w
  ∧ trace (world_of (addEvent this key v w) w) = trace w
  ∧ trace (world_of (removeEvent this key w) w) = trace w
  ∧ (truthy (event_get w this key) = false →
     event (node_of (world_of (addEvent this key v w) w) this)
       = <[key := v]> (event (node_of w this)))
  ∧ (plain (attr_prototype (node_of w this)) →
     strict_eq (attr_get w this key) v
       && negb (strict_eq silent (VBool false)) = false →
     key ≠ "__proto__"%string →
     attr (node_of (world_of (setAttr this key v silent w) w) this)
       = <[key := v]> (attr (node_of w this)))
  ∧ (plain (style_prototype (node_of w this)) →
     strict_eq (style_get w this key) v
       && negb (strict_eq silent (VBool false)) = false →
     key ≠ "__proto__"%string →
     style (node_of (world_of (setStyle this key v silent w) w) this)
       = <[key := v]> (style (node_of w this))).
Proof.
  intros Hl. split; [|split; [|split; [|split; [|split; [|split; [|split]]]]]].
  - destruct (strict_eq (attr_get w this key) v
              && negb (strict_eq silent (VBool false))) eqn:E.
    + by rewrite (setAttr_skip _ _ _ _ _ E).
    + destruct (setAttr_write _ _ _ _ _ E) as (w' & -> & _ & _ & _ & _ & T).
      simpl. rewrite T, Hl. destruct (truthy silent); by rewrite app_nil_r.
  - destruct (strict_eq (style_get w this key) v
              && negb (strict_eq silent (VBool false))) eqn:E.
    + by rewrite (setStyle_skip _ _ _ _ _ E).
    + destruct (setStyle_write _ _ _ _ _ E) as (w' & -> & _ & _ & _ & _ & T).
      simpl. rewrite T, Hl. destruct (truthy silent); by rewrite app_nil_r.
  - destruct (setClassStyle_spec this arg w) as (w' & -> & _ & _ & _ & _ & T).
    simpl. rewrite T, Hl. by rewrite app_nil_r.
  - destruct (truthy (event_get w this key)) eqn:E.
    + by rewrite (addEvent_skip _ _ _ _ E).
    + destruct (addEvent_spec this key v w E) as (w' & -> & _ & _ & _ & _ & T).
      simpl. rewrite T, Hl. by rewrite app_nil_r.
  - destruct (truthy (event_get w this key)) eqn:E.
    + destruct (removeEvent_spec this key w E) as (w' & -> & _ & _ & _ & _ & T).
      simpl. rewrite T, Hl. by rewrite app_nil_r.
    + by rewrite (removeEvent_skip _ _ _ E).
  - intros E. destruct (addEvent_spec this key v w E) as (w' & E' & V & _).
    by rewrite E'.
  - intros _ E Hk. destruct (setAttr_write _ _ _ _ _ E) as (w' & E' & P & _).
    rewrite E'. simpl.
    rewrite (put_own _ _ _ _ (reaches_setter_key _ _ _ Hk)) in P.
    by injection P.
  - intros _ E Hk. destruct (setStyle_write _ _ _ _ _ E) as (w' & E' & P & _).
    rewrite E'. simpl.
    rewrite (put_own _ _ _ _ (reaches_setter_key _ _ _ Hk)) in P.
    by injection P.
Qed.

Lemma no_listener_maps_only_witness :
  trace (world_of (setAttr 6 "x" (VNum 1) VUndefined world_ATB) world_ATB)
    = trace world_ATB
  ∧ attr (node_of (world_of (setAttr 6 "x" (VNum 1) VUndefined world_ATB)
                     world_ATB) 6)
    = <[ "x"%string := VNum 1 ]> (attr (node_of world_ATB 6)).
Proof.
  destruct (no_listener_maps_only 6 "x" (VNum 1) VUndefined Nothing world_ATB)
    as (H1 & _ & _ & _ & _ & _ & H2 & _).
  - vm_compute. reflexivity.
  - split; [exact H1|].
    apply H2; [left; vm_compute; reflexivity | vm_compute; reflexivity
              | discriminate].
Defined.

(** ** Where [insertBefore] and [insertAfter] put a node in [children] *)

(** A detached node, element or not, inserted relative to a child [y] of
    [this] lands in [this.children] right before [y] ([insertBefore]) or right
    after it ([insertAfter]), the other entries keeping their order, and gets
    [this] as its parent; the store stays well formed. *)
Theorem insert_detached_in_children this node y w nd l1 l2 :
  WF w → nodes w !! node = Some nd → parentNode nd = None → node ≠ y →
  children (node_of w this) = l1 ++ y :: l2 →
  (¬ (is_Some (nextSibling nd) ∧ nextSibling nd = Some y) →
   ∃ r w', insertBefore this node (Some y) w = Returned r w' ∧
     children (node_of w' this) = l1 ++ node :: y :: l2 ∧
     parentNode (node_of w' node) = Some this ∧ WF w')
  ∧ (¬ (is_Some (previousSibling nd) ∧ previousSibling nd = Some y) →
     ∃ r w', insertAfter this node (Some y) w = Returned r w' ∧
       children (node_of w' this) = l1 ++ y :: node :: l2 ∧
       parentNode (node_of w' node) = Some this ∧ WF w').
Proof.
  intros Hwf Hn Hp Hne Hc.
  pose proof (lookup_node_of w node nd Hn) as Hnd.
  split; intros Hs; pose proof (already_there_false _ _ _ Hne Hs) as Hg.
  - destruct (insertBefore_detached this node y w nd l1 l2 Hwf Hn Hp Hg Hc)
      as (r & w' & E & Ef & _).
    exists r, w'. split; [done|].
    pose proof Ef as (_ & R & P).
    pose proof (R (Children this)) as Rc. rewrite decide_True in Rc by done.
    split; [done|]. split; [by rewrite P, decide_True|].
    eapply (WF_attach w w' this node _ _ l1 (y :: l2) Hwf);
      [by rewrite Hnd|exact Ef|done|done|].
    by destruct (isElement w node).
  - destruct (insertAfter_detached this node y w nd l1 l2 Hwf Hn Hp Hg Hc)
      as (r & w' & E & Ef & _).
    exists r, w'. split; [done|].
    pose proof Ef as (_ & R & P).
    pose proof (R (Children this)) as Rc. rewrite decide_True in Rc by done.
    unfold read in Rc.
    split; [by rewrite Rc, <- app_assoc|]. split; [by rewrite P, decide_True|].
    eapply (WF_attach w w' this node _ _ (l1 ++ [y]) l2 Hwf);
      [by rewrite Hnd|exact Ef|by rewrite <- app_assoc|done|].
    by destruct (isElement w node).
Qed.

Lemma insert_detached_in_children_witness :
  (∃ r w', insertBefore 1 6 (Some 3) world_ATB = Returned r w' ∧
     children (node_of w' 1) = [2] ++ 6 :: 3 :: [4] ∧
     parentNode (node_of w' 6) = Some 1 ∧ WF w')
  ∧ (∃ r w', insertAfter 1 6 (Some 3) world_ATB = Returned r w' ∧
     children (node_of w' 1) = [2] ++ 3 :: 6 :: [4] ∧
     parentNode (node_of w' 6) = Some 1 ∧ WF w').
Proof.
  destruct (insert_detached_in_children 1 6 3 world_ATB (node_of world_ATB 6)
              [2] [4]) as [Hb Ha].
  - apply WF_stored_WF.
    apply (@bool_decide_unpack _ (WF_stored_dec world_ATB)).
    vm_compute. exact I.
  - vm_compute. reflexivity.
  - vm_compute. reflexivity.
  - lia.
  - vm_compute. reflexivity.
  - split.
    + apply Hb. intros [_ H]. vm_compute in H. discriminate.
    + apply Ha. intros [_ H]. vm_compute in H. discriminate.
Defined.

Lemma indexOf_at (l1 l2 : list id) x :
  x ∉ l1 → indexOf (l1 ++ x :: l2) (Some x) = Z.of_nat (length l1).
Proof. apply indexOf_middle. Qed.

(** A child of [this] that [insertBefore] or [insertAfter] moves relative to
    another child [y]: in [children] it lands right before, respectively right
    after, [y]; if it is an element it lands in [pureChildren] between the
    elements that come before and after that place, and
    [moveElement(node.ref, this.ref, index)] with its new index there is sent
    exactly when that index differs from the old one and a listener exists.  A
    move among entries that are not elements sends nothing. *)
Theorem insert_moves_child this node y w nd l1 l2 :
  WF w → nodes w !! node = Some nd → parentNode nd = Some this →
  node ∈ children (node_of w this) → node ≠ y →
  removed node (children (node_of w this)) = l1 ++ y :: l2 →
  (¬ (is_Some (nextSibling nd) ∧ nextSibling nd = Some y) →
   ∃ r w', insertBefore this node (Some y) w = Returned r w' ∧
     children (node_of w' this) = l1 ++ node :: y :: l2 ∧
     pureChildren (node_of w' this)
       = (if isElement w node
          then elems w l1 ++ node :: elems w (y :: l2)
          else pureChildren (node_of w this)) ∧
     trace w' = trace w ++
       if isElement w node
          && negb (bool_decide
                     (indexOf (pureChildren (node_of w' this)) (Some node)
                      = indexOf (pureChildren (node_of w this)) (Some node)))
       then from_option
              (λ l, [Send l (MoveElement (ref node) (ref this)
                       (indexOf (pureChildren (node_of w' this)) (Some node)))])
              [] (getListener (docId (node_of w this)) w)
       else [])
  ∧ (¬ (is_Some (previousSibling nd) ∧ previousSibling nd = Some y) →
     ∃ r w', insertAfter this node (Some y) w = Returned r w' ∧
       children (node_of w' this) = l1 ++ y :: node :: l2 ∧
       pureChildren (node_of w' this)
         = (if isElement w node
            then elems w (l1 ++ [y]) ++ node :: elems w l2
            else pureChildren (node_of w this)) ∧
       trace w' = trace w ++
         if isElement w node
            && negb (bool_decide
                       (indexOf (pureChildren (node_of w' this)) (Some node)
                        = indexOf (pureChildren (node_of w this)) (Some node)))
         then from_option
                (λ l, [Send l (MoveElement (ref node) (ref this)
                         (indexOf (pureChildren (node_of w' this))
                            (Some node)))])
                [] (getListener (docId (node_of w this)) w)
         else []).
Proof.
  intros Hwf Hn Hp Hin Hne Hrem.
  apply list_elem_of_split_l in Hin as (a & b & Hc & Hxa).
  rewrite Hc, removed_middle in Hrem by done.
  pose proof (WF_NoDup w this Hwf) as Hnd. rewrite Hc in Hnd.
  destruct (NoDup_middle_notin a b node Hnd) as (_ & Hxb & Hxab & Hnd').
  assert (Hold : isElement w node = true →
            indexOf (pureChildren (node_of w this)) (Some node)
              = Z.of_nat (length (elems w a))).
  { intros He.
    rewrite (WF_pure w this Hwf), Hc, filter_app, (filter_cons_True _ node)
      by done.
    apply indexOf_at. intros H. by apply list_elem_of_filter in H as [_ H]. }
  assert (Hl1 : node ∉ l1).
  { intros H. apply Hxab. rewrite Hrem. apply elem_of_app. by left. }
  assert (Hl1y : node ∉ l1 ++ [y]).
  { intros H. apply elem_of_app in H as [H|H]; [done|].
    by apply list_elem_of_singleton in H. }
  split; intros Hs; pose proof (already_there_false _ _ _ Hne Hs) as Hg.
  - destruct (insertBefore_child this node y w nd a b l1 l2
                Hwf Hn Hp Hg Hc Hrem) as (r & w' & E & (_ & R & _) & T).
    exists r, w'. split; [done|].
    pose proof (R (Children this)) as Rc. rewrite decide_True in Rc by done.
    pose proof (R (PureChildren this)) as Rp.
    rewrite decide_False, decide_True in Rp by done. unfold read in Rc, Rp.
    split; [done|]. split; [done|].
    rewrite T. f_equal. destruct (isElement w node) eqn:He; [|done]. simpl.
    rewrite Rp, (Hold eq_refl), indexOf_at.
    2:{ intros H. by apply list_elem_of_filter in H as [_ H]. }
    repeat case_bool_decide; try done; lia.
  - destruct (insertAfter_child this node y w nd a b l1 l2
                Hwf Hn Hp Hg Hc Hrem) as (r & w' & E & (_ & R & _) & T).
    exists r, w'. split; [done|].
    pose proof (R (Children this)) as Rc. rewrite decide_True in Rc by done.
    pose proof (R (PureChildren this)) as Rp.
    rewrite decide_False, decide_True in Rp by done. unfold read in Rc, Rp.
    split; [by rewrite Rc, <- app_assoc|]. split; [done|].
    rewrite T. f_equal. destruct (isElement w node) eqn:He; [|done]. simpl.
    rewrite Rp, (Hold eq_refl), indexOf_at.
    2:{ intros H. by apply list_elem_of_filter in H as [_ H]. }
    repeat case_bool_decide; try done; lia.
Qed.

Lemma insert_moves_child_witness :
  ∃ r w', insertBefore 1 4 (Some 2) world_ATB = Returned r w' ∧
    children (node_of w' 1) = [] ++ 4 :: 2 :: [3].
Proof.
  destruct (insert_moves_child 1 4 2 world_ATB (node_of world_ATB 4) [] [3])
    as [Hb _].
  - apply WF_stored_WF.
    apply (@bool_decide_unpack _ (WF_stored_dec world_ATB)).
    vm_compute. exact I.
  - vm_compute. reflexivity.
  - vm_compute. reflexivity.
  - refine (bool_decide_unpack _ _). vm_compute. exact I.
  - lia.
  - vm_compute. reflexivity.
  - destruct Hb as (r & w' & E & C & _).
    + intros [_ H]. vm_compute in H. discriminate.
    + exists r, w'. split; [exact E|exact C].
Defined.

(** ** Registration of attached nodes *)

Lemma docs_register this node w :
  docs (register this node w) =
    match docId (node_of w this) with
    | Some d => if docId_truthy (Some d) then registered d node w else docs w
    | None => docs w
    end.
Proof.
  Transparent register. unfold register. Opaque register.
  destruct (docId (node_of w this)) as [d|]; [|done].
  by destruct (docId_truthy (Some d)).
Qed.

Lemma attach_docs this node pos ppos sent w :
  ∃ r w', attach this node pos ppos sent w = Returned r w' ∧
    docs w' =
      match docId (node_of w this) with
      | Some d => if docId_truthy (Some d) then registered d node w else docs w
      | None => docs w
      end.
Proof.
  unfold attach.
  set (w1 := linkParent node this w).
  set (w2 := (insertIndex node (Children this) (pos w1) true w1).2).
  assert (Hd : docs (register this node w2) =
    match docId (node_of w this) with
    | Some d => if docId_truthy (Some d) then registered d node w else docs w
    | None => docs w
    end).
  { rewrite docs_register.
    assert (H1 : docId (node_of w2 this) = docId (node_of w this)).
    { unfold w2, w1. frame. apply docId_this_linkParent. }
    assert (H2 : docs w2 = docs w) by (unfold w2, w1; by frame).
    rewrite H1, H2. destruct (docId (node_of w this)) as [d|]; [|done].
    destruct (docId_truthy (Some d)); [|done].
    unfold registered, getDoc. by rewrite H2. }
  destruct (isElement _ node).
  - rewrite tell_eq. eexists _, _. split; [reflexivity|]. by frame.
  - by eexists _, _.
Qed.

Lemma reorder_docs this node pos ppos w :
  ∃ r w', reorder this node pos ppos w = Returned r w' ∧ docs w' = docs w.
Proof.
  destruct (reorder_spec this node pos ppos w)
    as (w2 & r & w' & -> & E & _).
  exists r, w'. split; [done|]. revert E. unfold reorder.
  destruct (isElement _ node).
  - destruct (tell_move_eq this node
      (moveIndex node (PureChildren this)
         (ppos (moveIndex node (Children this) (pos w) true w).2) false
         (moveIndex node (Children this) (pos w) true w).2).1
      (moveIndex node (PureChildren this)
         (ppos (moveIndex node (Children this) (pos w) true w).2) false
         (moveIndex node (Children this) (pos w) true w).2).2) as [r' Hr].
    rewrite Hr. intros E. simplify_eq. by frame.
  - intros E. simplify_eq. by frame.
Qed.

(** Attaching a detached node registers it: when [this.docId] is a non-empty
    identifier [d], [appendChild], [insertBefore] and [insertAfter] add the
    node to the node table of [d], whose other entries and whose listener
    stay, and no other document changes; when [this.docId] is unset or empty
    the documents are left as they are. *)
Theorem attach_registers this node x w nd :
  nodes w !! node = Some nd → parentNode nd = None →
  let after_attach (w' : World) :=
    (∀ d, docId (node_of w this) = Some d → d ≠ ""%string →
       nodeMap (getDoc d w') = {[node]} ∪ nodeMap (getDoc d w)
       ∧ listener (getDoc d w') = listener (getDoc d w)
       ∧ ∀ d', d' ≠ d → docs w' !! d' = docs w !! d')
    ∧ (docId_truthy (docId (node_of w this)) = false → docs w' = docs w) in
  (∃ r w', appendChild this node w = Returned r w' ∧ after_attach w')
  ∧ (already_there node (nextSibling nd) x = false →
     ∃ r w', insertBefore this node x w = Returned r w' ∧ after_attach w')
  ∧ (already_there node (previousSibling nd) x = false →
     ∃ r w', insertAfter this node x w = Returned r w' ∧ after_attach w').
Proof.
  intros Hn Hp after_attach.
  assert (H : ∀ w', docs w' =
      match docId (node_of w this) with
      | Some d => if docId_truthy (Some d) then registered d node w else docs w
      | None => docs w
      end → after_attach w').
  { intros w' Hd. split.
    - intros d Ed Hne. rewrite Ed in Hd.
      assert (Ht : docId_truthy (Some d) = true).
      { simpl. by rewrite bool_decide_eq_false_2. }
      rewrite Ht in Hd. unfold getDoc at 1 3. rewrite Hd. unfold registered.
      rewrite lookup_insert_eq. simpl. split; [done|]. split; [done|].
      intros d' Hd'. by rewrite lookup_insert_ne.
    - intros Hf. rewrite Hd. destruct (docId (node_of w this)); [|done].
      by rewrite Hf. }
  split; [|split].
  - rewrite appendChild_unfold, Hn, Hp.
    destruct (attach_docs this node (len (Children this))
                (len (PureChildren this)) (λ _, (-1)%Z) w) as (r & w' & E & D).
    exists r, w'. split; [done|]. by apply H.
  - intros Hg. rewrite insertBefore_unfold, Hn, Hp, Hg.
    destruct (attach_docs this node (λ w, indexOf (read (Children this) w) x)
                (pure_before this x) (λ i, i) w) as (r & w' & E & D).
    exists r, w'. split; [done|]. by apply H.
  - intros Hg. rewrite insertAfter_unfold, Hn, Hp, Hg.
    destruct (attach_docs this node
                (λ w, (indexOf (read (Children this) w) x + 1)%Z)
                (pure_after this x) (λ i, i) w) as (r & w' & E & D).
    exists r, w'. split; [done|]. by apply H.
Qed.

Lemma attach_registers_witness :
  ∃ r w', appendChild 1 2 world0 = Returned r w' ∧
    nodeMap (getDoc "doc" w') = {[2]} ∪ nodeMap (getDoc "doc" world0).
Proof.
  destruct (attach_registers 1 2 None world0 (node_of world0 2))
    as ((r & w' & E & H & _) & _).
  - vm_compute. reflexivity.
  - vm_compute. reflexivity.
  - exists r, w'. split; [exact E|].
    apply (H "doc"%string); [vm_compute; reflexivity | discriminate].
Defined.

(** ** What the map methods leave alone *)

Lemma shape_upd_map n f w m :
  (∀ nd, shape (f nd) = shape nd) →
  shape (node_of (upd n f w) m) = shape (node_of w m).
Proof. intros H. rewrite node_of_upd. case_decide; subst; by rewrite ?H. Qed.

(** [setAttr], [setStyle], [setClassStyle], [addEvent] and [removeEvent] never
    change the type, the parent and sibling links, the document, the
    [children] or the [pureChildren] of any node, nor the documents; a
    well-formed store stays well formed under them. *)
Theorem map_methods_keep_tree this key v silent arg w o :
  o ∈ [setAttr this key v silent w; setStyle this key v silent w;
       setClassStyle this arg w; addEvent this key v w;
       removeEvent this key w] →
  ∃ w', o = Returned undefined w' ∧
    (∀ m, shape (node_of w' m) = shape (node_of w m)) ∧
    docs w' = docs w ∧
    (WF w → WF w').
Proof.
  intros Ho.
  assert (Hwf : ∀ w', (∀ m, shape (node_of w' m) = shape (node_of w m)) →
            WF w → WF w').
  { intros w' Hs Hwf.
    assert (Hf : ∀ m, nodeType (node_of w' m) = nodeType (node_of w m)
                      ∧ parentNode (node_of w' m) = parentNode (node_of w m)
                      ∧ children (node_of w' m) = children (node_of w m)
                      ∧ pureChildren (node_of w' m) = pureChildren (node_of w m)).
    { intros m. specialize (Hs m). unfold shape in Hs. by simplify_eq. }
    intros p. destruct (Hf p) as (_ & _ & Hc & Hp).
    unfold node_wf, pure_ok. rewrite Hc, Hp.
    rewrite (elems_ext w w') by (intros m; apply Hf).
    split; [by apply WF_pure|]. split; [by apply WF_NoDup|].
    apply Forall_forall. intros c Hin. destruct (Hf c) as (_ & -> & _).
    by apply WF_parent. }
  assert (Hsend : ∀ l c w0 m, shape (node_of (send_to l c w0) m)
                              = shape (node_of w0 m)).
  { intros. by rewrite node_of_send_to. }
  cut (∃ w', o = Returned undefined w' ∧
         (∀ m, shape (node_of w' m) = shape (node_of w m)) ∧ docs w' = docs w).
  { intros (w' & E & Hs & Hd). exists w'. eauto. }
  rewrite !elem_of_cons in Ho.
  destruct Ho as [->|[->|[->|[->|[->|Ho]]]]]; [| | | | |by apply elem_of_nil in Ho].
  - unfold setAttr. destruct (_ && _); [by exists w|].
    eexists. split; [reflexivity|].
    destruct (negb (truthy silent)); split;
      try (intros m; rewrite ?Hsend; by apply shape_upd_map);
      by rewrite ?docs_send_to.
  - unfold setStyle. destruct (_ && _); [by exists w|].
    eexists. split; [reflexivity|].
    destruct (negb (truthy silent)); split;
      try (intros m; rewrite ?Hsend; by apply shape_upd_map);
      by rewrite ?docs_send_to.
  - unfold setClassStyle. eexists. split; [reflexivity|]. split.
    + intros m. rewrite Hsend, !shape_upd_map; done.
    + by rewrite docs_send_to.
  - unfold addEvent. destruct (negb _); [|by exists w].
    eexists. split; [reflexivity|]. split.
    + intros m. rewrite Hsend. by apply shape_upd_map.
    + by rewrite docs_send_to.
  - unfold removeEvent. destruct (truthy _); [|by exists w].
    eexists. split; [reflexivity|]. split.
    + intros m. rewrite Hsend. by apply shape_upd_map.
    + by rewrite docs_send_to.
Qed.

Lemma map_methods_keep_tree_witness :
  ∃ w', setClassStyle 1 (Object {[ "color"%string := VStr "red" ]}) world_ATB
          = Returned undefined w' ∧
    (∀ m, shape (node_of w' m) = shape (node_of world_ATB m)) ∧
    docs w' = docs world_ATB ∧ (WF world_ATB → WF w').
Proof.
  apply (map_methods_keep_tree 1 "color" (VStr "red") VUndefined
           (Object {[ "color"%string := VStr "red" ]}) world_ATB).
  right. right. left.
Defined.

(** ** Objects stay objects *)

Lemma keeps_refl w : keeps_objects w w.
Proof. by intros m. Qed.

Lemma keeps_trans w1 w2 w3 :
  keeps_objects w1 w2 → keeps_objects w2 w3 → keeps_objects w1 w3.
Proof. intros H1 H2 m Hm. by apply H2, H1. Qed.

Lemma keeps_nodes w w' : nodes w' = nodes w → keeps_objects w w'.
Proof. intros E m. by rewrite E. Qed.

Lemma keeps_upd n f w : keeps_objects w (upd n f w).
Proof.
  intros m Hm. unfold upd; simpl. rewrite lookup_insert.
  by case_decide.
Qed.

Lemma keeps_set_next n v w : keeps_objects w (set_next n v w).
Proof. destruct n; [apply keeps_upd | apply keeps_refl]. Qed.

Lemma keeps_set_prev n v w : keeps_objects w (set_prev n v w).
Proof. destruct n; [apply keeps_upd | apply keeps_refl]. Qed.

Lemma keeps_link t b a w : keeps_objects w (link t b a w).
Proof.
  unfold link.
  eapply keeps_trans; [|apply keeps_set_prev].
  eapply keeps_trans; [|apply keeps_set_next].
  eapply keeps_trans; [|apply keeps_set_prev].
  apply keeps_set_next.
Qed.

Lemma keeps_unlink b a w : keeps_objects w (unlink b a w).
Proof.
  unfold unlink. eapply keeps_trans; [|apply keeps_set_prev].
  apply keeps_set_next.
Qed.

Lemma keeps_write c l w : keeps_objects w (write c l w).
Proof.
  Transparent write. unfold write. Opaque write.
  destruct c; apply keeps_upd.
Qed.

Lemma keeps_insertIndex t c p b w : keeps_objects w (insertIndex t c p b w).2.
Proof.
  Transparent insertIndex. unfold insertIndex. Opaque insertIndex. simpl.
  destruct b; [|apply keeps_write].
  eapply keeps_trans; [apply keeps_write|apply keeps_link].
Qed.

Lemma keeps_moveIndex t c p b w : keeps_objects w (moveIndex t c p b w).2.
Proof.
  Transparent moveIndex. unfold moveIndex. Opaque moveIndex.
  destruct (index_of t (read c w)); simpl; [|apply keeps_refl].
  destruct b.
  - eapply keeps_trans; [apply keeps_unlink|].
    eapply keeps_trans; [apply keeps_write|apply keeps_link].
  - apply keeps_write.
Qed.

Lemma keeps_removeIndex t c b w : keeps_objects w (removeIndex t c b w).
Proof.
  Transparent removeIndex. unfold removeIndex. Opaque removeIndex.
  destruct (index_of t (read c w)); simpl; [|apply keeps_refl].
  destruct b; [|apply keeps_write].
  eapply keeps_trans; [apply keeps_unlink|apply keeps_write].
Qed.

Lemma keeps_linkParent n p w : keeps_objects w (linkParent n p w).
Proof.
  Transparent linkParent. unfold linkParent. Opaque linkParent.
  destruct (docId_truthy _); [|apply keeps_upd].
  eapply keeps_trans; apply keeps_upd.
Qed.

Lemma keeps_register this node w : keeps_objects w (register this node w).
Proof.
  apply keeps_nodes.
  Transparent register. unfold register. Opaque register.
  destruct (docId (node_of w this)); [|done]. by destruct (docId_truthy _).
Qed.

Lemma keeps_send_to l c w : keeps_objects w (send_to l c w).
Proof.
  apply keeps_nodes.
  Transparent send_to. unfold send_to. Opaque send_to. by destruct l.
Qed.

Lemma keeps_attach this node pos ppos sent w r w' :
  attach this node pos ppos sent w = Returned r w' → keeps_objects w w'.
Proof.
  unfold attach.
  set (w1 := linkParent node this w).
  set (w2 := (insertIndex node (Children this) (pos w1) true w1).2).
  set (w3 := register this node w2).
  assert (H3 : keeps_objects w w3).
  { eapply keeps_trans; [apply keeps_linkParent|].
    eapply keeps_trans; [apply keeps_insertIndex|]. apply keeps_register. }
  destruct (isElement w3 node).
  - rewrite tell_eq. intros E. simplify_eq.
    eapply keeps_trans; [exact H3|].
    eapply keeps_trans; [apply keeps_insertIndex|apply keeps_send_to].
  - intros E. by simplify_eq.
Qed.

Lemma keeps_reorder this node pos ppos w r w' :
  reorder this node pos ppos w = Returned r w' → keeps_objects w w'.
Proof.
  unfold reorder.
  set (w2 := (moveIndex node (Children this) (pos w) true w).2).
  assert (H2 : keeps_objects w w2) by apply keeps_moveIndex.
  destruct (isElement w2 node).
  - destruct (tell_move_eq this node
      (moveIndex node (PureChildren this) (ppos w2) false w2).1
      (moveIndex node (PureChildren this) (ppos w2) false w2).2) as [r' Hr].
    rewrite Hr. intros E. simplify_eq.
    eapply keeps_trans; [exact H2|].
    eapply keeps_trans; [apply keeps_moveIndex|apply keeps_send_to].
  - intros E. by simplify_eq.
Qed.

Lemma keeps_appendChild this node w r w' :
  appendChild this node w = Returned r w' → keeps_objects w w'.
Proof.
  rewrite appendChild_unfold. destruct (nodes w !! node) as [nd|]; [|done].
  destruct (parentNode nd) as [q|]; [|apply keeps_attach].
  case_decide; [apply keeps_reorder|]. intros E. simplify_eq. apply keeps_refl.
Qed.

Lemma keeps_insertBefore this node x w r w' :
  insertBefore this node x w = Returned r w' → keeps_objects w w'.
Proof.
  rewrite insertBefore_unfold. destruct (nodes w !! node) as [nd|]; [|done].
  destruct (parentNode nd) as [q|].
  - case_decide; [|intros E; simplify_eq; apply keeps_refl].
    destruct (already_there _ _ _); [|apply keeps_reorder].
    intros E. simplify_eq. apply keeps_refl.
  - destruct (already_there _ _ _); [|apply keeps_attach].
    intros E. simplify_eq. apply keeps_refl.
Qed.

Lemma keeps_insertAfter this node x w r w' :
  insertAfter this node x w = Returned r w' → keeps_objects w w'.
Proof.
  rewrite insertAfter_unfold. destruct (nodes w !! node) as [nd|]; [|done].
  destruct (parentNode nd) as [q|].
  - case_decide; [|intros E; simplify_eq; apply keeps_refl].
    destruct (already_there _ _ _); [|apply keeps_reorder].
    intros E. simplify_eq. apply keeps_refl.
  - destruct (already_there _ _ _); [|apply keeps_attach].
    intros E. simplify_eq. apply keeps_refl.
Qed.

(** ** Sibling links after an insertion *)

Lemma next_set_prev n v w m :
  nextSibling (node_of (set_prev n v w) m) = nextSibling (node_of w m).
Proof. destruct n; [|done]. simpl. by apply field_upd. Qed.

Lemma prev_set_next n v w m :
  previousSibling (node_of (set_next n v w) m) = previousSibling (node_of w m).
Proof. destruct n; [|done]. simpl. by apply field_upd. Qed.

Lemma next_set_next n v w m :
  nextSibling (node_of (set_next n v w) m) =
    if decide (n = Some m) then v else nextSibling (node_of w m).
Proof.
  destruct n as [n|]; simpl; [|done || by case_decide].
  rewrite node_of_upd. repeat case_decide; simplify_eq; done.
Qed.

Lemma prev_set_prev n v w m :
  previousSibling (node_of (set_prev n v w) m) =
    if decide (n = Some m) then v else previousSibling (node_of w m).
Proof.
  destruct n as [n|]; simpl; [|done || by case_decide].
  rewrite node_of_upd. repeat case_decide; simplify_eq; done.
Qed.

Lemma link_next t b a w : nextSibling (node_of (link t b a w) t) = a.
Proof.
  unfold link. rewrite next_set_prev, next_set_next. by rewrite decide_True.
Qed.

Lemma link_prev t b a w :
  a ≠ Some t → previousSibling (node_of (link t b a w) t) = b.
Proof.
  intros Ha. unfold link.
  rewrite prev_set_prev, decide_False by done.
  rewrite prev_set_next, prev_set_prev. by rewrite decide_True.
Qed.

Lemma link_prev_of_after t b y w :
  previousSibling (node_of (link t b (Some y) w) y) = Some t.
Proof. unfold link. rewrite prev_set_prev. by rewrite decide_True. Qed.

Lemma link_next_of_before t x a w :
  x ≠ t → nextSibling (node_of (link t (Some x) a w) x) = Some t.
Proof.
  intros Hx. unfold link.
  rewrite next_set_prev, next_set_next, decide_False by congruence.
  rewrite next_set_prev, next_set_next. by rewrite decide_True.
Qed.

Lemma insertIndex_link t c p w :
  (insertIndex t c p true w).2 =
    link t (prev_at (read c w) (splice_start (length (read c w)) p))
      (read c w !! splice_start (length (read c w)) p)
      (write c (insert_at (splice_start (length (read c w)) p) t (read c w)) w).
Proof. Transparent insertIndex. unfold insertIndex. Opaque insertIndex. done. Qed.

Lemma field_insertIndex_nolink {A} (g : Node → A) t c p w m :
  list_stable g →
  g (node_of (insertIndex t c p false w).2 m) = g (node_of w m).
Proof.
  intros H. Transparent insertIndex. unfold insertIndex. Opaque insertIndex.
  simpl. by apply field_write.
Qed.

Lemma stable_siblings : list_stable nextSibling ∧ list_stable previousSibling.
Proof. by split. Qed.

(** After [attach], the sibling links are those written by the insertion
    into [children]. *)
Lemma attach_links this node pos ppos sent w :
  ∃ r w', attach this node pos ppos sent w = Returned r w' ∧
    ∀ m, nextSibling (node_of w' m)
         = nextSibling (node_of (insertIndex node (Children this)
             (pos (linkParent node this w)) true (linkParent node this w)).2 m)
       ∧ previousSibling (node_of w' m)
         = previousSibling (node_of (insertIndex node (Children this)
             (pos (linkParent node this w)) true (linkParent node this w)).2 m).
Proof.
  unfold attach.
  set (w1 := linkParent node this w).
  set (w2 := (insertIndex node (Children this) (pos w1) true w1).2).
  destruct (isElement _ node).
  - rewrite tell_eq. eexists _, _. split; [reflexivity|]. intros m.
    rewrite node_of_send_to.
    rewrite !field_insertIndex_nolink by apply stable_siblings.
    by rewrite node_of_register.
  - eexists _, _. split; [reflexivity|]. intros m.
    by rewrite node_of_register.
Qed.

(** A detached node inserted before (after) a child [y] of [this] has [y] as
    its next (previous) sibling and is the previous (next) sibling of [y];
    the same call made again finds the node in place and returns the world as
    it is. *)
Theorem insert_again_is_noop this node y w nd l1 l2 :
  WF w → nodes w !! node = Some nd → parentNode nd = None → node ≠ y →
  children (node_of w this) = l1 ++ y :: l2 →
  (¬ (is_Some (nextSibling nd) ∧ nextSibling nd = Some y) →
   ∃ r w', insertBefore this node (Some y) w = Returned r w' ∧
     nextSibling (node_of w' node) = Some y ∧
     previousSibling (node_of w' y) = Some node ∧
     insertBefore this node (Some y) w' = Returned undefined w')
  ∧ (¬ (is_Some (previousSibling nd) ∧ previousSibling nd = Some y) →
     ∃ r w', insertAfter this node (Some y) w = Returned r w' ∧
       previousSibling (node_of w' node) = Some y ∧
       nextSibling (node_of w' y) = Some node ∧
       insertAfter this node (Some y) w' = Returned undefined w').
Proof.
  intros Hwf Hn Hp Hne Hc.
  pose proof (WF_NoDup w this Hwf) as Hnd. rewrite Hc in Hnd.
  pose proof (NoDup_app_cons_notin _ _ _ Hnd) as Hy.
  assert (Hlook : (l1 ++ y :: l2) !! length l1 = Some y).
  { by rewrite lookup_app_r, Nat.sub_diag by lia. }
  split; intros Hs; pose proof (already_there_false _ _ _ Hne Hs) as Hg.
  - pose proof (insertBefore_unfold this node (Some y) w) as Hu.
    rewrite Hn, Hp, Hg in Hu.
    destruct (attach_links this node
                (λ w, indexOf (read (Children this) w) (Some y))
                (pure_before this (Some y)) (λ i, i) w) as (r & w' & E & L).
    rewrite E in Hu. exists r, w'. split; [done|].
    assert (Hnext : nextSibling (node_of w' node) = Some y
                    ∧ previousSibling (node_of w' y) = Some node).
    { rewrite (proj1 (L node)), (proj2 (L y)), insertIndex_link.
      rewrite !read_linkParent. unfold read. rewrite Hc.
      rewrite (proj2 (inserted_before l1 y l2 node Hy)), Hlook.
      split; [apply link_next | apply link_prev_of_after]. }
    split; [apply Hnext|]. split; [apply Hnext|].
    destruct (keeps_insertBefore _ _ _ _ _ _ Hu node) as [nd' Hn']; [eauto|].
    apply (insert_guarded this node (Some y) w' nd' (nextSibling nd') Hn');
      [|done].
    apply already_there_true. right.
    rewrite <- (lookup_node_of w' node nd' Hn'), (proj1 Hnext). eauto.
  - pose proof (insertAfter_unfold this node (Some y) w) as Hu.
    rewrite Hn, Hp, Hg in Hu.
    destruct (attach_links this node
                (λ w, (indexOf (read (Children this) w) (Some y) + 1)%Z)
                (pure_after this (Some y)) (λ i, i) w) as (r & w' & E & L).
    rewrite E in Hu. exists r, w'. split; [done|].
    assert (Hnotin : node ∉ l1 ++ y :: l2).
    { rewrite <- Hc. apply WF_detached; [done|].
      by rewrite (lookup_node_of w node nd Hn). }
    assert (Hprev : previousSibling (node_of w' node) = Some y
                    ∧ nextSibling (node_of w' y) = Some node).
    { rewrite (proj2 (L node)), (proj1 (L y)), insertIndex_link.
      rewrite !read_linkParent. unfold read. rewrite Hc.
      rewrite (proj2 (inserted_after l1 y l2 node Hy)). simpl. rewrite Hlook.
      split.
      - apply link_prev. intros Hx. apply Hnotin.
        by apply list_elem_of_lookup_2 in Hx.
      - apply link_next_of_before. congruence. }
    split; [apply Hprev|]. split; [apply Hprev|].
    destruct (keeps_insertAfter _ _ _ _ _ _ Hu node) as [nd' Hn']; [eauto|].
    apply (insert_guarded this node (Some y) w' nd' (previousSibling nd') Hn');
      [|done].
    apply already_there_true. right.
    rewrite <- (lookup_node_of w' node nd' Hn'), (proj1 Hprev). eauto.
Qed.

Lemma insert_again_is_noop_witness :
  ∃ r w', insertBefore 1 6 (Some 3) world_ATB = Returned r w' ∧
    nextSibling (node_of w' 6) = Some 3 ∧
    previousSibling (node_of w' 3) = Some 6 ∧
    insertBefore 1 6 (Some 3) w' = Returned undefined w'.
Proof.
  destruct (insert_again_is_noop 1 6 3 world_ATB (node_of world_ATB 6)
              [2] [4]) as [Hb _].
  - apply WF_stored_WF.
    apply (@bool_decide_unpack _ (WF_stored_dec world_ATB)).
    vm_compute. exact I.
  - vm_compute. reflexivity.
  - vm_compute. reflexivity.
  - lia.
  - vm_compute. reflexivity.
  - apply Hb. intros [_ H]. vm_compute in H. discriminate.
Defined.

(** ** Appending the last child again *)

Lemma appendChild_last this node w nd :
  WF w → nodes w !! node = Some nd → parentNode nd = Some this →
  last (children (node_of w this)) = Some node →
  ∃ r w', appendChild this node w = Returned r w' ∧
    children (node_of w' this) = children (node_of w this) ∧
    pureChildren (node_of w' this) = pureChildren (node_of w this) ∧
    trace w' = trace w.
Proof.
  intros Hwf Hn Hp Hl.
  assert (Hin : node ∈ children (node_of w this)).
  { apply last_Some in Hl as [l' ->]. apply elem_of_app. right. left. }
  destruct (appendChild_child this node w nd Hn Hp)
    as (r & w' & E & (_ & R & _) & T).
  exists r, w'. split; [done|].
  pose proof (R (Children this)) as Rc. pose proof (R (PureChildren this)) as Rp.
  rewrite decide_True in Rc by done.
  rewrite decide_False, decide_True in Rp by done.
  unfold read in Rc, Rp.
  destruct (moved_to_end (children (node_of w this)) node
              (WF_NoDup w this Hwf) Hin) as [Mc Lc].
  rewrite Mc in Rc. simpl in Rc. rewrite (Lc Hl) in Rc.
  split; [done|].
  destruct (isElement w node) eqn:He; [|by rewrite T, app_nil_r].
  assert (Hinp : node ∈ pureChildren (node_of w this)).
  { rewrite (WF_pure w this Hwf). by apply list_elem_of_filter. }
  assert (Hndp : NoDup (pureChildren (node_of w this))).
  { rewrite (WF_pure w this Hwf). apply NoDup_filter. by apply WF_NoDup. }
  assert (Hlp : last (pureChildren (node_of w this)) = Some node).
  { apply last_Some in Hl as [l' Hl].
    rewrite (WF_pure w this Hwf), Hl, filter_app, filter_cons_True by done.
    by rewrite filter_nil, last_snoc. }
  destruct (moved_to_end (pureChildren (node_of w this)) node Hndp Hinp)
    as [Mp Lp].
  rewrite Mp in Rp, T. simpl in Rp, T. rewrite (Lp Hlp) in Rp, T.
  split; [done|]. rewrite T.
  rewrite bool_decide_eq_true_2 by done. simpl. by rewrite app_nil_r.
Qed.

(** [appendChild] is idempotent: once a detached node has been appended,
    appending it again to the same parent returns with [children],
    [pureChildren] and the trace as the first call left them. *)
Theorem appendChild_again_is_noop this node w nd :
  WF w → nodes w !! node = Some nd → parentNode nd = None →
  ∃ r1 w1, appendChild this node w = Returned r1 w1 ∧
    last (children (node_of w1 this)) = Some node ∧
    ∃ r2 w2, appendChild this node w1 = Returned r2 w2 ∧
      children (node_of w2 this) = children (node_of w1 this) ∧
      pureChildren (node_of w2 this) = pureChildren (node_of w1 this) ∧
      trace w2 = trace w1.
Proof.
  intros Hwf Hn Hp.
  destruct (appendChild_detached this node w nd Hn Hp)
    as (r1 & w1 & E & (_ & R & P) & _).
  exists r1, w1. split; [done|].
  pose proof (R (Children this)) as Rc. rewrite decide_True in Rc by done.
  unfold read in Rc.
  split; [by rewrite Rc, last_snoc|].
  assert (Hwf1 : WF w1).
  { destruct (appendChild_WF this node w Hwf) as (r & w' & E' & H'); [eauto|].
    rewrite E in E'. by simplify_eq. }
  destruct (keeps_appendChild _ _ _ _ _ E node) as [nd1 Hn1]; [eauto|].
  apply (appendChild_last this node w1 nd1 Hwf1 Hn1).
  - rewrite <- (lookup_node_of w1 node nd1 Hn1), P. by rewrite decide_True.
  - by rewrite Rc, last_snoc.
Qed.

Lemma appendChild_again_is_noop_witness :
  ∃ r1 w1, appendChild 1 6 world_ATB = Returned r1 w1 ∧
    last (children (node_of w1 1)) = Some 6 ∧
    ∃ r2 w2, appendChild 1 6 w1 = Returned r2 w2 ∧
      children (node_of w2 1) = children (node_of w1 1) ∧
      pureChildren (node_of w2 1) = pureChildren (node_of w1 1) ∧
      trace w2 = trace w1.
Proof.
  apply (appendChild_again_is_noop 1 6 world_ATB (node_of world_ATB 6)).
  - apply WF_stored_WF.
    apply (@bool_decide_unpack _ (WF_stored_dec world_ATB)).
    vm_compute. exact I.
  - vm_compute. reflexivity.
  - vm_compute. reflexivity.
Defined.
